(** * Comics-Tracker: the scraper, the diff engine and the message chunker

    A shallow embedding of [src/scraper.ts], [src/telegram.ts] and
    [src/monitor.ts], and the properties of the change-detection engine
    proved over it.

    Conventions.
    - A JavaScript string is a Rocq [string] read as its sequence of code
      units; the model covers code units 0..255, on which [length], [slice],
      [includes], [split], the default [sort] order, [trim] and
      [toLowerCase] below are the ECMAScript ones.  The glyphs of the fixed
      message templates that lie outside that range are kept as opaque
      literals; no statement depends on their length or order.
    - A JavaScript object or [Map] keyed by strings is an ordered dictionary
      ([Dict.t]): the list of its entries in property order.
    - What the platform supplies (the SHA-256 digest, [JSON.parse],
      floating-point numbers) is a [Runtime]; what the outside world supplies
      during one run (pages, the DOM queries of cheerio, Telegram's answer)
      is a [World]. *)

From Stdlib Require Import List String Ascii Bool Arith NArith Lia.
From Stdlib Require Import Sorting.Sorted Sorting.Permutation.
Import ListNotations.
Local Open Scope string_scope.
Local Open Scope list_scope.

Set Implicit Arguments.

(* ------------------------------------------------------------------ *)
(** ** String primitives *)

Module Str.

Definition nl : ascii := "010"%char.
Definition dq : string := String "034"%char EmptyString.

(** JavaScript truthiness of a string: non-empty. *)
Definition truthy (s : string) : bool :=
  match s with EmptyString => false | String _ _ => true end.

(** [truthy] lifted to [string | null | undefined]. *)
Definition truthy_opt (o : option string) : bool :=
  match o with Some s => truthy s | None => false end.

(** [s.startsWith(p)] *)
Definition startsWith (p s : string) : bool := String.prefix p s.

(** [s.slice(n)] *)
Fixpoint drop (n : nat) (s : string) : string :=
  match n, s with
  | O, _ => s
  | S _, EmptyString => EmptyString
  | S n', String _ s' => drop n' s'
  end.

(** [s.slice(i, i + n)] *)
Definition slice (i n : nat) (s : string) : string := String.substring i n s.

(** [hay.includes(needle)] *)
Fixpoint includes (needle hay : string) : bool :=
  String.prefix needle hay ||
  match hay with
  | EmptyString => false
  | String _ hay' => includes needle hay'
  end.

(** [s.split("\n")] *)
Fixpoint split_lines (s : string) : list string :=
  match s with
  | EmptyString => [EmptyString]
  | String c s' =>
      if Ascii.eqb c nl then EmptyString :: split_lines s'
      else match split_lines s' with
           | l :: ls => String c l :: ls
           | [] => [String c EmptyString]
           end
  end.

(** [ls.join(sep)] *)
Definition join (sep : string) (ls : list string) : string :=
  String.concat sep ls.

(** [s.replace(/c/g, rep)] for a one-character pattern. *)
Fixpoint replaceAll (c : ascii) (rep : string) (s : string) : string :=
  match s with
  | EmptyString => EmptyString
  | String a s' =>
      if Ascii.eqb a c then rep ++ replaceAll c rep s'
      else String a (replaceAll c rep s')
  end.

(** White space and line terminators of ECMAScript below code unit 256. *)
Definition isSpace (c : ascii) : bool :=
  let n := N_of_ascii c in
  (N.leb 9 n && N.leb n 13) || N.eqb n 32 || N.eqb n 160.

Fixpoint trimStart (s : string) : string :=
  match s with
  | EmptyString => EmptyString
  | String c s' => if isSpace c then trimStart s' else s
  end.

Fixpoint trimEnd (s : string) : string :=
  match s with
  | EmptyString => EmptyString
  | String c s' =>
      let t := trimEnd s' in
      if isSpace c && negb (truthy t) then EmptyString else String c t
  end.

(** [s.trim()] *)
Definition trim (s : string) : string := trimEnd (trimStart s).

(** [s.replace(/\s+/g, " ")]; [inRun] tells that the previous character
    was white space, already replaced. *)
Fixpoint collapseFrom (inRun : bool) (s : string) : string :=
  match s with
  | EmptyString => EmptyString
  | String c s' =>
      if isSpace c
      then if inRun then collapseFrom true s'
           else String " "%char (collapseFrom true s')
      else String c (collapseFrom false s')
  end.

Definition collapseSpaces (s : string) : string := collapseFrom false s.

Definition lowerChar (c : ascii) : ascii :=
  let n := N_of_ascii c in
  if (N.leb 65 n && N.leb n 90)
     || (N.leb 192 n && N.leb n 222 && negb (N.eqb n 215))
  then ascii_of_N (n + 32) else c.

(** [s.toLowerCase()] *)
Fixpoint toLowerCase (s : string) : string :=
  match s with
  | EmptyString => EmptyString
  | String c s' => String (lowerChar c) (toLowerCase s')
  end.

Definition isDigit (c : ascii) : bool :=
  let n := N_of_ascii c in N.leb 48 n && N.leb n 57.

(** The class [\w] extended with [-]. *)
Definition isWordOrDash (c : ascii) : bool :=
  let n := N_of_ascii c in
  isDigit c || (N.leb 65 n && N.leb n 90) || (N.leb 97 n && N.leb n 122)
  || N.eqb n 95 || N.eqb n 45.

Fixpoint forallb (p : ascii -> bool) (s : string) : bool :=
  match s with
  | EmptyString => true
  | String c s' => p c && forallb p s'
  end.

(** The longest prefix of [s] whose characters satisfy [p], and the rest. *)
Fixpoint span (p : ascii -> bool) (s : string) : string * string :=
  match s with
  | EmptyString => (EmptyString, EmptyString)
  | String c s' =>
      if p c then let (a, b) := span p s' in (String c a, b)
      else (EmptyString, s)
  end.

(** Decimal rendering of a length, as template literals print it. *)
Definition digit (n : nat) : ascii := ascii_of_nat (48 + n).

Fixpoint ofNat_fuel (fuel n : nat) (acc : string) : string :=
  match fuel with
  | O => acc
  | S f =>
      let acc' := String (digit (n mod 10)) acc in
      if Nat.eqb (n / 10) 0 then acc' else ofNat_fuel f (n / 10) acc'
  end.

Definition ofNat (n : nat) : string := ofNat_fuel (S n) n EmptyString.

Fixpoint repeat (c : ascii) (n : nat) : string :=
  match n with O => EmptyString | S n' => String c (repeat c n') end.

End Str.

(* ------------------------------------------------------------------ *)
(** ** Ordered dictionaries: JavaScript objects and [Map]s keyed by strings *)

Module Dict.

Definition t (V : Type) : Type := list (string * V).

Definition empty {V} : t V := [].

(** [d[k]], [d.get(k)] *)
Fixpoint get {V} (k : string) (d : t V) : option V :=
  match d with
  | [] => None
  | (k', v) :: d' => if String.eqb k k' then Some v else get k d'
  end.

Definition has {V} (k : string) (d : t V) : bool :=
  match get k d with Some _ => true | None => false end.

(** [d[k] = v], [d.set(k, v)], [{...d, [k]: v}]: an existing key keeps its
    place, a new one goes last. *)
Fixpoint set {V} (k : string) (v : V) (d : t V) : t V :=
  match d with
  | [] => [(k, v)]
  | (k', v') :: d' =>
      if String.eqb k k' then (k, v) :: d' else (k', v') :: set k v d'
  end.

Definition keys {V} (d : t V) : list string := map fst d.
Definition values {V} (d : t V) : list V := map snd d.
Definition size {V} (d : t V) : nat := List.length d.

(** [new Map(entries)], [Object.fromEntries(entries)] *)
Definition of_entries {V} (es : list (string * V)) : t V :=
  fold_left (fun d e => set (fst e) (snd e) d) es empty.

End Dict.

(* ------------------------------------------------------------------ *)
(** ** [JSON.stringify] on the values the program serialises *)

Module JSON.

Definition hexDigit (n : N) : ascii :=
  if N.ltb n 10 then ascii_of_N (48 + n) else ascii_of_N (87 + n).

(** One code unit inside a JSON string literal (QuoteJSONString). *)
Definition quoteChar (c : ascii) : string :=
  let n := N_of_ascii c in
  if N.eqb n 34 then "\" ++ Str.dq
  else if N.eqb n 92 then "\\"
  else if N.eqb n 8 then "\b"
  else if N.eqb n 12 then "\f"
  else if N.eqb n 10 then "\n"
  else if N.eqb n 13 then "\r"
  else if N.eqb n 9 then "\t"
  else if N.ltb n 32
       then "\u00" ++ String (hexDigit (N.div n 16))
                        (String (hexDigit (N.modulo n 16)) EmptyString)
  else String c EmptyString.

Fixpoint quoteChars (s : string) : string :=
  match s with
  | EmptyString => EmptyString
  | String c s' => quoteChar c ++ quoteChars s'
  end.

(** [JSON.stringify(s)] for a string [s]. *)
Definition quote (s : string) : string := Str.dq ++ quoteChars s ++ Str.dq.

(** [JSON.stringify(ids)] for an array of strings. *)
Definition stringify_ids (ids : list string) : string :=
  "[" ++ Str.join "," (map quote ids) ++ "]".

Definition stringify_nullable (v : option string) : string :=
  match v with Some s => quote s | None => "null" end.

(** [JSON.stringify(data)] for a [Record<string, string | null>]. *)
Definition stringify_record (d : Dict.t (option string)) : string :=
  "{" ++ Str.join ","
           (map (fun e => (quote (fst e) ++ ":" ++ stringify_nullable (snd e))%string) d)
      ++ "}".

(** [JSON.stringify(state, null, 2)] for a [Record<string, string>]. *)
Definition stringify_pretty (d : Dict.t string) : string :=
  match d with
  | [] => "{}"
  | _ =>
      "{" ++ String Str.nl EmptyString
      ++ Str.join ("," ++ String Str.nl EmptyString)
           (map (fun e => ("  " ++ quote (fst e) ++ ": " ++ quote (snd e))%string) d)
      ++ String Str.nl EmptyString ++ "}"
  end.

End JSON.

(* ------------------------------------------------------------------ *)
(** ** [src/telegram.ts]: splitting a message into parts *)

Module Telegram.

Definition TELEGRAM_MAX_MESSAGE_LEN : nat := 4096.
Definition TELEGRAM_SAFE_CHUNK_LEN : nat := 3800.

(** The fallback loop
    [for (let i = 0; i < line.length; i += maxLen) chunks.push(line.slice(i, i + maxLen))].
    Each iteration consumes one unit of [fuel]; [None] means the fuel ran
    out, which for [fuel = line.length] happens exactly when the source
    loop never ends ([maxLen = 0]). *)
Fixpoint sliceLoop (fuel i : nat) (line : string) (maxLen : nat)
  : option (list string) :=
  if Nat.ltb i (String.length line) then
    match fuel with
    | O => None
    | S fuel' =>
        match sliceLoop fuel' (i + maxLen) line maxLen with
        | Some rest => Some (Str.slice i maxLen line :: rest)
        | None => None
        end
    end
  else Some [].

(** [if (current) chunks.push(current)] *)
Definition flush (chunks : list string) (current : string) : list string :=
  if Str.truthy current then chunks ++ [current] else chunks.

(** The body of [for (const line of text.split("\n"))], with the two
    mutable variables [chunks] and [current] passed along. *)
Fixpoint chunkLoop (maxLen : nat) (lines : list string)
         (chunks : list string) (current : string)
  : option (list string) :=
  match lines with
  | [] => Some (flush chunks current)
  | line :: rest =>
      let next :=
        if Str.truthy current
        then (current ++ String Str.nl EmptyString ++ line)%string
        else line in
      if Nat.leb (String.length next) maxLen
      then chunkLoop maxLen rest chunks next
      else
        let chunks1 := flush chunks current in
        if Nat.leb (String.length line) maxLen
        then chunkLoop maxLen rest chunks1 line
        else
          match sliceLoop (String.length line) 0 line maxLen with
          | Some slices => chunkLoop maxLen rest (chunks1 ++ slices) EmptyString
          | None => None
          end
  end.

(** [chunkTelegramMessage(text, maxLen)]; [None] when the call does not
    return. *)
Definition chunkTelegramMessage (text : string) (maxLen : nat)
  : option (list string) :=
  if Nat.leb (String.length text) maxLen then Some [text]
  else chunkLoop maxLen (Str.split_lines text) [] EmptyString.

End Telegram.

(* ------------------------------------------------------------------ *)
(** ** The platform and the outside world *)

(** What Node supplies and the program only calls.
    - [parseFloat], [number_leb] ([<=]) and [number_show] (a number inside a
      template literal) act on IEEE doubles, kept abstract.
    - [sha256_hex s] is [createHash("sha256").update(s).digest("hex")].
    - [JSON_parse_ids raw] is what [new Set(JSON.parse(raw))] holds as far as
      [has] on a string can tell: the strings among its members; [None] when
      [JSON.parse] or the [Set] constructor throws.
    - [URL_resolve raw base] is [new URL(raw, base).toString()], [None] when
      the constructor throws. *)
Record Runtime : Type := {
  number : Type;
  parseFloat : string -> number;
  number_leb : number -> number -> bool;
  number_show : number -> string;
  sha256_hex : string -> string;
  JSON_parse_ids : string -> option (list string);
  URL_resolve : string -> string -> option string
}.

(** [JSON.parse] reads back the id arrays [JSON.stringify] writes. *)
Definition JSON_roundtrip (rt : Runtime) : Prop :=
  forall ids, JSON_parse_ids rt (JSON.stringify_ids ids) = Some ids.

(** An element matched by cheerio, seen through the three queries the
    scraper makes on it; [None] from a [find] means the selector is
    rejected (cheerio throws). *)
Record Element : Type := {
  el_attr : string -> option string;
  el_find_attr : string -> string -> option (option string);
  el_find_text : string -> option string
}.

(** One run's environment.
    - [http_get url]: the body of a 2xx answer, [None] otherwise.
    - [cheerio_select html sel]: the elements of [$(sel)] over
      [cheerio.load(html)]; [cheerio_text html sel] is
      [$(sel).first().text()]; [None] when cheerio throws.
    - [telegram_accepts text]: whether [sendMessage(text)] succeeds. *)
Record World : Type := {
  http_get : string -> option string;
  cheerio_select : string -> string -> option (list Element);
  cheerio_text : string -> string -> option string;
  telegram_accepts : string -> bool
}.

Inductive Fault : Type :=
| FetchError (url : string)
| ParseError
| NotifyError.

(** How an effect ends: with a value, with a typed failure (which
    [Effect.catchAll] recovers), or by a defect: an exception thrown inside
    the generator body, which [catchAll] lets through. *)
Inductive Exit (A : Type) : Type :=
| Success (a : A)
| Failure (e : Fault)
| Die.
Arguments Failure {A} e.
Arguments Die {A}.

(* ------------------------------------------------------------------ *)
(** ** [src/scraper.ts] *)

Module Scraper.

Record ScrapedItem : Type := {
  item_id : string;
  item_url : string;
  item_fields : Dict.t (option string)
}.

Record ExtractOptions : Type := {
  baseUrl : option string;
  idAttribute : option string;
  urlTemplate : option string;
  fieldTransforms : option (Dict.t string)
}.

(** [fetchPage(url)] *)
Definition fetchPage (w : World) (url : string) : Exit string :=
  match http_get w url with
  | Some html => Success html
  | None => Failure (FetchError url)
  end.

(** [$(selector).first().text().trim() || null] *)
Definition textOrNull (text : string) : option string :=
  let s := Str.trim text in if Str.truthy s then Some s else None.

(** The loop of [extractFields] over [Object.entries(selectors)]. *)
Fixpoint fieldsLoop (w : World) (html : string)
         (selectors : list (string * string))
  : option (list (string * option string)) :=
  match selectors with
  | [] => Some []
  | (field, selector) :: rest =>
      match cheerio_text w html selector with
      | None => None
      | Some text =>
          match fieldsLoop w html rest with
          | None => None
          | Some es => Some ((field, textOrNull text) :: es)
          end
      end
  end.

(** [extractFields(html, selectors)] *)
Definition extractFields (w : World) (html : string)
           (selectors : Dict.t string) : Exit (Dict.t (option string)) :=
  match fieldsLoop w html selectors with
  | Some es => Success (Dict.of_entries es)
  | None => Failure ParseError
  end.

(** Where the last [@] of a string cuts it. *)
Fixpoint splitLastAt (s : string) : option (string * string) :=
  match s with
  | EmptyString => None
  | String c s' =>
      match splitLastAt s' with
      | Some (a, b) => Some (String c a, b)
      | None => if Ascii.eqb c "@"%char then Some (EmptyString, s') else None
      end
  end.

Definition notLineTerminator (c : ascii) : bool :=
  negb (Ascii.eqb c "010"%char || Ascii.eqb c "013"%char).

(** [/^(.+)@([\w-]+)$/.exec(selectorRaw)]: the selector and the attribute
    name. The name holds no [@], so the [@] matched is the last one. *)
Definition attrMatch (selectorRaw : string) : option (string * string) :=
  match splitLastAt selectorRaw with
  | Some (selector, attr) =>
      if Str.truthy selector && Str.forallb notLineTerminator selector
         && Str.truthy attr && Str.forallb Str.isWordOrDash attr
      then Some (selector, attr) else None
  | None => None
  end.

(** The value of one field of one element; the outer [None] is a throw. *)
Definition extractField (rt : Runtime) (base : option string)
           (el : Element) (selectorRaw : string) : option (option string) :=
  match attrMatch selectorRaw with
  | Some (selector, attr) =>
      match el_find_attr el selector attr with
      | None => None
      | Some raw =>
          match raw, base with
          | Some r, Some b =>
              if Str.truthy r && Str.truthy b
              then match URL_resolve rt r b with
                   | Some u => Some (Some u)
                   | None => Some raw
                   end
              else Some raw
          | _, _ => Some raw
          end
      end
  | None =>
      match el_find_text el selectorRaw with
      | None => None
      | Some text => Some (textOrNull text)
      end
  end.

(** The names every plain object inherits from [Object.prototype]. *)
Definition inheritedNames : list string :=
  ["constructor"; "__defineGetter__"; "__defineSetter__"; "hasOwnProperty";
   "__lookupGetter__"; "__lookupSetter__"; "isPrototypeOf";
   "propertyIsEnumerable"; "toString"; "valueOf"; "__proto__";
   "toLocaleString"].

Definition inherited (k : string) : bool :=
  existsb (String.eqb k) inheritedNames.

(** The object [fields] of the callback: its own entries, and whether its
    prototype is still [Object.prototype] (an assignment of [null] to
    [__proto__] takes it away). *)
Record FieldsObject : Type := {
  own : Dict.t (option string);
  proto : bool
}.

(** [{}] *)
Definition emptyObject : FieldsObject := {| own := Dict.empty; proto := true |}.

(** What [fields[k]] evaluates to: an own value, a function or object
    found on the prototype, or [undefined]. *)
Inductive Read : Type :=
| OwnValue (v : option string)
| InheritedValue
| Undefined.

(** [fields[k]] *)
Definition readField (k : string) (fields : FieldsObject) : Read :=
  match Dict.get k (own fields) with
  | Some v => OwnValue v
  | None => if proto fields && inherited k then InheritedValue else Undefined
  end.

(** [fields[k] = v]. The inherited names are writable data properties,
    which an assignment shadows by an own entry, but for [__proto__]: its
    setter ignores a string and on [null] removes the prototype. *)
Definition writeField (k : string) (v : option string) (fields : FieldsObject)
  : FieldsObject :=
  if String.eqb k "__proto__" && proto fields
     && negb (Dict.has k (own fields))
  then match v with
       | None => {| own := own fields; proto := false |}
       | Some _ => fields
       end
  else {| own := Dict.set k v (own fields); proto := proto fields |}.

(** [for (const [field, selectorRaw] of Object.entries(fieldSelectors))] *)
Fixpoint extractLoop (rt : Runtime) (base : option string) (el : Element)
         (fieldSelectors : list (string * string))
         (fields : FieldsObject)
  : option FieldsObject :=
  match fieldSelectors with
  | [] => Some fields
  | (field, selectorRaw) :: rest =>
      match extractField rt base el selectorRaw with
      | None => None
      | Some v => extractLoop rt base el rest (writeField field v fields)
      end
  end.

(** One round of the transform loop; [None] when it throws: an inherited
    value is truthy and has no [startsWith]. *)
Definition applyTransform (fields : FieldsObject)
           (field transform : string) : option FieldsObject :=
  match readField field fields with
  | OwnValue (Some val) =>
      if Str.truthy val && Str.startsWith "stripPrefix:" transform
      then let prefix := Str.drop 12 transform in
           Some (writeField field
                   (Some (if Str.startsWith prefix val
                          then Str.drop (String.length prefix) val else val))
                   fields)
      else Some fields
  | InheritedValue =>
      if Str.startsWith "stripPrefix:" transform then None else Some fields
  | _ => Some fields
  end.

(** [for (const [field, transform] of Object.entries(fieldTransforms))] *)
Fixpoint transformLoop (transforms : list (string * string))
         (fields : FieldsObject) : option FieldsObject :=
  match transforms with
  | [] => Some fields
  | (field, transform) :: rest =>
      match applyTransform fields field transform with
      | None => None
      | Some fields1 => transformLoop rest fields1
      end
  end.

(** [if (fieldTransforms) { for ... }] *)
Definition applyTransforms (transforms : option (Dict.t string))
           (fields : FieldsObject) : option FieldsObject :=
  match transforms with
  | Some ts => transformLoop ts fields
  | None => Some fields
  end.

Definition notSlashOrQuery (c : ascii) : bool :=
  negb (Ascii.eqb c "/"%char || Ascii.eqb c "?"%char).

(** A match of [/\/products\/([^/?]+)/] starting at the head of [s]. *)
Definition codeAt (s : string) : option string :=
  if String.prefix "/products/" s
  then let code := fst (Str.span notSlashOrQuery (Str.drop 10 s)) in
       if Str.truthy code then Some code else None
  else None.

(** [/\/products\/([^/?]+)/.exec(s)?.[1]]: the leftmost match. *)
Fixpoint productCode (s : string) : option string :=
  match codeAt s with
  | Some code => Some code
  | None =>
      match s with
      | EmptyString => None
      | String _ s' => productCode s'
      end
  end.

(** The id read off the extracted [url] field. *)
Definition idFromUrl (fields : Dict.t (option string)) : option string :=
  match Dict.get "url" fields with
  | Some (Some urlVal) =>
      if Str.truthy urlVal then productCode urlVal else None
  | _ => None
  end.

(** The "Resolve ID" block: [id] after it, [None] for [null]. *)
Definition resolveId (opts : ExtractOptions) (el : Element)
           (fields : Dict.t (option string)) : option string :=
  match idAttribute opts with
  | Some a => if Str.truthy a then el_attr el a else idFromUrl fields
  | None => idFromUrl fields
  end.

(** The first occurrence of [pat] in [s]: what precedes and what follows. *)
Fixpoint cut (pat s : string) : option (string * string) :=
  if String.prefix pat s
  then Some (EmptyString, Str.drop (String.length pat) s)
  else match s with
       | EmptyString => None
       | String c s' =>
           match cut pat s' with
           | Some (b, a) => Some (String c b, a)
           | None => None
           end
       end.

(** GetSubstitution for a string pattern (no captures): [$$], [$&],
    [$`] and [$'] are expanded, anything else is literal. *)
Fixpoint substitution (matched before after repl : string) : string :=
  match repl with
  | EmptyString => EmptyString
  | String c r =>
      if Ascii.eqb c "$"%char then
        match r with
        | EmptyString => String c EmptyString
        | String d r' =>
            if Ascii.eqb d "$"%char
            then String "$"%char (substitution matched before after r')
            else if Ascii.eqb d "&"%char
            then (matched ++ substitution matched before after r')%string
            else if Ascii.eqb d "`"%char
            then (before ++ substitution matched before after r')%string
            else if Ascii.eqb d "'"%char
            then (after ++ substitution matched before after r')%string
            else String c (String d (substitution matched before after r'))
        end
      else String c (substitution matched before after r)
  end.

(** [s.replace(pat, repl)] for a string pattern: the first occurrence. *)
Definition replaceFirst (pat repl s : string) : string :=
  match cut pat s with
  | Some (b, a) => (b ++ substitution pat b a repl ++ a)%string
  | None => s
  end.

(** The "Resolve URL" block. *)
Definition resolveUrl (opts : ExtractOptions) (id : option string)
           (fields : Dict.t (option string)) : string :=
  match urlTemplate opts, id with
  | Some template, Some i =>
      if Str.truthy template && Str.truthy i
      then replaceFirst "{id}" i template
      else match Dict.get "url" fields with
           | Some (Some u) => u
           | _ => EmptyString
           end
  | _, _ =>
      match Dict.get "url" fields with
      | Some (Some u) => u
      | _ => EmptyString
      end
  end.

(** [if (id) items.push({ id, url, fields })]: what one element adds. *)
Definition emit (id : option string) (url : string)
           (fields : Dict.t (option string)) : list ScrapedItem :=
  match id with
  | Some i =>
      if Str.truthy i
      then [{| item_id := i; item_url := url; item_fields := fields |}]
      else []
  | None => []
  end.

(** The fields of one element, extracted and transformed, as the rest of
    the program reads them; [None] when a query or a transform throws.
    Every later read is of [url], [title], [price] or [discount], none of
    them an inherited name, so the own entries are all that is read. *)
Definition fieldsOf (rt : Runtime) (opts : ExtractOptions)
           (fieldSelectors : Dict.t string) (el : Element)
  : option (Dict.t (option string)) :=
  match extractLoop rt (baseUrl opts) el fieldSelectors emptyObject with
  | None => None
  | Some extracted =>
      match applyTransforms (fieldTransforms opts) extracted with
      | None => None
      | Some fields => Some (own fields)
      end
  end.

(** The callback of [$(itemSelector).each]: the items one element adds,
    [None] when a query throws. *)
Definition extractElement (rt : Runtime) (opts : ExtractOptions)
           (fieldSelectors : Dict.t string) (el : Element)
  : option (list ScrapedItem) :=
  match fieldsOf rt opts fieldSelectors el with
  | None => None
  | Some fields =>
      let id := resolveId opts el fields in
      let url := resolveUrl opts id fields in
      Some (emit id url fields)
  end.

(** [$(itemSelector).each(...)] with the array [items] passed along. *)
Fixpoint eachElement (rt : Runtime) (opts : ExtractOptions)
         (fieldSelectors : Dict.t string) (els : list Element)
         (items : list ScrapedItem) : option (list ScrapedItem) :=
  match els with
  | [] => Some items
  | el :: rest =>
      match extractElement rt opts fieldSelectors el with
      | None => None
      | Some added => eachElement rt opts fieldSelectors rest (items ++ added)
      end
  end.

(** [extractItemList(html, itemSelector, fieldSelectors, options)] *)
Definition extractItemList (rt : Runtime) (w : World) (html : string)
           (itemSelector : string) (fieldSelectors : Dict.t string)
           (options : ExtractOptions) : Exit (list ScrapedItem) :=
  match cheerio_select w html itemSelector with
  | None => Failure ParseError
  | Some els =>
      match eachElement rt options fieldSelectors els [] with
      | Some items => Success items
      | None => Failure ParseError
      end
  end.

End Scraper.

(* ------------------------------------------------------------------ *)
(** ** Effects of one monitor run *)

(** The state map held by [stateRef] and the texts handed to [sendMessage]
    so far, in order. *)
Record Run : Type := {
  state : Dict.t string;
  outbox : list string
}.

Definition Eff (A : Type) : Type := Run -> Exit A * Run.

Definition ret {A} (a : A) : Eff A := fun r => (Success a, r).

Definition bind {A B} (m : Eff A) (k : A -> Eff B) : Eff B :=
  fun r =>
    match m r with
    | (Success a, r') => k a r'
    | (Failure e, r') => (Failure e, r')
    | (Die, r') => (Die, r')
    end.

Notation "x <- m ;; k" := (bind m (fun x => k))
  (at level 61, m at next level, right associativity).
Notation "m ;;; k" := (bind m (fun _ => k))
  (at level 61, right associativity).

(** An effect that was computed without touching the run. *)
Definition lift {A} (x : Exit A) : Eff A := fun r => (x, r).

(** A throw inside the generator body. *)
Definition die {A} : Eff A := lift Die.

(** [Ref.get(stateRef)] *)
Definition Ref_get : Eff (Dict.t string) := fun r => (Success (state r), r).

(** [Ref.update(stateRef, f)] *)
Definition Ref_update (f : Dict.t string -> Dict.t string) : Eff unit :=
  fun r => (Success tt, {| state := f (state r); outbox := outbox r |}).

(** [sendMessage(text)]: the text is handed over, and the call succeeds
    or the effect fails. *)
Definition sendMessage (w : World) (text : string) : Eff unit :=
  fun r =>
    let r' := {| state := state r; outbox := outbox r ++ [text] |} in
    if telegram_accepts w text then (Success tt, r')
    else (Failure NotifyError, r').

(** [Effect.catchAll(handler)] *)
Definition catchAll {A} (m : Eff A) (handler : Fault -> Eff A) : Eff A :=
  fun r =>
    match m r with
    | (Failure e, r') => handler e r'
    | other => other
    end.

(** [Effect.all(effects)] over effects that do not touch the run: all the
    values in order, or the first failure in list order. *)
Fixpoint all {A} (xs : list (Exit A)) : Exit (list A) :=
  match xs with
  | [] => Success []
  | x :: rest =>
      match x with
      | Success a =>
          match all rest with
          | Success l => Success (a :: l)
          | Failure e => Failure e
          | Die => Die
          end
      | Failure e => Failure e
      | Die => Die
      end
  end.

(** [xs.sort()] on strings: ascending code-unit order. *)
Fixpoint insert_sorted (x : string) (l : list string) : list string :=
  match l with
  | [] => [x]
  | y :: l' => if String.leb x y then x :: l else y :: insert_sorted x l'
  end.

Fixpoint sort (l : list string) : list string :=
  match l with
  | [] => []
  | x :: l' => insert_sorted x (sort l')
  end.

(** [set.has(x)] for the strings held by a [Set]. *)
Definition set_has (x : string) (l : list string) : bool :=
  existsb (String.eqb x) l.

(* ------------------------------------------------------------------ *)
(** ** [src/monitor.ts] *)

Module Monitor.
Import Scraper.

Inductive Status : Type := initialized | new_items | unchanged | error.

Record MonitorResult : Type := {
  res_name : string;
  res_status : Status;
  res_count : option nat;
  res_newItems : option (list ScrapedItem);
  res_error : option Fault
}.

Record FieldsMonitor : Type := {
  fm_name : string;
  fm_url : string;
  fm_selectors : Dict.t string
}.

Definition StateMap : Type := Dict.t string.

(** The text [saveStateFile(state)] writes to the state file. *)
Definition saveStateFile (st : StateMap) : string :=
  (JSON.stringify_pretty st ++ String Str.nl EmptyString)%string.

(** Glyphs of the message templates. *)
Definition bolt : string := "⚡".
Definition eyes : string := "👀".
Definition bullet : string := "•".
Definition dash : string := "—".
Definition newline : string := String Str.nl EmptyString.

(** [esc(str)] *)
Definition esc (str : string) : string :=
  Str.replaceAll ">"%char "&gt;"
    (Str.replaceAll "<"%char "&lt;" (Str.replaceAll "&"%char "&amp;" str)).

(** [item.fields[f]], with [undefined] and [null] both [None]. *)
Definition field (f : string) (item : ScrapedItem) : option string :=
  match Dict.get f (item_fields item) with
  | Some v => v
  | None => None
  end.

(** [item.fields["title"] ?? item.id] *)
Definition titleOf (item : ScrapedItem) : string :=
  match field "title" item with
  | Some t => t
  | None => item_id item
  end.

(** [formatItemLine(item)] *)
Definition formatItemLine (item : ScrapedItem) : string :=
  let title := esc (titleOf item) in
  let link :=
    if Str.truthy (item_url item)
    then ("<a href=" ++ Str.dq ++ item_url item ++ Str.dq ++ ">"
          ++ title ++ "</a>")%string
    else ("<b>" ++ title ++ "</b>")%string in
  let discount :=
    option_map (fun d => Str.trim (Str.collapseSpaces d)) (field "discount" item) in
  let price := option_map Str.trim (field "price" item) in
  let extras :=
    (match discount with
     | Some d => if Str.truthy d then [d] else []
     | None => []
     end)
    ++
    (match price with
     | Some p => if Str.truthy p then [p] else []
     | None => []
     end) in
  (bullet ++ " " ++ link
   ++ match extras with
      | [] => EmptyString
      | _ => "  " ++ dash ++ "  " ++ Str.join "  /  " extras
      end)%string.

(** The loop of [detectSection] over the keywords, [lower] being the
    lower-cased title. *)
Fixpoint firstMatch (lower : string) (sections : list string) : string :=
  match sections with
  | [] => "Others"
  | section :: rest =>
      if Str.includes (Str.toLowerCase section) lower then section
      else firstMatch lower rest
  end.

(** [detectSection(title, sections)] *)
Definition detectSection (title : string) (sections : list string) : string :=
  firstMatch (Str.toLowerCase title) sections.

(** [groups.get(section)!] *)
Definition group (groups : Dict.t (list ScrapedItem)) (section : string)
  : list ScrapedItem :=
  match Dict.get section groups with
  | Some items => items
  | None => []
  end.

(** One round of the grouping loop of [formatNewItems]. *)
Definition addToGroup (sections : list string)
           (groups : Dict.t (list ScrapedItem)) (item : ScrapedItem)
  : Dict.t (list ScrapedItem) :=
  let section := detectSection (titleOf item) sections in
  let groups1 :=
    if Dict.has section groups then groups else Dict.set section [] groups in
  Dict.set section (group groups1 section ++ [item]) groups1.

Definition header (monitorName : string) (count : nat) : string :=
  (bolt ++ " <b>" ++ Str.ofNat count ++ " new item"
   ++ (if Nat.ltb 1 count then "s" else "") ++ "</b> " ++ dash ++ " "
   ++ esc monitorName)%string.

(** [formatNewItems(monitorName, items, sections)] *)
Definition formatNewItems (monitorName : string) (items : list ScrapedItem)
           (sections : option (list string)) : string :=
  let count := List.length items in
  match sections with
  | None | Some [] =>
      Str.join newline
        ([header monitorName count; EmptyString] ++ map formatItemLine items)
  | Some sections =>
      let groups := fold_left (addToGroup sections) items Dict.empty in
      let ordered :=
        filter (fun s => Dict.has s groups) sections
        ++ (if Dict.has "Others" groups then ["Others"] else []) in
      let lines :=
        fold_left
          (fun lines section =>
             (lines ++ [EmptyString; ("<b>" ++ esc section ++ "</b>")%string])
             ++ map formatItemLine (group groups section))
          ordered [header monitorName count] in
      Str.join newline lines
  end.

Section WithRuntime.

Variable rt : Runtime.

Record ListMonitor : Type := {
  lm_name : string;
  lm_urls : list string;
  lm_itemSelector : string;
  lm_fields : Dict.t string;
  lm_maxPrice : option (number rt);
  lm_sections : option (list string);
  lm_baseUrl : option string;
  lm_idAttribute : option string;
  lm_urlTemplate : option string;
  lm_fieldTransforms : option (Dict.t string)
}.

Inductive MonitorConfig : Type :=
| FieldsConfig (m : FieldsMonitor)
| ListConfig (m : ListMonitor).

(** [monitorKey(name)] *)
Definition monitorKey (name : string) : string := sha256_hex rt name.

(** [hashData(data)] for a field snapshot. *)
Definition hashData (data : Dict.t (option string)) : string :=
  sha256_hex rt (JSON.stringify_record data).

Definition isDigitOrComma (c : ascii) : bool :=
  Str.isDigit c || Ascii.eqb c ","%char.

(** A match of [/\$([\d,]+(?:\.\d{2})?)/] starting at the head of [s]:
    its group 1. *)
Definition priceAt (s : string) : option string :=
  match s with
  | String c rest =>
      if Ascii.eqb c "$"%char then
        let (body, tail) := Str.span isDigitOrComma rest in
        if Str.truthy body then
          match tail with
          | String p (String d1 (String d2 _)) =>
              if Ascii.eqb p "."%char && Str.isDigit d1 && Str.isDigit d2
              then Some (body ++ String p (String d1 (String d2 EmptyString)))%string
              else Some body
          | _ => Some body
          end
        else None
      else None
  | EmptyString => None
  end.

(** The leftmost match. *)
Fixpoint priceMatch (s : string) : option string :=
  match priceAt s with
  | Some m => Some m
  | None =>
      match s with
      | EmptyString => None
      | String _ s' => priceMatch s'
      end
  end.

(** [parsePrice(str)] *)
Definition parsePrice (str : option string) : option (number rt) :=
  match str with
  | Some s =>
      if Str.truthy s then
        match priceMatch s with
        | Some m => Some (parseFloat rt (Str.replaceAll ","%char EmptyString m))
        | None => None
        end
      else None
  | None => None
  end.

(** The predicate of the price filter. *)
Definition withinBudget (maxPrice : option (number rt)) (item : ScrapedItem)
  : bool :=
  match maxPrice with
  | None => true
  | Some limit =>
      match parsePrice (field "price" item) with
      | Some price => number_leb rt price limit
      | None => false
      end
  end.

(** [new Map(items.map((item) => [item.id, item]))] *)
Definition byId (items : list ScrapedItem) : Dict.t ScrapedItem :=
  Dict.of_entries (map (fun item => (item_id item, item)) items).

(** [itemById]: all pages merged, a later item replacing an earlier one
    with the same id. *)
Definition itemById (perPage : list (list ScrapedItem)) : Dict.t ScrapedItem :=
  byId (List.concat perPage).

Definition candidates (maxPrice : option (number rt))
           (perPage : list (list ScrapedItem)) : list ScrapedItem :=
  filter (withinBudget maxPrice) (Dict.values (itemById perPage)).

Definition allIds (perPage : list (list ScrapedItem)) : list string :=
  sort (Dict.keys (itemById perPage)).

Definition candidateById (maxPrice : option (number rt))
           (perPage : list (list ScrapedItem)) : Dict.t ScrapedItem :=
  byId (candidates maxPrice perPage).

Definition candidateIds (maxPrice : option (number rt))
           (perPage : list (list ScrapedItem)) : list string :=
  sort (Dict.keys (candidateById maxPrice perPage)).

(** [ids.map((id) => d.get(id)!)]; every id it is applied to is a key
    of [d] (lemma [lookupAll_keys]). *)
Definition lookupAll (d : Dict.t ScrapedItem) (ids : list string)
  : list ScrapedItem :=
  flat_map (fun id => match Dict.get id d with
                      | Some item => [item]
                      | None => []
                      end) ids.

Definition newItems (maxPrice : option (number rt))
           (perPage : list (list ScrapedItem)) (prevSet : list string)
  : list ScrapedItem :=
  lookupAll (candidateById maxPrice perPage)
    (filter (fun id => negb (set_has id prevSet))
            (candidateIds maxPrice perPage)).

Definition extractOpts (monitor : ListMonitor) : ExtractOptions :=
  {| baseUrl := lm_baseUrl monitor;
     idAttribute := lm_idAttribute monitor;
     urlTemplate := lm_urlTemplate monitor;
     fieldTransforms := lm_fieldTransforms monitor |}.

(** The "Now monitoring" message of a list monitor. *)
Definition nowMonitoringList (monitor : ListMonitor) (total : nat) : string :=
  (eyes ++ " <b>Now monitoring:</b> " ++ esc (lm_name monitor) ++ newline
   ++ "Tracking <b>" ++ Str.ofNat total ++ "</b> items across "
   ++ Str.ofNat (List.length (lm_urls monitor)) ++ " page(s)"
   ++ match lm_maxPrice monitor with
      | Some limit => " (price filter: under $" ++ number_show rt limit ++ ")"
      | None => EmptyString
      end
   ++ ".")%string.

Definition result (name : string) (status : Status) : MonitorResult :=
  {| res_name := name; res_status := status; res_count := None;
     res_newItems := None; res_error := None |}.

Definition failure (name : string) (e : Fault) : MonitorResult :=
  {| res_name := name; res_status := error; res_count := None;
     res_newItems := None; res_error := Some e |}.

(** The handler given to [Effect.catchAll]. *)
Definition failed (name : string) (e : Fault) : Eff MonitorResult :=
  ret (failure name e).

(** The body of [checkListMonitor] from the merge of the extracted pages
    on. *)
Definition diffList (w : World) (monitor : ListMonitor)
           (perPage : list (list ScrapedItem)) : Eff MonitorResult :=
  let name := lm_name monitor in
  let maxPrice := lm_maxPrice monitor in
  if Nat.eqb (Dict.size (itemById perPage)) 0
  then ret (result name unchanged)
  else
    let key := monitorKey name in
    st <- Ref_get ;;
    match Dict.get key st with
    | None =>
        Ref_update (Dict.set key (JSON.stringify_ids (allIds perPage))) ;;;
        sendMessage w
          (nowMonitoringList monitor (List.length (allIds perPage))) ;;;
        ret {| res_name := name; res_status := initialized;
               res_count := Some (List.length (allIds perPage));
               res_newItems := None; res_error := None |}
    | Some prevRaw =>
        match JSON_parse_ids rt prevRaw with
        | None => die
        | Some prevSet =>
            let new := newItems maxPrice perPage prevSet in
            Ref_update
              (Dict.set key (JSON.stringify_ids (allIds perPage))) ;;;
            match new with
            | [] => ret (result name unchanged)
            | _ =>
                sendMessage w
                  (formatNewItems name new (lm_sections monitor)) ;;;
                ret {| res_name := name; res_status := new_items;
                       res_count := None; res_newItems := Some new;
                       res_error := None |}
            end
        end
    end.

(** [checkListMonitor(monitor, stateRef)] *)
Definition checkListMonitor (w : World) (monitor : ListMonitor)
  : Eff MonitorResult :=
  catchAll
    (pages <- lift (all (map (fetchPage w) (lm_urls monitor))) ;;
     perPage <- lift (all (map (fun html =>
                                  extractItemList rt w html
                                    (lm_itemSelector monitor)
                                    (lm_fields monitor)
                                    (extractOpts monitor)) pages)) ;;
     diffList w monitor perPage)
    (failed (lm_name monitor)).

(** [Object.entries(current).map(...).join("\n")] *)
Definition fieldLines (current : Dict.t (option string)) : string :=
  Str.join newline
    (map (fun e =>
            ("  " ++ bullet ++ " " ++ esc (fst e) ++ ": "
             ++ esc (match snd e with
                     | Some v => v
                     | None => "(not found)"
                     end))%string) current).

Definition viewPage (url : string) : string :=
  ("<a href=" ++ Str.dq ++ url ++ Str.dq ++ ">View page</a>")%string.

Definition nowMonitoringFields (monitor : FieldsMonitor)
           (current : Dict.t (option string)) : string :=
  (eyes ++ " <b>Now monitoring:</b> " ++ esc (fm_name monitor) ++ newline
   ++ fieldLines current ++ newline ++ newline
   ++ viewPage (fm_url monitor))%string.

Definition changeDetected (monitor : FieldsMonitor)
           (current : Dict.t (option string)) : string :=
  (bolt ++ " <b>Change detected:</b> " ++ esc (fm_name monitor) ++ newline
   ++ fieldLines current ++ newline ++ newline
   ++ viewPage (fm_url monitor))%string.

(** The body of [checkFieldsMonitor] from the hash of the snapshot on. *)
Definition diffFields (w : World) (monitor : FieldsMonitor)
           (current : Dict.t (option string)) : Eff MonitorResult :=
  let name := fm_name monitor in
  let currentHash := hashData current in
  let key := monitorKey name in
  st <- Ref_get ;;
  match Dict.get key st with
  | None =>
      Ref_update (Dict.set key currentHash) ;;;
      sendMessage w (nowMonitoringFields monitor current) ;;;
      ret (result name initialized)
  | Some prevHash =>
      if negb (String.eqb prevHash currentHash)
      then
        Ref_update (Dict.set key currentHash) ;;;
        sendMessage w (changeDetected monitor current) ;;;
        ret (result name new_items)
      else ret (result name unchanged)
  end.

(** [checkFieldsMonitor(monitor, stateRef)] *)
Definition checkFieldsMonitor (w : World) (monitor : FieldsMonitor)
  : Eff MonitorResult :=
  catchAll
    (html <- lift (fetchPage w (fm_url monitor)) ;;
     current <- lift (extractFields w html (fm_selectors monitor)) ;;
     diffFields w monitor current)
    (failed (fm_name monitor)).

(** [checkMonitor(monitor, stateRef)] *)
Definition checkMonitor (w : World) (monitor : MonitorConfig)
  : Eff MonitorResult :=
  match monitor with
  | ListConfig m => checkListMonitor w m
  | FieldsConfig m => checkFieldsMonitor w m
  end.

(** What the two [Effect.all] of [checkListMonitor] yield: the items of
    every page, or the first failure. *)
Definition scrapeList (w : World) (monitor : ListMonitor)
  : Exit (list (list ScrapedItem)) :=
  match all (map (fetchPage w) (lm_urls monitor)) with
  | Success pages =>
      all (map (fun html =>
                  extractItemList rt w html (lm_itemSelector monitor)
                    (lm_fields monitor) (extractOpts monitor)) pages)
  | Failure e => Failure e
  | Die => Die
  end.

(** What the fetch and the extraction of [checkFieldsMonitor] yield. *)
Definition scrapeFields (w : World) (monitor : FieldsMonitor)
  : Exit (Dict.t (option string)) :=
  match fetchPage w (fm_url monitor) with
  | Success html => extractFields w html (fm_selectors monitor)
  | Failure e => Failure e
  | Die => Die
  end.

(** The same monitor with another price limit. *)
Definition setMaxPrice (maxPrice : option (number rt)) (monitor : ListMonitor)
  : ListMonitor :=
  {| lm_name := lm_name monitor;
     lm_urls := lm_urls monitor;
     lm_itemSelector := lm_itemSelector monitor;
     lm_fields := lm_fields monitor;
     lm_maxPrice := maxPrice;
     lm_sections := lm_sections monitor;
     lm_baseUrl := lm_baseUrl monitor;
     lm_idAttribute := lm_idAttribute monitor;
     lm_urlTemplate := lm_urlTemplate monitor;
     lm_fieldTransforms := lm_fieldTransforms monitor |}.

End WithRuntime.

End Monitor.

(* ------------------------------------------------------------------ *)
(** ** A runtime to compute with

    The statements below hold for every [Runtime]; this one serves to run
    the model on examples. Prices are counted in hundredths ([None] is
    NaN), its [JSON.parse] reads arrays of strings, which is what the
    program writes, and the digest is a stand-in ([hexOfString]), any
    function being as good as another for the statements. *)

Module Node.

Inductive Mode : Type :=
| Begin | Opened | InStr (acc : string) | AfterStr | AfterComma | Closed.

Definition isJsonSpace (c : ascii) : bool :=
  let n := N_of_ascii c in
  N.eqb n 32 || N.eqb n 9 || N.eqb n 10 || N.eqb n 13.

Definition hexVal (c : ascii) : option N :=
  let n := N_of_ascii c in
  if N.leb 48 n && N.leb n 57 then Some (n - 48)%N
  else if N.leb 97 n && N.leb n 102 then Some (n - 87)%N
  else if N.leb 65 n && N.leb n 70 then Some (n - 55)%N
  else None.

Definition hex4 (a b c d : ascii) : option N :=
  match hexVal a, hexVal b, hexVal c, hexVal d with
  | Some x, Some y, Some z, Some t => Some (((x * 16 + y) * 16 + z) * 16 + t)%N
  | _, _, _, _ => None
  end.

(** The character a one-letter escape stands for. *)
Definition unescape (e : ascii) : option ascii :=
  let n := N_of_ascii e in
  if N.eqb n 34 || N.eqb n 92 || N.eqb n 47 then Some e
  else if N.eqb n 98 then Some "008"%char
  else if N.eqb n 102 then Some "012"%char
  else if N.eqb n 110 then Some "010"%char
  else if N.eqb n 114 then Some "013"%char
  else if N.eqb n 116 then Some "009"%char
  else None.

Definition snoc (acc : string) (c : ascii) : string :=
  (acc ++ String c EmptyString)%string.

(** A one-pass reader of a JSON array of strings. *)
Fixpoint read (m : Mode) (done : list string) (s : string) {struct s}
  : option (list string) :=
  match s with
  | EmptyString => match m with Closed => Some done | _ => None end
  | String c s' =>
      match m with
      | Begin =>
          if isJsonSpace c then read Begin done s'
          else if Ascii.eqb c "["%char then read Opened done s'
          else None
      | Opened =>
          if isJsonSpace c then read Opened done s'
          else if Ascii.eqb c "]"%char then read Closed done s'
          else if Ascii.eqb c "034"%char then read (InStr EmptyString) done s'
          else None
      | AfterComma =>
          if isJsonSpace c then read AfterComma done s'
          else if Ascii.eqb c "034"%char then read (InStr EmptyString) done s'
          else None
      | InStr acc =>
          if Ascii.eqb c "034"%char then read AfterStr (done ++ [acc]) s'
          else if Ascii.eqb c "\"%char then
            match s' with
            | EmptyString => None
            | String e s'' =>
                if Ascii.eqb e "u"%char then
                  match s'' with
                  | String h1 (String h2 (String h3 (String h4 s3))) =>
                      match hex4 h1 h2 h3 h4 with
                      | Some n =>
                          if N.ltb n 256
                          then read (InStr (snoc acc (ascii_of_N n))) done s3
                          else None
                      | None => None
                      end
                  | _ => None
                  end
                else
                  match unescape e with
                  | Some ch => read (InStr (snoc acc ch)) done s''
                  | None => None
                  end
            end
          else if N.ltb (N_of_ascii c) 32 then None
          else read (InStr (snoc acc c)) done s'
      | AfterStr =>
          if isJsonSpace c then read AfterStr done s'
          else if Ascii.eqb c ","%char then read AfterComma done s'
          else if Ascii.eqb c "]"%char then read Closed done s'
          else None
      | Closed => if isJsonSpace c then read Closed done s' else None
      end
  end.

Definition parse_ids (raw : string) : option (list string) :=
  read Begin [] raw.

(** Decimal digits to a natural number. *)
Fixpoint digitsValue (acc : N) (s : string) : N :=
  match s with
  | EmptyString => acc
  | String c s' => digitsValue (acc * 10 + (N_of_ascii c - 48))%N s'
  end.

(** [parseFloat] on the strings [parsePrice] passes: digits, then maybe a
    point and two digits; in hundredths. *)
Definition parseCents (s : string) : option N :=
  let (whole, rest) := Str.span Str.isDigit s in
  match rest with
  | String p (String d1 (String d2 _)) =>
      if Ascii.eqb p "."%char && Str.isDigit d1 && Str.isDigit d2
      then Some (digitsValue 0 whole * 100
                 + digitsValue 0 (String d1 (String d2 EmptyString)))%N
      else if Str.truthy whole then Some (digitsValue 0 whole * 100)%N
      else None
  | _ => if Str.truthy whole then Some (digitsValue 0 whole * 100)%N else None
  end.

Definition leCents (a b : option N) : bool :=
  match a, b with
  | Some x, Some y => N.leb x y
  | _, _ => false
  end.

Definition showCents (a : option N) : string :=
  match a with
  | None => "NaN"
  | Some x =>
      let units := N.to_nat (x / 100) in
      let frac := N.to_nat (x mod 100) in
      if Nat.eqb frac 0 then Str.ofNat units
      else if Nat.eqb (frac mod 10) 0
      then (Str.ofNat units ++ "." ++ Str.ofNat (frac / 10))%string
      else (Str.ofNat units ++ "." ++ Str.ofNat (frac / 10)
            ++ Str.ofNat (frac mod 10))%string
  end.

Fixpoint hexOfString (s : string) : string :=
  match s with
  | EmptyString => EmptyString
  | String c s' =>
      let n := N_of_ascii c in
      String (JSON.hexDigit (n / 16)) (String (JSON.hexDigit (n mod 16))
                                              (hexOfString s'))
  end.

Definition resolve (raw base : string) : option string :=
  if Str.includes "://" raw then Some raw else Some (base ++ raw)%string.

Definition runtime : Runtime :=
  {| number := option N;
     parseFloat := parseCents;
     number_leb := leCents;
     number_show := showCents;
     sha256_hex := hexOfString;
     JSON_parse_ids := parse_ids;
     URL_resolve := resolve |}.

End Node.

(* ------------------------------------------------------------------ *)
(** ** [src/telegram.ts]: delivering the parts *)

Module Delivery.

(** An answer of the Telegram API to one POST, as [sendMessage] reads it:
    the HTTP status, [parameters.retry_after] of the body (a number of
    seconds, taken as a natural number) and whether [r.json()] succeeds. *)
Record Response : Type := {
  status : nat;
  retry_after : option nat;
  json_body : bool
}.

(** [r.ok] *)
Definition ok (r : Response) : bool :=
  Nat.leb 200 (status r) && Nat.leb (status r) 299.

(** The network during one call: the answer to the n-th POST of the call,
    [None] when [fetch] rejects. *)
Definition Network : Type := nat -> option Response.

(** What one call did: the bodies posted and the waits made (in
    milliseconds), in order. *)
Record Wire : Type := {
  posted : list string;
  waited : list nat
}.

Definition idle : Wire := {| posted := []; waited := [] |}.

(** The [body] of the POST for one part. *)
Definition requestBody (chatId part : string) : string :=
  ("{" ++ JSON.quote "chat_id" ++ ":" ++ JSON.quote chatId
   ++ "," ++ JSON.quote "text" ++ ":" ++ JSON.quote part
   ++ "," ++ JSON.quote "parse_mode" ++ ":" ++ JSON.quote "HTML"
   ++ "," ++ JSON.quote "disable_web_page_preview" ++ ":false}")%string.

(** [await fetch(url, opts)]: the body goes out and the network answers. *)
Definition post (net : Network) (body : string) (wire : Wire)
  : option Response * Wire :=
  (net (List.length (posted wire)),
   {| posted := posted wire ++ [body]; waited := waited wire |}).

(** [(json.parameters?.retry_after ?? 1) * 1000 + 200] *)
Definition backoff (r : Response) : nat :=
  match retry_after r with
  | Some seconds => seconds * 1000 + 200
  | None => 1 * 1000 + 200
  end.

(** The end of the loop body: [if (!r.ok) throw ...; await r.json()];
    [true] when neither throws. *)
Definition settle (r : Response) : bool := ok r && json_body r.

(** The body of [for (const part of parts)]: [true] when it does not
    throw. *)
Definition sendPart (net : Network) (body : string) (wire : Wire)
  : bool * Wire :=
  match post net body wire with
  | (None, wire1) => (false, wire1)
  | (Some r, wire1) =>
      if Nat.eqb (status r) 429 then
        if json_body r then
          let wire2 := {| posted := posted wire1;
                          waited := waited wire1 ++ [backoff r] |} in
          match post net body wire2 with
          | (None, wire3) => (false, wire3)
          | (Some r2, wire3) => (settle r2, wire3)
          end
        else (false, wire1)
      else (settle r, wire1)
  end.

(** The loop over the parts: it stops at the first part that throws. *)
Fixpoint sendParts (net : Network) (bodies : list string) (wire : Wire)
  : bool * Wire :=
  match bodies with
  | [] => (true, wire)
  | body :: rest =>
      match sendPart net body wire with
      | (true, wire1) => sendParts net rest wire1
      | (false, wire1) => (false, wire1)
      end
  end.

(** [parts.flatMap(f)] for an [f] that may not return. *)
Fixpoint flatMapParts (f : string -> option (list string))
         (parts : list string) : option (list string) :=
  match parts with
  | [] => Some []
  | part :: rest =>
      match f part, flatMapParts f rest with
      | Some l, Some ls => Some (l ++ ls)
      | _, _ => None
      end
  end.

(** The [parts] of [sendMessage]; [None] when a chunker call does not
    return. *)
Definition messageParts (text : string) : option (list string) :=
  match Telegram.chunkTelegramMessage text Telegram.TELEGRAM_SAFE_CHUNK_LEN with
  | None => None
  | Some parts =>
      flatMapParts
        (fun part =>
           if Nat.leb (String.length part) Telegram.TELEGRAM_MAX_MESSAGE_LEN
           then Some [part]
           else Telegram.chunkTelegramMessage part
                  Telegram.TELEGRAM_MAX_MESSAGE_LEN)
        parts
  end.

(** [sendMessage(text)] with the configured [token] and [chatId] (empty
    when unset): how the effect ends and what went over the wire; [None]
    when the call does not return. *)
Definition sendMessage (token chatId : string) (net : Network) (text : string)
  : option (Exit unit * Wire) :=
  if negb (Str.truthy token) || negb (Str.truthy chatId)
  then Some (Success tt, idle)
  else
    match messageParts text with
    | None => None
    | Some parts =>
        match sendParts net (map (requestBody chatId) parts) idle with
        | (true, wire) => Some (Success tt, wire)
        | (false, wire) => Some (Failure NotifyError, wire)
        end
    end.

End Delivery.

(* ------------------------------------------------------------------ *)
(** ** [src/bot.ts]: the command bot *)

Module Bot.

Definition BOT_UPDATE_KEY : string := "__bot_last_update_id__".

Record Workflow : Type := {
  file : string;
  label : string
}.

Definition MONITOR_WORKFLOWS : list Workflow :=
  [ {| file := "monitor-instocktrades.yml"; label := "InStockTrades" |};
    {| file := "monitor-ebay.yml"; label := "eBay" |} ].

(** A message as the loop reads it: [String(msg.chat.id)] and [msg.text]. *)
Record Message : Type := {
  chat : string;
  text : option string
}.

(** An update; its id is taken as a natural number. *)
Record TelegramUpdate : Type := {
  update_id : nat;
  message : option Message
}.

Record WorkflowRun : Type := {
  html_url : string;
  event : string;
  status : string;
  conclusion : option string;
  created_at : string
}.

(** What the bot did so far: the texts posted to Telegram and the workflow
    files posted to GitHub for dispatch, in order. *)
Record Log : Type := {
  posted : list string;
  dispatched : list string
}.

(** The services the bot talks to; an answer may depend on all that was
    done before.
    - [delivers log text]: the [fetch] of [sendMessage] resolves.
    - [github]: [GITHUB_TOKEN] and [GITHUB_REPOSITORY] are both set.
    - [dispatches log file]: the dispatch POST resolves with [res.ok].
    - [latestRun log file]: [data.workflow_runs?.[0] ?? null] of the status
      lookup, [None] when the lookup throws.
    - [toUTCString s] is [new Date(s).toUTCString()]. *)
Record Services : Type := {
  delivers : Log -> string -> bool;
  github : bool;
  dispatches : Log -> string -> bool;
  latestRun : Log -> string -> option (option WorkflowRun);
  toUTCString : string -> string
}.

(** An asynchronous step: [None] when it throws. *)
Definition Step (A : Type) : Type := Log -> option A * Log.

Definition skip : Step unit := fun log => (Some tt, log).

(** [sendMessage(token, chatId, text)] *)
Definition sendMessage (sv : Services) (text : string) : Step unit :=
  fun log =>
    (if delivers sv log text then Some tt else None,
     {| posted := posted log ++ [text]; dispatched := dispatched log |}).

(** [dispatchWorkflow(workflowFile)]: [githubContext()] throws before any
    request when the credentials are missing. *)
Definition dispatchWorkflow (sv : Services) (workflowFile : string)
  : Step unit :=
  fun log =>
    if github sv
    then (if dispatches sv log workflowFile then Some tt else None,
          {| posted := posted log;
             dispatched := dispatched log ++ [workflowFile] |})
    else (None, log).

(** [for (const workflow of MONITOR_WORKFLOWS) await dispatchWorkflow(...)] *)
Fixpoint dispatchAll (sv : Services) (files : list string) : Step unit :=
  fun log =>
    match files with
    | [] => (Some tt, log)
    | f :: rest =>
        match dispatchWorkflow sv f log with
        | (Some _, log1) => dispatchAll sv rest log1
        | (None, log1) => (None, log1)
        end
    end.

(** [getLatestWorkflowRun(workflowFile)] *)
Definition getLatestWorkflowRun (sv : Services) (workflowFile : string)
           (log : Log) : option (option WorkflowRun) :=
  if github sv then latestRun sv log workflowFile else None.

(** [formatRunStatus(run)] *)
Definition formatRunStatus (sv : Services) (run : option WorkflowRun)
  : string :=
  match run with
  | None => "no runs yet"
  | Some r =>
      ((match conclusion r with Some c => c | None => status r end)
       ++ " (" ++ event r ++ ", " ++ toUTCString sv (created_at r) ++ ")")%string
  end.

(** [Promise.all(MONITOR_WORKFLOWS.map(...))]: every lookup is started;
    [None] when one of them throws. *)
Fixpoint lookupRuns (sv : Services) (workflows : list Workflow) (log : Log)
  : option (list (string * option WorkflowRun)) :=
  match workflows with
  | [] => Some []
  | wf :: rest =>
      match getLatestWorkflowRun sv (file wf) log, lookupRuns sv rest log with
      | Some run, Some runs => Some ((label wf, run) :: runs)
      | _, _ => None
      end
  end.

Definition alive : string := "✅ Bot is alive and running.".
Definition triggering : string := "⚡ Triggering monitor workflows...".
Definition dispatchedAll : string := "✅ Monitor workflows dispatched.".
Definition triggerFailed : string := "❌ Failed to trigger monitor workflows.".
Definition statusFailed : string := "❌ Failed to fetch workflow status.".

Definition statusReport (sv : Services)
           (runs : list (string * option WorkflowRun)) : string :=
  Str.join (String Str.nl EmptyString)
    ("📊 Monitor status"
     :: map (fun lr => ("• <b>" ++ fst lr ++ "</b>: "
                        ++ formatRunStatus sv (snd lr))%string) runs).

(** The [/trigger] branch, with its [try] and [catch]. *)
Definition onTrigger (sv : Services) : Step unit :=
  fun log =>
    match sendMessage sv triggering log with
    | (None, log1) => (None, log1)
    | (Some _, log1) =>
        match dispatchAll sv (map file MONITOR_WORKFLOWS) log1 with
        | (Some _, log2) =>
            match sendMessage sv dispatchedAll log2 with
            | (Some _, log3) => (Some tt, log3)
            | (None, log3) => sendMessage sv triggerFailed log3
            end
        | (None, log2) => sendMessage sv triggerFailed log2
        end
    end.

(** The [/status] branch, with its [try] and [catch]. *)
Definition onStatus (sv : Services) : Step unit :=
  fun log =>
    match lookupRuns sv MONITOR_WORKFLOWS log with
    | Some runs =>
        match sendMessage sv (statusReport sv runs) log with
        | (Some _, log1) => (Some tt, log1)
        | (None, log1) => sendMessage sv statusFailed log1
        end
    | None => sendMessage sv statusFailed log
    end.

(** [msg.text?.trim() ?? ""] *)
Definition command (msg : Message) : string :=
  match text msg with
  | Some t => Str.trim t
  | None => EmptyString
  end.

(** The body of the loop over the updates, after [newLastId] is raised. *)
Definition handleUpdate (chatId : string) (sv : Services)
           (update : TelegramUpdate) : Step unit :=
  match message update with
  | None => skip
  | Some msg =>
      if negb (String.eqb (chat msg) chatId) then skip
      else if String.eqb (command msg) "/test" then sendMessage sv alive
      else if String.eqb (command msg) "/trigger" then onTrigger sv
      else if String.eqb (command msg) "/status" then onStatus sv
      else skip
  end.

(** [for (const update of data.result)], [newLastId] passed along. *)
Fixpoint processUpdates (chatId : string) (sv : Services)
         (updates : list TelegramUpdate) (newLastId : nat) : Step nat :=
  fun log =>
    match updates with
    | [] => (Some newLastId, log)
    | update :: rest =>
        let newLastId := Nat.max newLastId (update_id update) in
        match handleUpdate chatId sv update log with
        | (Some _, log1) => processUpdates chatId sv rest newLastId log1
        | (None, log1) => (None, log1)
        end
    end.

(** [main()]. [lastId] is [Number(state[BOT_UPDATE_KEY] ?? "0")], taken as
    a natural number. [poll] is the answer to [getUpdates]: [None] when
    the request or its body throws, [Some None] when [res.ok] or [data.ok]
    is false, else [data.result]. [freshState] is the state file as read
    after the loop. The result is the state map written, [Some None] when
    [main] returns without writing, [None] when it throws. *)
Definition main (token chatId : string) (lastId : nat)
           (poll : option (option (list TelegramUpdate)))
           (sv : Services) (freshState : Dict.t string)
  : Step (option (Dict.t string)) :=
  fun log =>
    if negb (Str.truthy token) || negb (Str.truthy chatId)
    then (Some None, log)
    else
      match poll with
      | None => (None, log)
      | Some None => (Some None, log)
      | Some (Some []) => (Some None, log)
      | Some (Some updates) =>
          match processUpdates chatId sv updates lastId log with
          | (Some newLastId, log1) =>
              (Some (Some (Dict.set BOT_UPDATE_KEY (Str.ofNat newLastId)
                             freshState)), log1)
          | (None, log1) => (None, log1)
          end
      end.

End Bot.

(* ------------------------------------------------------------------ *)
(** ** Vocabulary of the statements *)

Definition nlString : string := String Str.nl EmptyString.

(** No newline occurs in [s]. *)
Definition oneLine (s : string) : bool :=
  Str.forallb (fun c => negb (Ascii.eqb c Str.nl)) s.

(** The lines of all the parts, in order. *)
Definition linesOf (parts : list string) : list string :=
  flat_map Str.split_lines parts.

(** Dropping the empty lines. *)
Definition nonBlank (ls : list string) : list string :=
  filter Str.truthy ls.

(** Ascending without repetition. *)
Definition ascending (l : list string) : Prop :=
  StronglySorted (fun a b => String.ltb a b = true) l.

(** What [JSON.stringify] writes after the first element of an array. *)
Definition afterElement (ids : list string) : string :=
  match ids with
  | [] => "]"
  | _ => ("," ++ Str.join "," (map JSON.quote ids) ++ "]")%string
  end.

(** [item] is what the scraper emits for the element [el]: the fields
    were extracted, an id was resolved from them and is not empty, and the
    item carries that id, the URL resolved with it and those fields. *)
Definition emittedBy (rt : Runtime) (opts : Scraper.ExtractOptions)
           (fieldSelectors : Dict.t string) (el : Element)
           (item : Scraper.ScrapedItem) : Prop :=
  exists fields,
    Scraper.fieldsOf rt opts fieldSelectors el = Some fields
    /\ Scraper.resolveId opts el fields = Some (Scraper.item_id item)
    /\ Scraper.item_id item <> EmptyString
    /\ Scraper.item_url item
       = Scraper.resolveUrl opts (Some (Scraper.item_id item)) fields
    /\ Scraper.item_fields item = fields.

(** [id] is the code of a [/products/<code>] segment of [url]: it is not
    empty, holds no [/] and no [?], and follows [/products/]. *)
Definition productSegment (url id : string) : Prop :=
  exists pre post,
    url = (pre ++ "/products/" ++ id ++ post)%string
    /\ id <> EmptyString
    /\ Str.forallb Scraper.notSlashOrQuery id = true.

(** [item] was emitted by the scraper for an element of a page of the
    monitor. *)
Definition fromPage (rt : Runtime) (w : World)
           (monitor : Monitor.ListMonitor rt) (item : Scraper.ScrapedItem)
  : Prop :=
  exists html els el,
    cheerio_select w html (Monitor.lm_itemSelector monitor) = Some els
    /\ In el els
    /\ emittedBy rt (Monitor.extractOpts monitor) (Monitor.lm_fields monitor)
         el item.

(** *** Grouping by section, in the words of the specification

    Items are grouped by the first keyword found in the title (a
    case-insensitive substring match), the groups come in the keywords'
    configured order, the unmatched items form a trailing "Others" group,
    and groups with no items are omitted. *)

Definition matchesKeyword (title keyword : string) : bool :=
  Str.includes (Str.toLowerCase keyword) (Str.toLowerCase title).

(** The first configured keyword found in the item's title, if any. *)
Definition keywordOf (sections : list string) (item : Scraper.ScrapedItem)
  : option string :=
  List.find (matchesKeyword (Monitor.titleOf item)) sections.

Definition sameKeyword (a b : option string) : bool :=
  match a, b with
  | Some x, Some y => String.eqb x y
  | None, None => true
  | _, _ => false
  end.

(** The items grouped under a keyword ([Some k]) or under none ([None]),
    in their order. *)
Definition itemsUnder (sections : list string) (k : option string)
           (items : list Scraper.ScrapedItem) : list Scraper.ScrapedItem :=
  filter (fun item => sameKeyword (keywordOf sections item) k) items.

(** A group's lines: nothing for an empty group, else a blank line, the
    heading in bold and one line per item. *)
Definition renderGroup (heading : string) (g : list Scraper.ScrapedItem)
  : list string :=
  match g with
  | [] => []
  | _ => EmptyString
         :: ("<b>" ++ Monitor.esc heading ++ "</b>")%string
         :: map Monitor.formatItemLine g
  end.

Definition formatGrouped (monitorName : string)
           (items : list Scraper.ScrapedItem) (sections : list string)
  : string :=
  Str.join Monitor.newline
    (Monitor.header monitorName (List.length items)
     :: flat_map (fun k => renderGroup k (itemsUnder sections (Some k) items))
                 sections
     ++ renderGroup "Others" (itemsUnder sections None items)).

(** The source detects the section [s] for [item]. *)
Definition detectedAs (sections : list string) (s : string)
           (item : Scraper.ScrapedItem) : bool :=
  String.eqb (Monitor.detectSection (Monitor.titleOf item) sections) s.

(** Removing the newlines of a text. *)
Definition stripNewlines (s : string) : string :=
  Str.replaceAll Str.nl EmptyString s.

(** The parts laid end to end. *)
Definition glue (parts : list string) : string :=
  String.concat EmptyString parts.

(** The name a monitor is configured under. *)
Definition configName (rt : Runtime) (m : Monitor.MonitorConfig rt) : string :=
  match m with
  | Monitor.FieldsConfig _ m => Monitor.fm_name m
  | Monitor.ListConfig m => Monitor.lm_name m
  end.

(** One character of a text as HTML: the three special characters become
    entities. *)
Definition escapeChar (c : ascii) : string :=
  if Ascii.eqb c "&"%char then "&amp;"
  else if Ascii.eqb c "<"%char then "&lt;"
  else if Ascii.eqb c ">"%char then "&gt;"
  else String c EmptyString.

(** A text escaped character by character, in one pass. *)
Fixpoint escapeEach (s : string) : string :=
  match s with
  | EmptyString => EmptyString
  | String c s' => (escapeChar c ++ escapeEach s')%string
  end.

(** Neither [<] nor [>]. *)
Definition notAngle (c : ascii) : bool :=
  negb (Ascii.eqb c "<"%char || Ascii.eqb c ">"%char).

(** How the chunker lays out, in parts of at most [maxLen] characters, the
    lines of a text that does not fit in one part, and how many lines it
    leaves out.
    - An empty line met where a part would begin is left out.
    - A part begins at a non-empty line and goes on, line after line,
      empty or not, for as long as the next line still fits; it is the
      lines it took, joined by newlines. *)
Inductive laidOut (maxLen : nat)
  : list string -> list string -> nat -> Prop :=
| laidOut_end : laidOut maxLen [] [] 0
| laidOut_skip (rest parts : list string) (dropped : nat) :
    laidOut maxLen rest parts dropped ->
    laidOut maxLen (EmptyString :: rest) parts (S dropped)
| laidOut_part (first : string) (more rest parts : list string)
               (dropped : nat) :
    first <> EmptyString ->
    String.length (Str.join nlString (first :: more)) <= maxLen ->
    (forall next tail,
        rest = next :: tail ->
        maxLen < String.length (Str.join nlString (first :: more ++ [next]))) ->
    laidOut maxLen rest parts dropped ->
    laidOut maxLen (first :: more ++ rest)
            (Str.join nlString (first :: more) :: parts) dropped.

(** *** The delivery of the parts, seen from the network

    The answers of the network are numbered by the POSTs of one call,
    from 0. *)

(** The [i]-th POST is answered by a 429 whose body can be read: the
    sender is told to come back, after so many milliseconds (the seconds
    asked for, one when none is given, and a margin of 200 ms). *)
Definition toldToWait (net : Delivery.Network) (i : nat) : option nat :=
  match net i with
  | Some r =>
      if Nat.eqb (Delivery.status r) 429 && Delivery.json_body r
      then Some (match Delivery.retry_after r with
                 | Some seconds => seconds * 1000 + 200
                 | None => 1200
                 end)
      else None
  | None => None
  end.

(** The [i]-th POST is answered by a 2xx with a JSON body. *)
Definition accepted (net : Delivery.Network) (i : nat) : bool :=
  match net i with
  | Some r =>
      Nat.leb 200 (Delivery.status r) && Nat.leb (Delivery.status r) 299
      && Delivery.json_body r
  | None => false
  end.

(** The POSTs and the waits of a part whose first POST is the [i]-th: a
    second POST, after a wait, when the first is told to wait. *)
Definition postsFrom (net : Delivery.Network) (i : nat) : nat :=
  match toldToWait net i with Some _ => 2 | None => 1 end.

Definition waitsFrom (net : Delivery.Network) (i : nat) : list nat :=
  match toldToWait net i with Some ms => [ms] | None => [] end.

(** [delivered net i parts counts waits ok]: the parts go out one after
    the other, the first POST being the [i]-th; a part is done when its
    last POST is accepted, and the first part whose last POST is not
    accepted is the last one posted. [counts] are the POSTs of the parts
    reached, [waits] the waits made, [ok] tells that every part was
    done. *)
Inductive delivered (net : Delivery.Network)
  : nat -> list string -> list nat -> list nat -> bool -> Prop :=
| delivered_all (i : nat) : delivered net i [] [] [] true
| delivered_part (i : nat) (part : string) (rest : list string)
                 (counts waits : list nat) (ok : bool) :
    accepted net (i + postsFrom net i - 1) = true ->
    delivered net (i + postsFrom net i) rest counts waits ok ->
    delivered net i (part :: rest) (postsFrom net i :: counts)
              (waitsFrom net i ++ waits) ok
| delivered_stop (i : nat) (part : string) (rest : list string) :
    accepted net (i + postsFrom net i - 1) = false ->
    delivered net i (part :: rest) [postsFrom net i] (waitsFrom net i) false.

(** *** The dispatches of a [/trigger], seen from GitHub *)


(** The first character of [s] satisfies [p]. *)
Definition headIs (p : ascii -> bool) (s : string) : bool :=
  match s with
  | String c _ => p c
  | EmptyString => false
  end.

(** A [$] followed at once by a digit or a comma occurs in [s]. *)
Fixpoint hasPriceStart (s : string) : bool :=
  match s with
  | String c rest =>
      (Ascii.eqb c "$"%char && headIs Monitor.isDigitOrComma rest)
      || hasPriceStart rest
  | EmptyString => false
  end.

(** [s] begins with a point and two digits. *)
Definition beginsWithCents (s : string) : bool :=
  match s with
  | String p (String d1 (String d2 _)) =>
      Ascii.eqb p "."%char && Str.isDigit d1 && Str.isDigit d2
  | _ => false
  end.

(** [s] reads as the dollar amount [body ++ cents]: it is [pre], a [$],
    [body], [cents] and [post], where
    - the [$] is the first one of [s] followed by a digit or a comma,
    - [body] is the whole run of digits and commas that follows it,
    - [cents] is the point and the two digits that follow the run when
      there are such, and empty otherwise. *)
Definition readsAs (s pre body cents post : string) : Prop :=
  s = (pre ++ "$" ++ body ++ cents ++ post)%string
  /\ hasPriceStart pre = false
  /\ body <> EmptyString
  /\ Str.forallb Monitor.isDigitOrComma body = true
  /\ headIs Monitor.isDigitOrComma (cents ++ post) = false
  /\ ((cents = EmptyString /\ beginsWithCents post = false)
      \/ exists d1 d2,
          cents = String "."%char (String d1 (String d2 EmptyString))
          /\ Str.isDigit d1 = true /\ Str.isDigit d2 = true).

(** [id] is the code of the first [/products/<code>] segment of [url]:
    [url] is [pre], [/products/], [id] and [post], where [id] is not
    empty, holds no [/] and no [?], and goes up to the next [/] or [?] or
    to the end, and where no [/products/] followed by a character other
    than [/] and [?] starts further left. *)
Definition firstProductSegment (url id : string) : Prop :=
  exists pre post,
    url = (pre ++ "/products/" ++ id ++ post)%string
    /\ id <> EmptyString
    /\ Str.forallb Scraper.notSlashOrQuery id = true
    /\ headIs Scraper.notSlashOrQuery post = false
    /\ forall p1 c p2,
        url = (p1 ++ "/products/" ++ String c p2)%string ->
        Scraper.notSlashOrQuery c = true ->
        String.length pre <= String.length p1.

(* ------------------------------------------------------------------ *)
(** ** Sample pages, monitors and runs *)

Module Sample.
Import Scraper Monitor.

(** A product tile: its link is [a.title], its price is in [.price]. *)
Definition product (code title price : string) : Element :=
  {| el_attr := fun _ => None;
     el_find_attr := fun sel a =>
       Some (if String.eqb sel "a.title" && String.eqb a "href"
             then Some ("/products/" ++ code ++ "/")%string else None);
     el_find_text := fun sel =>
       Some (if String.eqb sel "a.title" then title
             else if String.eqb sel ".price" then price
             else EmptyString) |}.

(** A tile whose link leads nowhere near [/products/]. *)
Definition banner : Element :=
  {| el_attr := fun _ => None;
     el_find_attr := fun _ _ => Some (Some "/about");
     el_find_text := fun _ => Some "Sale!" |}.

(** A world serving the given pages (a page's HTML is named by its URL)
    in which Telegram accepts every message or none. *)
Definition world (pages : Dict.t (list Element)) (accepts : bool) : World :=
  {| http_get := fun url => if Dict.has url pages then Some url else None;
     cheerio_select := fun html _ => Dict.get html pages;
     cheerio_text := fun html sel =>
       match Dict.get html pages with
       | Some (el :: _) => el_find_text el sel
       | _ => Some EmptyString
       end;
     telegram_accepts := fun _ => accepts |}.

Definition shopUrl : string := "https://shop.example/new".

Definition shop (maxPrice : option (option N))
  : ListMonitor Node.runtime :=
  @Build_ListMonitor Node.runtime
    "Shop" [shopUrl] ".product"
    [("title", "a.title"); ("url", "a.title@href"); ("price", ".price")]
    maxPrice None (Some "https://shop.example") None None None.

Definition shopKey : string := monitorKey Node.runtime "Shop".

Definition tileA : Element := product "a" "Avengers: New #1" "$10.00".
Definition tileB : Element := product "b" "X-Men Annual" "$20.00".
Definition tileC : Element := product "c" "Untitled Comic" "$30.00".
Definition tileD : Element := product "d" "Deluxe Omnibus" "$75.00".

Definition pageABC : Dict.t (list Element) := [(shopUrl, [tileA; tileB; tileC])].
Definition pageEmpty : Dict.t (list Element) := [(shopUrl, [])].

Definition fresh : Run := {| state := []; outbox := [] |}.

(** Prior state [["a","b"]] for the monitor. *)
Definition seenAB : Run :=
  {| state := [(shopKey, JSON.stringify_ids ["a"; "b"])]; outbox := [] |}.

(** A state entry that is not JSON. *)
Definition garbled : Run :=
  {| state := [(shopKey, "oops")]; outbox := [] |}.

Definition price : FieldsMonitor :=
  {| fm_name := "Omnibus price";
     fm_url := shopUrl;
     fm_selectors := [("price", ".price"); ("stock", ".stock")] |}.

(** A line that fills a part exactly, an empty line, and one more line. *)
Definition blankAtBoundary : string :=
  (Str.repeat "a"%char Telegram.TELEGRAM_SAFE_CHUNK_LEN
   ++ nlString ++ nlString ++ "b")%string.

(** Three short lines. *)
Definition threeLines : string :=
  ("ab" ++ nlString ++ "cd" ++ nlString ++ "ef")%string.

(** What the scraper makes of a [product] tile under [shop]. *)
Definition item (code title price : string) : ScrapedItem :=
  let url := ("https://shop.example/products/" ++ code ++ "/")%string in
  {| item_id := code;
     item_url := url;
     item_fields := [("title", Some title); ("url", Some url);
                     ("price", Some price)] |}.

Definition extractedABC : list (list ScrapedItem) :=
  [[item "a" "Avengers: New #1" "$10.00"; item "b" "X-Men Annual" "$20.00";
    item "c" "Untitled Comic" "$30.00"]].

(** The snapshot [price] takes of the first tile. *)
Definition snapshotA : Dict.t (option string) :=
  [("price", Some "$10.00"); ("stock", None)].

(** A page with an affordable tile and one above a limit of 50. *)
Definition pageAD : Dict.t (list Element) := [(shopUrl, [tileA; tileD])].

Definition extractedAD : list (list ScrapedItem) :=
  [[item "a" "Avengers: New #1" "$10.00"; item "d" "Deluxe Omnibus" "$75.00"]].

(** Prior state [["a"]] for the monitor. *)
Definition seenA : Run :=
  {| state := [(shopKey, JSON.stringify_ids ["a"])]; outbox := [] |}.

(** A limit of 50, in hundredths. *)
Definition fifty : option (option N) := Some (Some 5000%N).

(** A page whose first tile has no [/products/] link. *)
Definition pageBannerA : Dict.t (list Element) := [(shopUrl, [banner; tileA])].

(** Items for the formatter. *)
Definition avengers : ScrapedItem := item "a" "Avengers: New #1" "$10.00".
Definition untitled : ScrapedItem := item "c" "Untitled Comic" "$30.00".

(** A line far longer than a part of five characters, between two short
    lines. *)
Definition longLine : string :=
  ("ab" ++ nlString ++ "0123456789abc" ++ nlString ++ nlString ++ "yz")%string.

(** A network that answers 429 (come back in 3 seconds) to the first POST
    and 200 to every other. *)
Definition busyOnce : Delivery.Network :=
  fun n =>
    if Nat.eqb n 0
    then Some {| Delivery.status := 429; Delivery.retry_after := Some 3;
                 Delivery.json_body := true |}
    else Some {| Delivery.status := 200; Delivery.retry_after := None;
                 Delivery.json_body := true |}.

(** An item priced in another currency. *)
Definition euro : ScrapedItem := item "e" "Euro Edition" "10,00 EUR".

(** Services that always answer, with no run yet for any workflow. *)
Definition services : Bot.Services :=
  {| Bot.delivers := fun _ _ => true;
     Bot.github := true;
     Bot.dispatches := fun _ _ => true;
     Bot.latestRun := fun _ _ => Some None;
     Bot.toUTCString := fun s => s |}.

(** An update carrying a text from a chat. *)
Definition says (id : nat) (chat text : string) : Bot.TelegramUpdate :=
  {| Bot.update_id := id;
     Bot.message := Some {| Bot.chat := chat; Bot.text := Some text |} |}.

Definition quiet : Bot.Log := {| Bot.posted := []; Bot.dispatched := [] |}.

(** Four lines, the second one empty; the first three fill a part of six
    characters exactly. *)
Definition innerBlank : string :=
  ("aa" ++ nlString ++ nlString ++ "bb" ++ nlString ++ "cc")%string.

(** A network that accepts the first POST and refuses every other. *)
Definition refusesSecond : Delivery.Network :=
  fun n =>
    Some {| Delivery.status := if Nat.eqb n 0 then 200 else 400;
            Delivery.retry_after := None;
            Delivery.json_body := true |}.


(** The options of [shop] with a transform keyed by a name that every
    object inherits. *)
Definition strippingToString : ExtractOptions :=
  {| baseUrl := Some "https://shop.example";
     idAttribute := None;
     urlTemplate := None;
     fieldTransforms := Some [("toString", "stripPrefix:New ")] |}.

End Sample.

(* ================================================================== *)
(** * Properties *)

(** ** Strings *)

Lemma append_nil_r (s : string) : (s ++ "")%string = s.
Proof. induction s; simpl; congruence. Qed.

Lemma append_assoc (a b c : string) :
  ((a ++ b) ++ c)%string = (a ++ b ++ c)%string.
Proof. induction a; simpl; congruence. Qed.

Lemma append_length (a b : string) :
  String.length (a ++ b) = String.length a + String.length b.
Proof. induction a; simpl; auto. Qed.

Lemma truthy_false (s : string) : Str.truthy s = false -> s = EmptyString.
Proof. destruct s; simpl; congruence. Qed.

Lemma truthy_true (s : string) : Str.truthy s = true -> s <> EmptyString.
Proof. destruct s; simpl; congruence. Qed.

Lemma substring_length (i n : nat) (s : string) :
  String.length (String.substring i n s) <= n.
Proof.
  revert i n; induction s as [|c s IH]; intros [|i] [|n]; simpl;
    try lia.
  - specialize (IH 0 n). lia.
  - apply (IH i 0).
  - apply (IH i (S n)).
Qed.

Lemma substring_drop (i n : nat) (s : string) :
  String.substring i n s = String.substring 0 n (Str.drop i s).
Proof.
  revert i; induction s as [|c s IH]; intros [|i]; simpl; auto.
  destruct n; reflexivity.
Qed.

Lemma drop_length (i : nat) (s : string) :
  String.length (Str.drop i s) = String.length s - i.
Proof. revert i; induction s; intros [|i]; simpl; auto. Qed.

Lemma drop_drop (i j : nat) (s : string) :
  Str.drop j (Str.drop i s) = Str.drop (i + j) s.
Proof.
  revert i; induction s as [|c s IH]; intros [|i]; simpl; auto.
  destruct j; reflexivity.
Qed.

Lemma take_drop (n : nat) (s : string) :
  (String.substring 0 n s ++ Str.drop n s)%string = s.
Proof.
  revert n; induction s as [|c s IH]; intros [|n]; simpl; auto.
  now rewrite IH.
Qed.

Lemma drop_all (i : nat) (s : string) :
  String.length s <= i -> Str.drop i s = EmptyString.
Proof.
  revert i; induction s as [|c s IH]; intros [|i]; simpl; auto; try lia.
  intro; apply IH; lia.
Qed.

(** ** Lines *)

Lemma split_lines_not_nil (s : string) : Str.split_lines s <> [].
Proof.
  induction s as [|c s IH]; simpl; [discriminate|].
  destruct (Ascii.eqb c Str.nl); [discriminate|].
  destruct (Str.split_lines s); discriminate.
Qed.

Lemma join_cons2 (sep x y : string) (l : list string) :
  Str.join sep (x :: y :: l) = (x ++ sep ++ Str.join sep (y :: l))%string.
Proof. reflexivity. Qed.

Lemma join_split (s : string) : Str.join nlString (Str.split_lines s) = s.
Proof.
  induction s as [|c s IH]; simpl; auto.
  pose proof (split_lines_not_nil s) as Hn.
  destruct (Ascii.eqb_spec c Str.nl) as [->|Hc].
  - destruct (Str.split_lines s) as [|l ls]; [congruence|].
    rewrite join_cons2, IH. reflexivity.
  - destruct (Str.split_lines s) as [|l ls]; [congruence|].
    destruct ls as [|l' ls];
      unfold Str.join in *; simpl in *; congruence.
Qed.


Lemma oneLine_cons (c : ascii) (s : string) :
  oneLine (String c s) = negb (Ascii.eqb c Str.nl) && oneLine s.
Proof. reflexivity. Qed.

Lemma split_one_line (s : string) :
  oneLine s = true -> Str.split_lines s = [s].
Proof.
  induction s as [|c s IH]; [reflexivity|].
  rewrite oneLine_cons. intro H. apply andb_prop in H as [Hc Hs].
  cbn [Str.split_lines].
  destruct (Ascii.eqb c Str.nl); [discriminate|].
  now rewrite (IH Hs).
Qed.

Lemma split_lines_oneLine (s : string) :
  Forall (fun l => oneLine l = true) (Str.split_lines s).
Proof.
  induction s as [|c s IH]; cbn [Str.split_lines].
  - repeat constructor.
  - destruct (Ascii.eqb c Str.nl) eqn:Hc.
    + constructor; auto.
    + destruct (Str.split_lines s) as [|l ls].
      * constructor; [|constructor]. rewrite oneLine_cons, Hc. reflexivity.
      * inversion IH; subst. constructor; auto.
        rewrite oneLine_cons, Hc. assumption.
Qed.

Lemma split_app_nl (a b : string) :
  Str.split_lines (a ++ nlString ++ b)
  = Str.split_lines a ++ Str.split_lines b.
Proof.
  induction a as [|c a IH].
  - reflexivity.
  - change ((String c a ++ nlString ++ b)%string)
      with (String c (a ++ nlString ++ b)).
    cbn [Str.split_lines].
    destruct (Ascii.eqb c Str.nl).
    + rewrite IH. reflexivity.
    + rewrite IH.
      pose proof (split_lines_not_nil a) as Hn.
      destruct (Str.split_lines a); [congruence|reflexivity].
Qed.

Lemma split_join (parts : list string) :
  parts <> [] -> Str.split_lines (Str.join nlString parts) = linesOf parts.
Proof.
  induction parts as [|p ps IH]; [congruence|]. intros _.
  destruct ps as [|q ps].
  - unfold linesOf. simpl. now rewrite app_nil_r.
  - rewrite join_cons2, split_app_nl, IH by discriminate. reflexivity.
Qed.

Lemma linesOf_app (a b : list string) :
  linesOf (a ++ b) = linesOf a ++ linesOf b.
Proof. unfold linesOf. now rewrite flat_map_app. Qed.

Lemma nonBlank_app (a b : list string) :
  nonBlank (a ++ b) = nonBlank a ++ nonBlank b.
Proof. apply filter_app. Qed.

(** ** The message chunker *)

Lemma concat_empty_cons (x : string) (l : list string) :
  String.concat EmptyString (x :: l) = (x ++ String.concat EmptyString l)%string.
Proof.
  destruct l as [|y l]; simpl.
  - now rewrite append_nil_r.
  - reflexivity.
Qed.

(** The fallback loop ends when [maxLen] is positive, and cuts the rest of
    the line into pieces of at most [maxLen] characters. *)
Lemma sliceLoop_ok (maxLen : nat) (line : string) :
  0 < maxLen ->
  forall fuel i, String.length line - i <= fuel ->
    exists slices,
      Telegram.sliceLoop fuel i line maxLen = Some slices
      /\ Forall (fun p => String.length p <= maxLen) slices
      /\ String.concat EmptyString slices = Str.drop i line.
Proof.
  intros Hpos. induction fuel as [|fuel IH]; intros i Hfuel; simpl.
  - destruct (Nat.ltb_spec i (String.length line)); [lia|].
    exists []. repeat split; auto. simpl. symmetry. now apply drop_all.
  - destruct (Nat.ltb_spec i (String.length line)) as [Hlt|Hge].
    + destruct (IH (i + maxLen)) as (rest & -> & Hb & Hc); [lia|].
      eexists. split; [reflexivity|]. split.
      * constructor; auto. apply substring_length.
      * rewrite concat_empty_cons, Hc. unfold Str.slice.
        rewrite substring_drop, <- drop_drop. apply take_drop.
    + exists []. repeat split; auto. simpl. symmetry. now apply drop_all.
Qed.

Lemma flush_bound (maxLen : nat) (chunks : list string) (current : string) :
  Forall (fun p => String.length p <= maxLen) chunks ->
  String.length current <= maxLen ->
  Forall (fun p => String.length p <= maxLen) (Telegram.flush chunks current).
Proof.
  intros Hc Hcur. unfold Telegram.flush.
  destruct (Str.truthy current); auto.
  apply Forall_app. split; auto.
Qed.

Lemma linesOf_flush_flush (chunks : list string) (current line : string) :
  linesOf (Telegram.flush (Telegram.flush chunks current) line)
  = linesOf (Telegram.flush chunks current) ++ linesOf (Telegram.flush [] line).
Proof.
  unfold Telegram.flush at 1 4.
  destruct (Str.truthy line); cbn [app].
  - now rewrite linesOf_app.
  - unfold linesOf at 3. cbn [flat_map]. now rewrite app_nil_r.
Qed.

Lemma linesOf_flush_line (line : string) :
  oneLine line = true ->
  nonBlank (linesOf (Telegram.flush [] line)) = nonBlank [line]
  /\ (Str.truthy line = true -> linesOf (Telegram.flush [] line) = [line]).
Proof.
  intro H1. unfold Telegram.flush.
  destruct (Str.truthy line) eqn:Ht.
  - unfold linesOf. simpl. rewrite (split_one_line _ H1). simpl.
    rewrite Ht. auto.
  - simpl. rewrite Ht. split; [reflexivity|discriminate].
Qed.

Lemma linesOf_flush_next (chunks : list string) (current line : string) :
  oneLine line = true -> Str.truthy current = true ->
  linesOf (Telegram.flush chunks (current ++ nlString ++ line))
  = linesOf (Telegram.flush chunks current) ++ [line].
Proof.
  intros H1 Ht. unfold Telegram.flush. rewrite Ht.
  destruct current as [|c current]; [discriminate|]. simpl Str.truthy. cbv iota.
  rewrite !linesOf_app. unfold linesOf at 2 4. cbn [flat_map].
  rewrite !app_nil_r.
  change (String c current ++ nlString ++ line)%string
    with (String c current ++ nlString ++ line)%string.
  rewrite split_app_nl, (split_one_line _ H1). now rewrite app_assoc.
Qed.

(** The loop on lines that all fit: it ends, every part fits, the lines of
    the parts are those of the input up to empty lines, and exactly those
    of the input when no line is empty. *)
Lemma chunkLoop_short (maxLen : nat) :
  forall lines chunks current,
    Forall (fun l => String.length l <= maxLen) lines ->
    Forall (fun l => oneLine l = true) lines ->
    Forall (fun p => String.length p <= maxLen) chunks ->
    String.length current <= maxLen ->
    exists parts,
      Telegram.chunkLoop maxLen lines chunks current = Some parts
      /\ Forall (fun p => String.length p <= maxLen) parts
      /\ nonBlank (linesOf parts)
         = nonBlank (linesOf (Telegram.flush chunks current) ++ lines)
      /\ (Forall (fun l => Str.truthy l = true) lines ->
          linesOf parts = linesOf (Telegram.flush chunks current) ++ lines).
Proof.
  induction lines as [|line rest IH]; intros chunks current Hlen Hone Hch Hcur.
  - simpl. eexists. split; [reflexivity|]. rewrite !app_nil_r.
    split; [now apply flush_bound|]. split; auto.
  - inversion Hlen as [|? ? Hl Hlen']; subst.
    inversion Hone as [|? ? Ho Hone']; subst.
    destruct (linesOf_flush_line line Ho) as [Hn1 Hx1].
    cbn [Telegram.chunkLoop].
    destruct (Str.truthy current) eqn:Ht.
    + destruct (Nat.leb_spec
                  (String.length (current ++ String Str.nl EmptyString ++ line))
                  maxLen) as [Hfit|Hover].
      * destruct (IH chunks (current ++ nlString ++ line)%string)
          as (parts & E & Hb & Hn & Hx); auto.
        exists parts. split; [exact E|]. split; [exact Hb|].
        rewrite linesOf_flush_next in Hn by assumption.
        rewrite <- app_assoc in Hn. split; [exact Hn|].
        intro Hall. inversion Hall; subst.
        rewrite Hx, linesOf_flush_next, <- app_assoc by assumption.
        reflexivity.
      * apply Nat.leb_le in Hl. rewrite Hl.
        apply Nat.leb_le in Hl.
        destruct (IH (Telegram.flush chunks current) line)
          as (parts & E & Hb & Hn & Hx); auto using flush_bound.
        exists parts. split; [exact E|]. split; [exact Hb|].
        rewrite linesOf_flush_flush in Hn. split.
        -- rewrite Hn. change (line :: rest) with ([line] ++ rest).
           rewrite !nonBlank_app, Hn1, app_assoc. reflexivity.
        -- intro Hall. inversion Hall; subst.
           rewrite Hx, linesOf_flush_flush, Hx1, <- app_assoc by assumption.
           reflexivity.
    + apply truthy_false in Ht. subst current.
      apply Nat.leb_le in Hl. rewrite Hl. apply Nat.leb_le in Hl.
      destruct (IH chunks line) as (parts & E & Hb & Hn & Hx); auto.
      exists parts. split; [exact E|]. split; [exact Hb|].
      assert (Hf : Telegram.flush chunks line
                   = Telegram.flush (Telegram.flush chunks EmptyString) line)
        by reflexivity.
      rewrite Hf, linesOf_flush_flush in Hn. split.
      * rewrite Hn. change (line :: rest) with ([line] ++ rest).
        rewrite !nonBlank_app, Hn1, app_assoc. reflexivity.
      * intro Hall. inversion Hall; subst.
        rewrite Hx, Hf, linesOf_flush_flush, Hx1, <- app_assoc by assumption.
        reflexivity.
Qed.

Lemma chunkLoop_total (maxLen : nat) :
  0 < maxLen ->
  forall lines chunks current,
    Forall (fun p => String.length p <= maxLen) chunks ->
    String.length current <= maxLen ->
    exists parts,
      Telegram.chunkLoop maxLen lines chunks current = Some parts
      /\ Forall (fun p => String.length p <= maxLen) parts.
Proof.
  intro Hpos.
  induction lines as [|line rest IH]; intros chunks current Hch Hcur.
  - simpl. eexists. split; [reflexivity|]. now apply flush_bound.
  - cbn [Telegram.chunkLoop].
    match goal with
    | |- context [Nat.leb (String.length ?next) maxLen] =>
        destruct (Nat.leb_spec (String.length next) maxLen) as [Hfit|Hover]
    end.
    + apply IH; auto.
    + destruct (Nat.leb_spec (String.length line) maxLen) as [Hl|Hl].
      * apply IH; auto using flush_bound.
      * destruct (@sliceLoop_ok maxLen line Hpos (String.length line) 0)
          as (slices & -> & Hs & _); [lia|].
        apply IH; [|simpl; lia].
        apply Forall_app. split; auto using flush_bound.
Qed.

Lemma chunk_long_line (maxLen : nat) (line : string) :
  0 < maxLen -> oneLine line = true -> maxLen < String.length line ->
  exists slices,
    Telegram.chunkTelegramMessage line maxLen = Some slices
    /\ Forall (fun p => String.length p <= maxLen) slices
    /\ String.concat EmptyString slices = line.
Proof.
  intros Hpos Hone Hlong. unfold Telegram.chunkTelegramMessage.
  destruct (Nat.leb_spec (String.length line) maxLen); [lia|].
  rewrite (split_one_line _ Hone). cbn [Telegram.chunkLoop Str.truthy].
  destruct (Nat.leb_spec (String.length line) maxLen); [lia|].
  destruct (@sliceLoop_ok maxLen line Hpos (String.length line) 0)
    as (slices & -> & Hs & Hc); [lia|].
  exists slices. repeat split; auto.
Qed.

Lemma join_snoc (x : string) (l : list string) (y : string) :
  Str.join nlString (x :: l ++ [y])
  = (Str.join nlString (x :: l) ++ nlString ++ y)%string.
Proof.
  revert x. induction l as [|z l IH]; intro x.
  - cbn [app]. rewrite join_cons2. unfold Str.join. cbn. reflexivity.
  - cbn [app]. rewrite !join_cons2, IH. now rewrite !append_assoc.
Qed.

Lemma join_truthy (x : string) (l : list string) :
  x <> EmptyString -> Str.truthy (Str.join nlString (x :: l)) = true.
Proof.
  intro H. destruct x as [|c x]; [now contradiction H|].
  destruct l; unfold Str.join; cbn; reflexivity.
Qed.

(** The loop on lines that all fit lays them out as [laidOut] says, from
    a part that is open and from none. *)
Lemma chunkLoop_laidOut (maxLen : nat) :
  forall lines,
    Forall (fun l => String.length l <= maxLen) lines ->
    (forall chunks,
        exists parts dropped,
          Telegram.chunkLoop maxLen lines chunks EmptyString
          = Some (chunks ++ parts)
          /\ laidOut maxLen lines parts dropped)
    /\ (forall chunks first more,
           first <> EmptyString ->
           String.length (Str.join nlString (first :: more)) <= maxLen ->
           exists taken rest parts dropped,
             lines = taken ++ rest
             /\ Telegram.chunkLoop maxLen lines chunks
                  (Str.join nlString (first :: more))
                = Some (chunks
                        ++ Str.join nlString (first :: more ++ taken) :: parts)
             /\ String.length (Str.join nlString (first :: more ++ taken))
                <= maxLen
             /\ (forall next tail,
                    rest = next :: tail ->
                    maxLen < String.length
                               (Str.join nlString
                                  (first :: (more ++ taken) ++ [next])))
             /\ laidOut maxLen rest parts dropped).
Proof.
  induction lines as [|line lines IH]; intro Hfit.
  - split.
    + intro chunks. exists [], 0. cbn. rewrite app_nil_r.
      split; [reflexivity|constructor].
    + intros chunks first more Hne Hlen. exists [], [], [], 0.
      rewrite !app_nil_r. cbn [Telegram.chunkLoop]. unfold Telegram.flush.
      rewrite join_truthy by exact Hne.
      split; [reflexivity|]. split; [reflexivity|]. split; [exact Hlen|].
      split; [intros next tail Ht; discriminate|constructor].
  - inversion Hfit as [|? ? Hl Hfit']; subst.
    destruct (IH Hfit') as [IHclosed IHopen].
    assert (Hclosed : forall chunks,
               exists parts dropped,
                 Telegram.chunkLoop maxLen (line :: lines) chunks EmptyString
                 = Some (chunks ++ parts)
                 /\ laidOut maxLen (line :: lines) parts dropped).
    { intro chunks. cbn [Telegram.chunkLoop Str.truthy].
      apply Nat.leb_le in Hl. rewrite Hl. apply Nat.leb_le in Hl.
      destruct line as [|c line].
      - destruct (IHclosed chunks) as (parts & d & E & Hlay).
        exists parts, (S d). split; [exact E|now constructor].
      - destruct (IHopen chunks (String c line) [])
          as (taken & rest & parts & d & -> & E & Hlen & Hnext & Hlay);
          [discriminate|exact Hl|].
        exists (Str.join nlString (String c line :: taken) :: parts), d.
        split; [exact E|]. apply laidOut_part; auto. discriminate. }
    split; [exact Hclosed|].
    intros chunks first more Hne Hlen.
    cbn [Telegram.chunkLoop]. rewrite join_truthy by exact Hne.
    change (String Str.nl EmptyString) with nlString.
    rewrite <- join_snoc.
    destruct (Nat.leb_spec
                (String.length (Str.join nlString (first :: more ++ [line])))
                maxLen) as [Hin|Hout].
    + destruct (IHopen chunks first (more ++ [line]) Hne Hin)
        as (taken & rest & parts & d & -> & E & Hlen' & Hnext & Hlay).
      exists (line :: taken), rest, parts, d.
      rewrite <- !app_assoc in *. cbn [app] in *.
      repeat split; auto.
    + apply Nat.leb_le in Hl. rewrite Hl. apply Nat.leb_le in Hl.
      unfold Telegram.flush. rewrite join_truthy by exact Hne.
      destruct (Hclosed (chunks ++ [Str.join nlString (first :: more)]))
        as (parts & d & E & Hlay).
      cbn [Telegram.chunkLoop Str.truthy] in E.
      apply Nat.leb_le in Hl. rewrite Hl in E.
      exists [], (line :: lines), parts, d. rewrite !app_nil_r.
      split; [reflexivity|]. split.
      * rewrite E, <- app_assoc. reflexivity.
      * split; [exact Hlen|]. split; [|exact Hlay].
        intros next tail Ht. now injection Ht as <- _.
Qed.

(** What a layout keeps: the lines of the parts are the lines of the text
    less the ones left out. *)
Lemma laidOut_lines (maxLen : nat) (lines parts : list string) (dropped : nat) :
  Forall (fun l => oneLine l = true) lines ->
  laidOut maxLen lines parts dropped ->
  List.length (linesOf parts) + dropped = List.length lines
  /\ (dropped = 0 -> linesOf parts = lines).
Proof.
  intros Hone H. induction H as [|rest parts d H IH|first more rest parts d
                                      Hne Hlen Hnext H IH].
  - auto.
  - inversion Hone; subst. destruct (IH ltac:(assumption)) as [Hl _].
    cbn [List.length]. split; [lia|discriminate].
  - change (first :: more ++ rest) with ((first :: more) ++ rest) in *.
    apply Forall_app in Hone as [Hpart Hrest].
    destruct (IH Hrest) as [Hl Hx].
    assert (Hs : Str.split_lines (Str.join nlString (first :: more))
                 = first :: more).
    { rewrite split_join by discriminate. unfold linesOf.
      clear - Hpart. induction Hpart as [|x l Hx _ IH]; [reflexivity|].
      cbn [flat_map]. rewrite (split_one_line _ Hx), IH. reflexivity. }
    unfold linesOf in *. cbn [flat_map]. rewrite Hs.
    rewrite !length_app. split; [lia|].
    intro Hd. now rewrite (Hx Hd).
Qed.

Lemma join_longer (x : string) (l l' : list string) :
  String.length (Str.join nlString (x :: l))
  <= String.length (Str.join nlString (x :: l ++ l')).
Proof.
  revert l. induction l' as [|y l' IH]; intro l.
  - now rewrite app_nil_r.
  - replace (l ++ y :: l') with ((l ++ [y]) ++ l')
      by (now rewrite <- app_assoc).
    eapply Nat.le_trans; [|apply IH].
    rewrite join_snoc, !append_length. lia.
Qed.

(** The layout of a text is determined: [laidOut] holds of one list of
    parts only. *)
Lemma laidOut_unique (maxLen : nat) (lines parts : list string) (dropped : nat) :
  laidOut maxLen lines parts dropped ->
  forall parts' dropped',
    laidOut maxLen lines parts' dropped' ->
    parts' = parts /\ dropped' = dropped.
Proof.
  induction 1 as [|rest parts d H IH|first more rest parts d
                    Hne Hlen Hnext H IH]; intros parts' d' H'.
  - inversion H'; auto.
  - inversion H'; subst.
    + match goal with
      | Hrest : laidOut _ rest _ _ |- _ =>
          destruct (IH _ _ Hrest) as [-> ->]; auto
      end.
    + match goal with Hf : EmptyString <> EmptyString |- _ =>
        now contradiction Hf end.
  - inversion H'; subst.
    + now contradiction Hne.
    + match goal with
      | Heq : ?more' ++ ?rest' = more ++ rest,
        Hnext' : forall next tail, ?rest' = next :: tail -> _,
        Hlen' : String.length (Str.join nlString (first :: ?more')) <= maxLen,
        Hrest : laidOut _ ?rest' _ _ |- _ =>
          assert (Hsame : more' = more /\ rest' = rest);
          [apply app_eq_app in Heq as (l & [[-> ->]|[-> ->]]);
           (destruct l as [|x l]; [now rewrite !app_nil_r|exfalso])
          |destruct Hsame as [-> ->];
           destruct (IH _ _ Hrest) as [-> ->]; auto]
      end.
      all: match goal with
           | Hn : forall next tail, (?x :: ?l) ++ _ = next :: tail -> _,
             Hl : String.length (Str.join nlString (?f :: ?m ++ ?x :: ?l))
                  <= ?n |- _ =>
               specialize (Hn x _ eq_refl);
               pose proof (join_longer f (m ++ [x]) l) as Hj;
               rewrite <- app_assoc in Hj; cbn [app] in Hj; lia
           end.
Qed.

(** C8 (as the code has it). For a text whose lines all fit in [maxLen]
    the chunker returns parts that each fit. A text that fits in one part
    is that part. Otherwise the parts are laid out as [laidOut] says: each
    is a run of consecutive lines of the text, empty ones included, begun
    at a non-empty line and continued for as long as the next line fits,
    and the only lines left out are the empty lines met where a part would
    begin. So the parts joined by newlines have the non-empty lines of the
    text in order, and they are the text exactly when no line was left
    out, as when the text has no empty line. No other list of parts is
    laid out so. A text that is one line
    longer than a positive [maxLen] is cut into slices of at most [maxLen]
    characters whose concatenation is the line, and for any text and
    positive [maxLen] every part fits. *)
Theorem chunk_parts_fit_and_keep_lines (maxLen : nat) :
  (forall text,
      Forall (fun l => String.length l <= maxLen) (Str.split_lines text) ->
      exists parts dropped,
        Telegram.chunkTelegramMessage text maxLen = Some parts
        /\ Forall (fun p => String.length p <= maxLen) parts
        /\ nonBlank (Str.split_lines (Str.join nlString parts))
           = nonBlank (Str.split_lines text)
        /\ (Forall (fun l => Str.truthy l = true) (Str.split_lines text)
            \/ String.length text <= maxLen ->
            Str.join nlString parts = text)
        /\ (String.length text <= maxLen -> parts = [text] /\ dropped = 0)
        /\ (maxLen < String.length text ->
            laidOut maxLen (Str.split_lines text) parts dropped
            /\ forall parts' dropped',
                laidOut maxLen (Str.split_lines text) parts' dropped' ->
                parts' = parts /\ dropped' = dropped)
        /\ List.length (linesOf parts) + dropped
           = List.length (Str.split_lines text)
        /\ (dropped = 0 <-> Str.join nlString parts = text))
  /\ (0 < maxLen ->
      (forall line,
          oneLine line = true -> maxLen < String.length line ->
          exists slices,
            Telegram.chunkTelegramMessage line maxLen = Some slices
            /\ Forall (fun p => String.length p <= maxLen) slices
            /\ String.concat EmptyString slices = line)
      /\ (forall text,
             exists parts,
               Telegram.chunkTelegramMessage text maxLen = Some parts
               /\ Forall (fun p => String.length p <= maxLen) parts)).
Proof.
  split.
  - intros text Hfit. unfold Telegram.chunkTelegramMessage.
    destruct (Nat.leb_spec (String.length text) maxLen) as [Hshort|Hlong].
    + exists [text], 0. unfold linesOf. cbn [flat_map].
      rewrite app_nil_r, Nat.add_0_r.
      repeat split; auto; intros; exfalso; lia.
    + destruct (@chunkLoop_short maxLen (Str.split_lines text) [] EmptyString)
        as (parts & E & Hb & Hn & Hx);
        auto using split_lines_oneLine; [simpl; lia|].
      destruct (proj1 (@chunkLoop_laidOut maxLen (Str.split_lines text) Hfit) [])
        as (parts' & dropped & E' & Hlay).
      cbn [app] in E'. rewrite E in E'. injection E' as <-.
      destruct (@laidOut_lines maxLen _ _ _ (split_lines_oneLine text) Hlay)
        as [Hcount Hkept].
      exists parts, dropped. split; [exact E|]. split; [exact Hb|].
      cbn [Telegram.flush Str.truthy linesOf flat_map app] in Hn, Hx.
      assert (Hexact : linesOf parts = Str.split_lines text ->
                       Str.join nlString parts = text).
      { intro Hsame. destruct parts as [|p ps].
        - exfalso. apply (split_lines_not_nil text). now rewrite <- Hsame.
        - rewrite <- (join_split text), <- Hsame, <- split_join by discriminate.
          now rewrite join_split. }
      split; [|split; [|split; [lia|split;
        [intros _; split; [exact Hlay|apply (laidOut_unique Hlay)]
        |split; [exact Hcount|]]]]].
      * destruct parts as [|p ps]; [rewrite <- Hn; reflexivity|].
        now rewrite split_join by discriminate.
      * intros [Hall|Hle]; [|lia]. apply Hexact. now apply Hx.
      * split; [intro Hd; apply Hexact; now apply Hkept|].
        intro Hjoin. destruct parts as [|p ps].
        -- unfold Str.join in Hjoin. cbn in Hjoin. subst text.
           cbn in Hlong. lia.
        -- assert (Hsame : linesOf (p :: ps) = Str.split_lines text)
             by (rewrite <- Hjoin; symmetry; apply split_join; discriminate).
           rewrite Hsame in Hcount. lia.
  - intro Hpos. split.
    + intros line Hone Hlong. now apply chunk_long_line.
    + intro text. unfold Telegram.chunkTelegramMessage.
      destruct (Nat.leb_spec (String.length text) maxLen) as [Hshort|Hlong].
      * exists [text]. split; auto.
      * apply chunkLoop_total; auto. simpl; lia.
Qed.

(** The first part of the statement on four lines, one of them empty, and
    a limit of 6: the empty line falls inside a part and nothing is left
    out. *)
Lemma chunk_parts_fit_and_keep_lines_witness :
  exists parts dropped,
    Telegram.chunkTelegramMessage Sample.innerBlank 6 = Some parts
    /\ Forall (fun p => String.length p <= 6) parts
    /\ nonBlank (Str.split_lines (Str.join nlString parts))
       = nonBlank (Str.split_lines Sample.innerBlank)
    /\ (Forall (fun l => Str.truthy l = true) (Str.split_lines Sample.innerBlank)
        \/ String.length Sample.innerBlank <= 6 ->
        Str.join nlString parts = Sample.innerBlank)
    /\ (String.length Sample.innerBlank <= 6 ->
        parts = [Sample.innerBlank] /\ dropped = 0)
    /\ (6 < String.length Sample.innerBlank ->
        laidOut 6 (Str.split_lines Sample.innerBlank) parts dropped
        /\ forall parts' dropped',
            laidOut 6 (Str.split_lines Sample.innerBlank) parts' dropped' ->
            parts' = parts /\ dropped' = dropped)
    /\ List.length (linesOf parts) + dropped
       = List.length (Str.split_lines Sample.innerBlank)
    /\ (dropped = 0 <-> Str.join nlString parts = Sample.innerBlank).
Proof.
  apply (proj1 (chunk_parts_fit_and_keep_lines 6) Sample.innerBlank).
  vm_compute. repeat constructor.
Defined.

(** The same text computed: the empty line is kept inside the first part,
    and the parts joined by newlines are the text. *)
Lemma chunk_keeps_inner_blank_line :
  Telegram.chunkTelegramMessage Sample.innerBlank 6
  = Some [("aa" ++ nlString ++ nlString ++ "bb")%string; "cc"]
  /\ Str.join nlString [("aa" ++ nlString ++ nlString ++ "bb")%string; "cc"]
     = Sample.innerBlank.
Proof. split; vm_compute; reflexivity. Qed.

(** C8, where the claim fails: with the safe length of the source, a line
    of exactly that length followed by an empty line and a third line has
    lines that all fit, yet the parts joined by newlines are not the text:
    the empty line is gone. *)
Lemma chunk_drops_blank_line :
  Forall (fun l => String.length l <= Telegram.TELEGRAM_SAFE_CHUNK_LEN)
         (Str.split_lines Sample.blankAtBoundary)
  /\ Telegram.chunkTelegramMessage Sample.blankAtBoundary
       Telegram.TELEGRAM_SAFE_CHUNK_LEN
     = Some [Str.repeat "a"%char Telegram.TELEGRAM_SAFE_CHUNK_LEN; "b"]
  /\ Str.join nlString
       [Str.repeat "a"%char Telegram.TELEGRAM_SAFE_CHUNK_LEN; "b"]
     <> Sample.blankAtBoundary.
Proof.
  split; [|split].
  - assert (H : List.forallb
                  (fun l => Nat.leb (String.length l)
                                    Telegram.TELEGRAM_SAFE_CHUNK_LEN)
                  (Str.split_lines Sample.blankAtBoundary) = true)
      by (vm_compute; reflexivity).
    rewrite forallb_forall in H. apply Forall_forall.
    intros l Hl. apply Nat.leb_le. now apply H.
  - vm_compute. reflexivity.
  - apply String.eqb_neq. vm_compute. reflexivity.
Qed.

(** ** The order on strings and [sort] *)

Lemma ascii_compare_spec (a b : ascii) :
  CompareSpec (a = b) (N_of_ascii a < N_of_ascii b)%N
              (N_of_ascii b < N_of_ascii a)%N (Ascii.compare a b).
Proof.
  unfold Ascii.compare.
  destruct (N.compare_spec (N_of_ascii a) (N_of_ascii b)) as [E|L|G];
    constructor; auto.
  rewrite <- (ascii_N_embedding a), <- (ascii_N_embedding b). now rewrite E.
Qed.

Lemma leb_cons (a b : ascii) (s t : string) :
  String.leb (String a s) (String b t) = true <->
  (N_of_ascii a < N_of_ascii b)%N \/ (a = b /\ String.leb s t = true).
Proof.
  unfold String.leb. cbn [String.compare].
  destruct (ascii_compare_spec a b) as [E|L|G].
  - subst. split; [auto|]. intros [H|[_ H]]; [lia|exact H].
  - split; auto.
  - split; [discriminate|]. intros [H|[E _]]; [lia|subst; lia].
Qed.

Lemma leb_trans (a b c : string) :
  String.leb a b = true -> String.leb b c = true -> String.leb a c = true.
Proof.
  revert b c. induction a as [|x a IH]; intros [|y b] [|z c]; auto;
    try discriminate.
  rewrite !leb_cons. intros [L1|[E1 L1]] [L2|[E2 L2]]; subst.
  - left. lia.
  - left. exact L1.
  - left. exact L2.
  - right. split; eauto.
Qed.

Lemma leb_refl (a : string) : String.leb a a = true.
Proof. destruct (String.leb_total a a); assumption. Qed.

Lemma ltb_leb_neq (a b : string) :
  String.ltb a b = true <-> String.leb a b = true /\ a <> b.
Proof.
  unfold String.ltb, String.leb.
  destruct (String.compare a b) eqn:E.
  - apply String.compare_eq_iff in E. subst. split; [discriminate|].
    intros [_ H]. congruence.
  - split; auto. intros _. split; auto. intros ->.
    pose proof (String.compare_antisym b b) as H. rewrite E in H. discriminate.
  - split; [discriminate|]. intros [H _]. discriminate.
Qed.

Lemma insert_sorted_perm (x : string) (l : list string) :
  Permutation (insert_sorted x l) (x :: l).
Proof.
  induction l as [|y l IH]; simpl; auto.
  destruct (String.leb x y); auto.
  rewrite IH. apply perm_swap.
Qed.

Lemma sort_perm (l : list string) : Permutation (sort l) l.
Proof.
  induction l as [|x l IH]; simpl; auto.
  rewrite insert_sorted_perm. now constructor.
Qed.

Lemma sort_In (x : string) (l : list string) : In x (sort l) <-> In x l.
Proof.
  split; apply Permutation_in; [|symmetry]; apply sort_perm.
Qed.

Lemma sort_length (l : list string) : List.length (sort l) = List.length l.
Proof. apply Permutation_length, sort_perm. Qed.

Lemma insert_sorted_sorted (x : string) (l : list string) :
  StronglySorted (fun a b => String.leb a b = true) l ->
  StronglySorted (fun a b => String.leb a b = true) (insert_sorted x l).
Proof.
  induction 1 as [|y l Hs IH Hy]; simpl.
  - repeat constructor.
  - destruct (String.leb x y) eqn:E.
    + constructor; [constructor; auto|].
      constructor; auto.
      eapply Forall_impl; [|exact Hy]. intros z Hz. eapply leb_trans; eauto.
    + constructor; auto.
      apply Forall_forall. intros z Hz.
      apply (Permutation_in _ (insert_sorted_perm x l)) in Hz.
      destruct Hz as [<-|Hz].
      * destruct (String.leb_total x y); congruence.
      * rewrite Forall_forall in Hy. auto.
Qed.

Lemma sort_sorted (l : list string) :
  StronglySorted (fun a b => String.leb a b = true) (sort l).
Proof.
  induction l; simpl; [constructor|]. now apply insert_sorted_sorted.
Qed.

(** Sorting distinct strings gives a strictly ascending list. *)
Lemma sort_ascending (l : list string) : NoDup l -> ascending (sort l).
Proof.
  intro Hnd.
  assert (Hnd' : NoDup (sort l))
    by (eapply Permutation_NoDup; [symmetry; apply sort_perm|exact Hnd]).
  pose proof (sort_sorted l) as Hs. clear Hnd.
  induction Hs as [|x s Hs IH Hx]; [constructor|].
  inversion Hnd'; subst. constructor; [apply IH; assumption|].
  apply Forall_forall. intros y Hy. apply ltb_leb_neq. split.
  - rewrite Forall_forall in Hx. auto.
  - intros ->. contradiction.
Qed.

Lemma ascending_filter (p : string -> bool) (l : list string) :
  ascending l -> ascending (filter p l).
Proof.
  induction 1 as [|x l Hs IH Hx]; simpl; [constructor|].
  destruct (p x); [|exact IH]. constructor; [exact IH|].
  apply Forall_forall. intros y Hy. apply filter_In in Hy as [Hy _].
  rewrite Forall_forall in Hx. auto.
Qed.

Lemma ascending_NoDup (l : list string) : ascending l -> NoDup l.
Proof.
  induction 1 as [|x l Hs IH Hx]; constructor; auto.
  intro Hin. rewrite Forall_forall in Hx. specialize (Hx _ Hin).
  apply ltb_leb_neq in Hx. now destruct Hx.
Qed.

(** ** Ordered dictionaries *)

Section DictFacts.

Variable V : Type.
Implicit Types (d : Dict.t V) (k : string) (v : V).

Lemma get_set_same k v d : Dict.get k (Dict.set k v d) = Some v.
Proof.
  induction d as [|[k' v'] d IH]; simpl.
  - now rewrite String.eqb_refl.
  - destruct (String.eqb k k') eqn:E; simpl; rewrite ?E, ?String.eqb_refl; auto.
Qed.

Lemma get_set_other k k' v d :
  k <> k' -> Dict.get k' (Dict.set k v d) = Dict.get k' d.
Proof.
  intro Hne. induction d as [|[k0 v0] d IH]; simpl.
  - destruct (String.eqb_spec k' k); congruence.
  - destruct (String.eqb_spec k k0) as [->|Hk]; simpl.
    + destruct (String.eqb_spec k' k0); congruence.
    + now rewrite IH.
Qed.

(** Writing the value a key already has leaves the dictionary as it is,
    order included. *)
Lemma set_same_value k v d : Dict.get k d = Some v -> Dict.set k v d = d.
Proof.
  induction d as [|[k' v'] d IH]; simpl; [discriminate|].
  destruct (String.eqb_spec k k') as [->|Hk].
  - congruence.
  - intro H. now rewrite IH.
Qed.

Lemma set_set k v v' d : Dict.set k v (Dict.set k v' d) = Dict.set k v d.
Proof.
  induction d as [|[k' v0] d IH]; simpl.
  - now rewrite String.eqb_refl.
  - destruct (String.eqb k k') eqn:E; simpl.
    + now rewrite String.eqb_refl.
    + rewrite E. congruence.
Qed.

Lemma has_get k d : Dict.has k d = true <-> exists v, Dict.get k d = Some v.
Proof.
  unfold Dict.has. destruct (Dict.get k d); split; eauto; try discriminate.
  intros [v H]. discriminate.
Qed.

Lemma get_In k v d : Dict.get k d = Some v -> In (k, v) d.
Proof.
  induction d as [|[k' v'] d IH]; simpl; [discriminate|].
  destruct (String.eqb_spec k k') as [->|Hk]; [left; congruence|auto].
Qed.

Lemma get_None k d : Dict.get k d = None <-> ~ In k (Dict.keys d).
Proof.
  induction d as [|[k' v'] d IH]; simpl; [tauto|].
  destruct (String.eqb_spec k k') as [->|Hk].
  - split; [discriminate|]. intro H. exfalso. auto.
  - rewrite IH. split; [intros H [E|Hin]; congruence|tauto].
Qed.

Lemma In_get k v d : NoDup (Dict.keys d) -> In (k, v) d -> Dict.get k d = Some v.
Proof.
  induction d as [|[k' v'] d IH]; simpl; [tauto|].
  intros Hnd [E|Hin]; inversion Hnd; subst.
  - inversion E; subst. now rewrite String.eqb_refl.
  - destruct (String.eqb_spec k k') as [->|Hk]; auto.
    exfalso. apply H1. change k' with (fst (k', v)). now apply in_map.
Qed.

Lemma keys_set k v d x :
  In x (Dict.keys (Dict.set k v d)) <-> x = k \/ In x (Dict.keys d).
Proof.
  induction d as [|[k' v'] d IH]; simpl.
  - intuition.
  - destruct (String.eqb_spec k k') as [->|Hk]; simpl.
    + intuition.
    + rewrite IH. intuition.
Qed.

Lemma keys_set_NoDup k v d :
  NoDup (Dict.keys d) -> NoDup (Dict.keys (Dict.set k v d)).
Proof.
  induction d as [|[k' v'] d IH]; simpl; intro Hnd.
  - repeat constructor. auto.
  - inversion Hnd; subst.
    destruct (String.eqb_spec k k') as [->|Hk]; simpl.
    + constructor; auto.
    + constructor; auto. rewrite keys_set. intros [E|Hin]; congruence.
Qed.

Lemma In_set k v d k' v' :
  In (k', v') (Dict.set k v d) -> (k' = k /\ v' = v) \/ In (k', v') d.
Proof.
  induction d as [|[k0 v0] d IH]; simpl.
  - intros [E|[]]. inversion E. auto.
  - destruct (String.eqb_spec k k0) as [->|Hk]; simpl.
    + intros [E|Hin]; [inversion E|]; auto.
    + intros [E|Hin]; auto. destruct (IH Hin); auto.
Qed.

Lemma fold_set_keys (es : list (string * V)) d x :
  In x (Dict.keys (fold_left (fun d e => Dict.set (fst e) (snd e) d) es d))
  <-> In x (map fst es) \/ In x (Dict.keys d).
Proof.
  revert d. induction es as [|[k v] es IH]; intro d; simpl.
  - tauto.
  - rewrite IH, keys_set. intuition (subst; auto).
Qed.

Lemma fold_set_NoDup (es : list (string * V)) d :
  NoDup (Dict.keys d) ->
  NoDup (Dict.keys (fold_left (fun d e => Dict.set (fst e) (snd e) d) es d)).
Proof.
  revert d. induction es as [|[k v] es IH]; intros d Hnd; simpl; auto.
  apply IH. now apply keys_set_NoDup.
Qed.

Lemma fold_set_In (es : list (string * V)) d k v :
  In (k, v) (fold_left (fun d e => Dict.set (fst e) (snd e) d) es d) ->
  In (k, v) es \/ In (k, v) d.
Proof.
  revert d. induction es as [|[k0 v0] es IH]; intro d; simpl; auto.
  intro H. destruct (IH _ H) as [Hin|Hin]; auto.
  apply In_set in Hin as [[-> ->]|Hin]; auto.
Qed.

Lemma of_entries_keys (es : list (string * V)) x :
  In x (Dict.keys (Dict.of_entries es)) <-> In x (map fst es).
Proof. unfold Dict.of_entries. rewrite fold_set_keys. simpl. tauto. Qed.

Lemma of_entries_NoDup (es : list (string * V)) :
  NoDup (Dict.keys (Dict.of_entries es)).
Proof. apply fold_set_NoDup. constructor. Qed.

Lemma of_entries_In (es : list (string * V)) k v :
  In (k, v) (Dict.of_entries es) -> In (k, v) es.
Proof.
  intro H. apply fold_set_In in H as [H|[]]. exact H.
Qed.

Lemma of_entries_nil (es : list (string * V)) :
  Dict.size (Dict.of_entries es) = 0 <-> es = [].
Proof.
  split; [|intros ->; reflexivity].
  destruct es as [|[k v] es]; auto. intro H. exfalso.
  assert (Hin : In k (Dict.keys (Dict.of_entries ((k, v) :: es))))
    by (apply of_entries_keys; simpl; auto).
  unfold Dict.size in H. apply length_zero_iff_nil in H.
  rewrite H in Hin. exact Hin.
Qed.

End DictFacts.

(** ** The merged map, the candidates and the new items *)

Section DiffFacts.

Import Scraper Monitor.

Variable rt : Runtime.
Implicit Types (items : list ScrapedItem) (perPage : list (list ScrapedItem))
         (maxPrice : option (number rt)) (prevSet : list string).

Lemma set_has_In (x : string) (l : list string) :
  set_has x l = true <-> In x l.
Proof.
  unfold set_has. rewrite existsb_exists. split.
  - intros (y & Hy & E). apply String.eqb_eq in E. now subst.
  - intro H. exists x. split; auto. apply String.eqb_refl.
Qed.

(** Every entry of [byId items] is an item of [items] under its own id. *)
Lemma byId_In items (k : string) (v : ScrapedItem) :
  In (k, v) (byId items) -> In v items /\ item_id v = k.
Proof.
  intro H. apply of_entries_In in H. apply in_map_iff in H as (x & E & Hx).
  inversion E; subst. auto.
Qed.

Lemma byId_keys items (k : string) :
  In k (Dict.keys (byId items)) <-> In k (map item_id items).
Proof.
  unfold byId. rewrite of_entries_keys, map_map. reflexivity.
Qed.

Lemma byId_values_ids items :
  map item_id (Dict.values (byId items)) = Dict.keys (byId items).
Proof.
  assert (H : forall e, In e (byId items) -> item_id (snd e) = fst e).
  { intros [k v] Hin. now apply byId_In in Hin. }
  revert H. generalize (byId items). intro d.
  induction d as [|[k v] d IH]; intro H; simpl; auto.
  f_equal.
  - apply (H (k, v)). now left.
  - apply IH. intros e He. apply H. now right.
Qed.

Lemma byId_values_In items (v : ScrapedItem) :
  In v (Dict.values (byId items)) -> In v items.
Proof.
  intro H. apply in_map_iff in H as ([k v'] & E & Hin). simpl in E. subst.
  now apply byId_In in Hin.
Qed.

(** Filtering items keeps their ids distinct. *)
Lemma filter_ids_NoDup (keep : ScrapedItem -> bool) items :
  NoDup (map item_id items) -> NoDup (map item_id (filter keep items)).
Proof.
  induction items as [|x items IH]; cbn [filter map]; auto.
  intro Hnd. inversion Hnd as [|? ? Hx Hrest]; subst.
  destruct (keep x); cbn [map]; auto.
  constructor; auto. intro Hin. apply Hx.
  apply in_map_iff in Hin as (y & E & Hy). apply filter_In in Hy as [Hy _].
  rewrite <- E. now apply in_map.
Qed.

(** The candidates have pairwise distinct ids. *)
Lemma candidates_ids_NoDup maxPrice perPage :
  NoDup (map item_id (candidates rt maxPrice perPage)).
Proof.
  unfold candidates. apply filter_ids_NoDup.
  unfold itemById. rewrite byId_values_ids. apply of_entries_NoDup.
Qed.

Lemma candidates_merged maxPrice perPage (item : ScrapedItem) :
  In item (candidates rt maxPrice perPage) ->
  In (item_id item) (Dict.keys (itemById perPage)).
Proof.
  unfold candidates, itemById. intro H. apply filter_In in H as [H _].
  rewrite <- byId_values_ids. now apply in_map.
Qed.

(** Looking a candidate's id up in [candidateById] gives that candidate. *)
Lemma candidateById_get maxPrice perPage (id : string) (item : ScrapedItem) :
  Dict.get id (candidateById rt maxPrice perPage) = Some item <->
  In item (candidates rt maxPrice perPage) /\ item_id item = id.
Proof.
  unfold candidateById. split.
  - intro H. apply get_In in H. now apply byId_In in H.
  - intros [Hin <-].
    destruct (Dict.get (item_id item) (byId (candidates rt maxPrice perPage)))
      as [item'|] eqn:E.
    + apply get_In, byId_In in E as [Hin' Eid].
      f_equal.
      pose proof (candidates_ids_NoDup maxPrice perPage) as Hnd.
      revert Hnd Hin Hin' Eid.
      generalize (candidates rt maxPrice perPage). intro l.
      induction l as [|x l IH]; simpl; [tauto|].
      intros Hnd [->|Hin] [->|Hin'] Eid; inversion Hnd; subst; auto.
      * exfalso. apply H1. rewrite <- Eid. now apply in_map.
      * exfalso. apply H1. rewrite Eid. now apply in_map.
    + exfalso. apply get_None in E. apply E. apply byId_keys.
      now apply in_map.
Qed.

Lemma candidateIds_In maxPrice perPage (id : string) :
  In id (candidateIds rt maxPrice perPage) <->
  exists item, In item (candidates rt maxPrice perPage) /\ item_id item = id.
Proof.
  unfold candidateIds, candidateById.
  rewrite sort_In, byId_keys, in_map_iff. firstorder.
Qed.

Lemma candidateIds_allIds maxPrice perPage (id : string) :
  In id (candidateIds rt maxPrice perPage) -> In id (allIds perPage).
Proof.
  rewrite candidateIds_In. intros (item & Hin & <-).
  unfold allIds. rewrite sort_In. eapply candidates_merged; eauto.
Qed.

Lemma candidateIds_ascending maxPrice perPage :
  ascending (candidateIds rt maxPrice perPage).
Proof. apply sort_ascending, of_entries_NoDup. Qed.

Lemma allIds_ascending perPage : ascending (allIds perPage).
Proof. apply sort_ascending, of_entries_NoDup. Qed.

(** [lookupAll] on keys of the dictionary is a [map]: one item per id, each
    under its id. *)
Lemma lookupAll_keys maxPrice perPage (ids : list string) :
  (forall id, In id ids -> In id (candidateIds rt maxPrice perPage)) ->
  map item_id (lookupAll (candidateById rt maxPrice perPage) ids) = ids.
Proof.
  induction ids as [|id ids IH]; intro H; simpl; auto.
  destruct (proj1 (candidateIds_In maxPrice perPage id)) as (item & Hin & E);
    [apply H; now left|].
  rewrite (proj2 (candidateById_get maxPrice perPage id item)) by auto.
  simpl. rewrite E, IH; auto. intros; apply H; now right.
Qed.

Lemma lookupAll_In (d : Dict.t ScrapedItem) (ids : list string)
      (item : ScrapedItem) :
  In item (lookupAll d ids) <-> exists id, In id ids /\ Dict.get id d = Some item.
Proof.
  unfold lookupAll. rewrite in_flat_map. split.
  - intros (id & Hid & H). exists id. split; auto.
    destruct (Dict.get id d); simpl in H; [|tauto]. destruct H; [|tauto].
    now subst.
  - intros (id & Hid & H). exists id. split; auto. rewrite H. now left.
Qed.

(** The ids of the new items: the candidate ids absent from the previous
    set, in their sorted order. *)
Lemma newItems_ids maxPrice perPage prevSet :
  map item_id (newItems rt maxPrice perPage prevSet)
  = filter (fun id => negb (set_has id prevSet))
           (candidateIds rt maxPrice perPage).
Proof.
  unfold newItems. apply lookupAll_keys.
  intros id H. now apply filter_In in H.
Qed.

(** The new items are exactly the candidates whose id the previous set
    does not hold. *)
Lemma newItems_In maxPrice perPage prevSet (item : ScrapedItem) :
  In item (newItems rt maxPrice perPage prevSet) <->
  In item (candidates rt maxPrice perPage) /\ ~ In (item_id item) prevSet.
Proof.
  unfold newItems. rewrite lookupAll_In. split.
  - intros (id & Hid & Hget). apply filter_In in Hid as [Hid Hnew].
    apply candidateById_get in Hget as [Hin <-]. split; auto.
    rewrite <- set_has_In. destruct (set_has (item_id item) prevSet);
      [discriminate|congruence].
  - intros [Hin Hnew]. exists (item_id item). split.
    + apply filter_In. split.
      * apply candidateIds_In. eauto.
      * rewrite <- set_has_In in Hnew.
        destruct (set_has (item_id item) prevSet); [congruence|reflexivity].
    + now apply candidateById_get.
Qed.

Lemma newItems_ascending maxPrice perPage prevSet :
  ascending (map item_id (newItems rt maxPrice perPage prevSet)).
Proof.
  rewrite newItems_ids. apply ascending_filter, candidateIds_ascending.
Qed.

(** Nothing is new against the full id list of the same pages, whatever
    the price limit. *)
Lemma newItems_none maxPrice perPage :
  newItems rt maxPrice perPage (allIds perPage) = [].
Proof.
  destruct (newItems rt maxPrice perPage (allIds perPage)) as [|item l] eqn:E;
    auto.
  assert (H : In item (newItems rt maxPrice perPage (allIds perPage)))
    by (rewrite E; now left).
  apply newItems_In in H as [Hc Hn]. exfalso. apply Hn.
  apply (candidateIds_allIds maxPrice). apply candidateIds_In. eauto.
Qed.

Lemma itemById_empty perPage :
  Nat.eqb (Dict.size (itemById perPage)) 0 = true <-> List.concat perPage = [].
Proof.
  rewrite Nat.eqb_eq. unfold itemById, byId. rewrite of_entries_nil.
  split; [apply map_eq_nil|intros ->; reflexivity].
Qed.

End DiffFacts.

(** ** One run of a monitor, case by case *)

Section RunFacts.

Import Scraper Monitor.

Variable rt : Runtime.
Implicit Types (w : World) (r : Run) (perPage : list (list ScrapedItem)).

Ltac run_eff :=
  unfold bind, ret, lift, die, Ref_get, Ref_update, sendMessage, catchAll,
    failed; cbn [state outbox fst snd].

(** A run of [checkListMonitor] is the scrape followed by the diff, a
    failure of either becoming an [error] result. *)
Lemma checkListMonitor_scrape w (monitor : ListMonitor rt) r :
  checkListMonitor w monitor r
  = match scrapeList w monitor with
    | Success perPage =>
        catchAll (diffList w monitor perPage) (failed (lm_name monitor)) r
    | Failure e => (Success (failure (lm_name monitor) e), r)
    | Die => (Die, r)
    end.
Proof.
  unfold checkListMonitor, scrapeList. run_eff.
  destruct (all (map (fetchPage w) (lm_urls monitor))) as [pages|e|]; auto.
  destruct (all _) as [perPage|e|]; auto.
Qed.

Lemma checkFieldsMonitor_scrape w (monitor : FieldsMonitor) r :
  checkFieldsMonitor rt w monitor r
  = match scrapeFields w monitor with
    | Success current =>
        catchAll (diffFields rt w monitor current) (failed (fm_name monitor)) r
    | Failure e => (Success (failure (fm_name monitor) e), r)
    | Die => (Die, r)
    end.
Proof.
  unfold checkFieldsMonitor, scrapeFields. run_eff.
  destruct (fetchPage w (fm_url monitor)) as [html|e|]; auto.
  destruct (extractFields w html (fm_selectors monitor)) as [current|e|]; auto.
Qed.

(** The price limit plays no part in the scrape. *)
Lemma scrapeList_setMaxPrice w (monitor : ListMonitor rt) maxPrice :
  scrapeList w (setMaxPrice maxPrice monitor) = scrapeList w monitor.
Proof. reflexivity. Qed.

Lemma diffList_empty w (monitor : ListMonitor rt) perPage r :
  List.concat perPage = [] ->
  catchAll (diffList w monitor perPage) (failed (lm_name monitor)) r
  = (Success (result (lm_name monitor) unchanged), r).
Proof.
  intro H. apply itemById_empty in H. unfold diffList. rewrite H. reflexivity.
Qed.

Lemma diffList_first w (monitor : ListMonitor rt) perPage r :
  List.concat perPage <> [] ->
  Dict.get (monitorKey rt (lm_name monitor)) (state r) = None ->
  catchAll (diffList w monitor perPage) (failed (lm_name monitor)) r
  = (Success
       (if telegram_accepts w
             (nowMonitoringList monitor (List.length (allIds perPage)))
        then {| res_name := lm_name monitor; res_status := initialized;
                res_count := Some (List.length (allIds perPage));
                res_newItems := None; res_error := None |}
        else failure (lm_name monitor) NotifyError),
     {| state := Dict.set (monitorKey rt (lm_name monitor))
                   (JSON.stringify_ids (allIds perPage)) (state r);
        outbox := outbox r
                  ++ [nowMonitoringList monitor (List.length (allIds perPage))] |}).
Proof.
  intros Hne Hget. unfold diffList.
  destruct (Nat.eqb (Dict.size (itemById perPage)) 0) eqn:E;
    [apply itemById_empty in E; contradiction|].
  run_eff. rewrite Hget. cbn [state outbox].
  destruct (telegram_accepts w _); reflexivity.
Qed.

Lemma diffList_unreadable w (monitor : ListMonitor rt) perPage r prevRaw :
  List.concat perPage <> [] ->
  Dict.get (monitorKey rt (lm_name monitor)) (state r) = Some prevRaw ->
  JSON_parse_ids rt prevRaw = None ->
  catchAll (diffList w monitor perPage) (failed (lm_name monitor)) r = (Die, r).
Proof.
  intros Hne Hget Hparse. unfold diffList.
  destruct (Nat.eqb (Dict.size (itemById perPage)) 0) eqn:E;
    [apply itemById_empty in E; contradiction|].
  run_eff. rewrite Hget, Hparse. reflexivity.
Qed.

Lemma diffList_next w (monitor : ListMonitor rt) perPage r prevRaw prevSet :
  List.concat perPage <> [] ->
  Dict.get (monitorKey rt (lm_name monitor)) (state r) = Some prevRaw ->
  JSON_parse_ids rt prevRaw = Some prevSet ->
  catchAll (diffList w monitor perPage) (failed (lm_name monitor)) r
  = let new := newItems rt (lm_maxPrice monitor) perPage prevSet in
    let st := Dict.set (monitorKey rt (lm_name monitor))
                (JSON.stringify_ids (allIds perPage)) (state r) in
    let text := formatNewItems (lm_name monitor) new (lm_sections monitor) in
    match new with
    | [] => (Success (result (lm_name monitor) unchanged),
             {| state := st; outbox := outbox r |})
    | _ => (Success
              (if telegram_accepts w text
               then {| res_name := lm_name monitor; res_status := new_items;
                       res_count := None; res_newItems := Some new;
                       res_error := None |}
               else failure (lm_name monitor) NotifyError),
            {| state := st; outbox := outbox r ++ [text] |})
    end.
Proof.
  intros Hne Hget Hparse. unfold diffList.
  destruct (Nat.eqb (Dict.size (itemById perPage)) 0) eqn:E;
    [apply itemById_empty in E; contradiction|].
  run_eff. rewrite Hget, Hparse. cbn zeta.
  destruct (newItems rt (lm_maxPrice monitor) perPage prevSet) as [|item l];
    [reflexivity|].
  cbn [state outbox]. destruct (telegram_accepts w _); reflexivity.
Qed.

Lemma diffFields_first w (monitor : FieldsMonitor) current r :
  Dict.get (monitorKey rt (fm_name monitor)) (state r) = None ->
  catchAll (diffFields rt w monitor current) (failed (fm_name monitor)) r
  = (Success
       (if telegram_accepts w (nowMonitoringFields monitor current)
        then result (fm_name monitor) initialized
        else failure (fm_name monitor) NotifyError),
     {| state := Dict.set (monitorKey rt (fm_name monitor))
                   (hashData rt current) (state r);
        outbox := outbox r ++ [nowMonitoringFields monitor current] |}).
Proof.
  intro Hget. unfold diffFields. run_eff. rewrite Hget. cbn [state outbox].
  destruct (telegram_accepts w _); reflexivity.
Qed.

Lemma diffFields_same w (monitor : FieldsMonitor) current r :
  Dict.get (monitorKey rt (fm_name monitor)) (state r)
  = Some (hashData rt current) ->
  catchAll (diffFields rt w monitor current) (failed (fm_name monitor)) r
  = (Success (result (fm_name monitor) unchanged), r).
Proof.
  intro Hget. unfold diffFields. run_eff. rewrite Hget, String.eqb_refl.
  reflexivity.
Qed.

Lemma diffFields_changed w (monitor : FieldsMonitor) current r prevHash :
  Dict.get (monitorKey rt (fm_name monitor)) (state r) = Some prevHash ->
  prevHash <> hashData rt current ->
  catchAll (diffFields rt w monitor current) (failed (fm_name monitor)) r
  = (Success
       (if telegram_accepts w (changeDetected monitor current)
        then result (fm_name monitor) new_items
        else failure (fm_name monitor) NotifyError),
     {| state := Dict.set (monitorKey rt (fm_name monitor))
                   (hashData rt current) (state r);
        outbox := outbox r ++ [changeDetected monitor current] |}).
Proof.
  intros Hget Hne. unfold diffFields. run_eff. rewrite Hget.
  destruct (String.eqb_spec prevHash (hashData rt current)); [contradiction|].
  cbn [negb state outbox]. destruct (telegram_accepts w _); reflexivity.
Qed.

End RunFacts.

(** ** The messages *)

Section MessageFacts.

Import Scraper Monitor.

Lemma join_head (sep : string) (c : ascii) (h : string) (t : list string) :
  exists rest, Str.join sep (String c h :: t) = String c rest.
Proof. destruct t; simpl; eauto. Qed.

Lemma fold_left_keeps_head (A B : Type) (f g : B -> list A) (l : list B)
      (h : A) (t : list A) :
  exists t', fold_left (fun acc x => (acc ++ f x) ++ g x) l (h :: t) = h :: t'.
Proof.
  revert t. induction l as [|x l IH]; intro t; simpl; eauto.
Qed.

(** Every new-items message opens with the bolt. *)
Lemma formatNewItems_head (name : string) (items : list ScrapedItem)
      (sections : option (list string)) :
  exists rest, formatNewItems name items sections = String "226"%char rest.
Proof.
  assert (Hh : exists h, header name (List.length items) = String "226"%char h)
    by (eexists; reflexivity).
  destruct Hh as [h Hh].
  unfold formatNewItems. destruct sections as [[|s sections]|].
  - cbn [app]. rewrite Hh. apply join_head.
  - cbv zeta.
    match goal with
    | |- exists rest, Str.join _ (fold_left ?step ?l _) = _ =>
        destruct (fold_left_keeps_head
                    (fun section : string =>
                       [EmptyString; ("<b>" ++ esc section ++ "</b>")%string])
                    (fun section : string =>
                       map formatItemLine
                         (group (fold_left (addToGroup (s :: sections)) items
                                           Dict.empty) section))
                    l (header name (List.length items)) []) as [t' Ht]
    end.
    rewrite Ht, Hh. apply join_head.
  - cbn [app]. rewrite Hh. apply join_head.
Qed.

(** The "Now monitoring" messages open with the eyes: they are no
    new-items message. *)
Lemma nowMonitoringList_not_new (rt : Runtime) (monitor : ListMonitor rt) (total : nat)
      (name : string) (items : list ScrapedItem)
      (sections : option (list string)) :
  nowMonitoringList monitor total <> formatNewItems name items sections.
Proof.
  destruct (formatNewItems_head name items sections) as [rest ->].
  unfold nowMonitoringList. cbn. discriminate.
Qed.

Lemma nowMonitoringFields_not_new (monitor : FieldsMonitor)
      (current : Dict.t (option string))
      (name : string) (items : list ScrapedItem)
      (sections : option (list string)) :
  nowMonitoringFields monitor current <> formatNewItems name items sections.
Proof.
  destruct (formatNewItems_head name items sections) as [rest ->].
  unfold nowMonitoringFields. cbn. discriminate.
Qed.

End MessageFacts.

(** ** The diff engine *)

Section DiffEngine.

Import Scraper Monitor.

Lemma size_concat (perPage : list (list ScrapedItem)) :
  Dict.size (itemById perPage) <> 0 -> List.concat perPage <> [].
Proof.
  intros H E. apply H. apply Nat.eqb_eq. now apply itemById_empty.
Qed.

(** C5. When the merged item map of a list-monitor run is empty, the run
    reports [unchanged] and leaves the whole run state as it was: the state
    map is untouched and nothing is handed to [sendMessage], whether or not
    the monitor has a prior state entry. *)
Theorem empty_merge_is_unchanged (rt : Runtime) (w : World)
        (monitor : ListMonitor rt) (r : Run)
        (perPage : list (list ScrapedItem)) :
  scrapeList w monitor = Success perPage ->
  Dict.size (itemById perPage) = 0 ->
  checkListMonitor w monitor r
  = (Success (result (lm_name monitor) unchanged), r).
Proof.
  intros Hs He. rewrite checkListMonitor_scrape, Hs.
  apply diffList_empty. apply itemById_empty. now apply Nat.eqb_eq.
Qed.

(** An empty page for a monitor whose state holds [["a","b"]]. *)
Lemma empty_merge_is_unchanged_witness :
  Dict.get Sample.shopKey (state Sample.seenAB)
  = Some (JSON.stringify_ids ["a"; "b"])
  /\ checkListMonitor (Sample.world Sample.pageEmpty true) (Sample.shop None)
       Sample.seenAB
     = (Success (result "Shop" unchanged), Sample.seenAB).
Proof.
  split; [reflexivity|].
  apply (@empty_merge_is_unchanged Node.runtime
           (Sample.world Sample.pageEmpty true) (Sample.shop None)
           Sample.seenAB [[]]); reflexivity.
Defined.

(** C4, where the claim fails: a first run (no entry for the monitor's key)
    whose pages yield no item reports [unchanged], not [initialized], and
    persists nothing. *)
Lemma first_run_without_items_is_not_initialized :
  Dict.get Sample.shopKey (state Sample.fresh) = None
  /\ checkListMonitor (Sample.world Sample.pageEmpty true) (Sample.shop None)
       Sample.fresh
     = (Success (result "Shop" unchanged), Sample.fresh).
Proof. split; reflexivity. Qed.

(** C4 (as the code has it). On a first run (no entry for the monitor's
    key) whose extraction succeeded, with at least one item for a list
    monitor: the state entry becomes the full sorted id list (list monitor)
    or the hash of the field snapshot (fields monitor); exactly one message
    is handed over, the "Now monitoring" one, which is no new-items
    message; the status is [initialized], with the total count for a list
    monitor, when Telegram accepts that message, and [error] when it does
    not. *)
Theorem first_run_baseline (rt : Runtime) (w : World) (r : Run) :
  (forall (monitor : ListMonitor rt) (perPage : list (list ScrapedItem)),
      scrapeList w monitor = Success perPage ->
      Dict.size (itemById perPage) <> 0 ->
      Dict.get (monitorKey rt (lm_name monitor)) (state r) = None ->
      let total := List.length (Dict.keys (itemById perPage)) in
      let text := nowMonitoringList monitor total in
      let out := checkListMonitor w monitor r in
      state (snd out)
      = Dict.set (monitorKey rt (lm_name monitor))
          (JSON.stringify_ids (sort (Dict.keys (itemById perPage)))) (state r)
      /\ outbox (snd out) = outbox r ++ [text]
      /\ (forall name items sections,
             text <> formatNewItems name items sections)
      /\ (telegram_accepts w text = true ->
          fst out = Success {| res_name := lm_name monitor;
                               res_status := initialized;
                               res_count := Some total;
                               res_newItems := None; res_error := None |})
      /\ (telegram_accepts w text = false ->
          fst out = Success (failure (lm_name monitor) NotifyError)))
  /\ (forall (monitor : FieldsMonitor) (current : Dict.t (option string)),
         scrapeFields w monitor = Success current ->
         Dict.get (monitorKey rt (fm_name monitor)) (state r) = None ->
         let text := nowMonitoringFields monitor current in
         let out := checkFieldsMonitor rt w monitor r in
         state (snd out)
         = Dict.set (monitorKey rt (fm_name monitor))
             (sha256_hex rt (JSON.stringify_record current)) (state r)
         /\ outbox (snd out) = outbox r ++ [text]
         /\ (forall name items sections,
                text <> formatNewItems name items sections)
         /\ (telegram_accepts w text = true ->
             fst out = Success (result (fm_name monitor) initialized))
         /\ (telegram_accepts w text = false ->
             fst out = Success (failure (fm_name monitor) NotifyError))).
Proof.
  split.
  - intros monitor perPage Hs Hne Hget total text out.
    assert (Etotal : total = List.length (allIds perPage))
      by (unfold total, allIds; now rewrite sort_length).
    subst out. rewrite checkListMonitor_scrape, Hs.
    rewrite diffList_first by auto using size_concat.
    fold (allIds perPage). rewrite <- Etotal. fold text. cbn [fst snd state outbox].
    repeat split; auto.
    + intros. apply nowMonitoringList_not_new.
    + intros ->. reflexivity.
    + intros ->. reflexivity.
  - intros monitor current Hs Hget text out.
    subst out. rewrite checkFieldsMonitor_scrape, Hs.
    rewrite diffFields_first by auto. fold text. cbn [fst snd state outbox].
    repeat split; auto.
    + intros. apply nowMonitoringFields_not_new.
    + intros ->. reflexivity.
    + intros ->. reflexivity.
Qed.

End DiffEngine.

Section DiffEngineNext.

Import Scraper Monitor.

(** First runs of the sample list monitor and of the sample fields
    monitor. *)
Lemma first_run_baseline_witness :
  (let out := checkListMonitor (Sample.world Sample.pageABC true)
                (Sample.shop None) Sample.fresh in
   state (snd out) = [(Sample.shopKey, JSON.stringify_ids ["a"; "b"; "c"])]
   /\ fst out = Success {| res_name := "Shop"; res_status := initialized;
                           res_count := Some 3; res_newItems := None;
                           res_error := None |})
  /\ (let out := checkFieldsMonitor Node.runtime
                   (Sample.world Sample.pageABC true) Sample.price
                   Sample.fresh in
      state (snd out)
      = [(monitorKey Node.runtime "Omnibus price",
          hashData Node.runtime Sample.snapshotA)]
      /\ fst out = Success (result "Omnibus price" initialized)).
Proof.
  destruct (first_run_baseline Node.runtime
              (Sample.world Sample.pageABC true) Sample.fresh) as [HL HF].
  split.
  - destruct (HL (Sample.shop None) Sample.extractedABC eq_refl
                 ltac:(discriminate) eq_refl) as (H1 & _ & _ & H4 & _).
    split; [exact H1|exact (H4 eq_refl)].
  - destruct (HF Sample.price Sample.snapshotA eq_refl eq_refl)
      as (H1 & _ & _ & H4 & _).
    split; [exact H1|exact (H4 eq_refl)].
Defined.

(** C1, where the claim fails: in the run of the example (prior state
    [["a","b"]], merged ids a, b, c, no filter) the result has status
    [new_items] and the new item c, but no count. *)
Lemma new_items_result_has_no_count :
  exists res r',
    checkListMonitor (Sample.world Sample.pageABC true) (Sample.shop None)
      Sample.seenAB = (Success res, r')
    /\ res_status res = new_items
    /\ option_map (map item_id) (res_newItems res) = Some ["c"]
    /\ res_count res = None.
Proof. do 2 eexists. repeat split. Qed.

(** C1 (as the code has it). For a list monitor with a prior state entry
    that parses to the id set [prevSet], on pages that yield at least one
    item: the new items are exactly the candidates whose id [prevSet] does
    not hold, in ascending id order; the state entry becomes the full
    sorted id list whether or not there are new items; with no new item the
    status is [unchanged] and nothing is sent; otherwise the new-items
    message is handed over and, when Telegram accepts it, the status is
    [new_items] with the list of new items and no count ([error] when it
    does not). *)
Theorem next_run_reports_new_candidates (rt : Runtime) (w : World)
        (monitor : ListMonitor rt) (r : Run)
        (perPage : list (list ScrapedItem))
        (prevRaw : string) (prevSet : list string) :
  scrapeList w monitor = Success perPage ->
  Dict.size (itemById perPage) <> 0 ->
  Dict.get (monitorKey rt (lm_name monitor)) (state r) = Some prevRaw ->
  JSON_parse_ids rt prevRaw = Some prevSet ->
  let cands := filter (withinBudget rt (lm_maxPrice monitor))
                      (Dict.values (itemById perPage)) in
  let new := newItems rt (lm_maxPrice monitor) perPage prevSet in
  let text := formatNewItems (lm_name monitor) new (lm_sections monitor) in
  let out := checkListMonitor w monitor r in
  (forall item, In item new <-> In item cands /\ ~ In (item_id item) prevSet)
  /\ ascending (map item_id new)
  /\ state (snd out)
     = Dict.set (monitorKey rt (lm_name monitor))
         (JSON.stringify_ids (sort (Dict.keys (itemById perPage)))) (state r)
  /\ (new = [] ->
      fst out = Success (result (lm_name monitor) unchanged)
      /\ outbox (snd out) = outbox r)
  /\ (new <> [] ->
      outbox (snd out) = outbox r ++ [text]
      /\ (telegram_accepts w text = true ->
          fst out = Success {| res_name := lm_name monitor;
                               res_status := new_items;
                               res_count := None;
                               res_newItems := Some new;
                               res_error := None |})
      /\ (telegram_accepts w text = false ->
          fst out = Success (failure (lm_name monitor) NotifyError))).
Proof.
  intros Hs Hne Hget Hparse cands new text out.
  split; [intro item; apply newItems_In|].
  split; [apply newItems_ascending|].
  subst out. rewrite checkListMonitor_scrape, Hs.
  rewrite (@diffList_next rt w monitor perPage r prevRaw prevSet
             (size_concat perPage Hne) Hget Hparse).
  cbv zeta. fold new. fold text. fold (allIds perPage).
  destruct new as [|item l] eqn:E; cbn [fst snd state outbox].
  - split; [reflexivity|]. split; [auto|]. intro H. congruence.
  - split; [reflexivity|]. split; [discriminate|]. intros _.
    split; [reflexivity|]. split; intros ->; reflexivity.
Qed.

(** The example of the specification: prior state [["a","b"]], merged ids
    a, b and c, no filter. *)
Lemma next_run_reports_new_candidates_witness :
  let out := checkListMonitor (Sample.world Sample.pageABC true)
               (Sample.shop None) Sample.seenAB in
  map item_id (newItems Node.runtime None Sample.extractedABC ["a"; "b"])
  = ["c"]
  /\ state (snd out)
     = [(Sample.shopKey, JSON.stringify_ids ["a"; "b"; "c"])]
  /\ fst out
     = Success {| res_name := "Shop"; res_status := new_items;
                  res_count := None;
                  res_newItems :=
                    Some (newItems Node.runtime None Sample.extractedABC
                            ["a"; "b"]);
                  res_error := None |}.
Proof.
  destruct (@next_run_reports_new_candidates Node.runtime
              (Sample.world Sample.pageABC true) (Sample.shop None)
              Sample.seenAB Sample.extractedABC
              (JSON.stringify_ids ["a"; "b"]) ["a"; "b"]
              eq_refl ltac:(discriminate) eq_refl eq_refl)
    as (_ & _ & H3 & _ & H5).
  split; [reflexivity|]. split; [exact H3|].
  destruct (H5 ltac:(discriminate)) as (_ & H6 & _). exact (H6 eq_refl).
Defined.

End DiffEngineNext.

Section DiffEngineTwice.

Import Scraper Monitor.

Variable rt : Runtime.
Implicit Types (w : World) (r : Run) (perPage : list (list ScrapedItem))
         (monitor : ListMonitor rt).

(** The state map after the diff, whatever else happens. *)
Lemma diffList_state w monitor perPage r :
  state (snd (catchAll (diffList w monitor perPage)
                       (failed (lm_name monitor)) r))
  = if Nat.eqb (Dict.size (itemById perPage)) 0 then state r
    else
      let key := monitorKey rt (lm_name monitor) in
      let st := Dict.set key (JSON.stringify_ids (allIds perPage)) (state r) in
      match Dict.get key (state r) with
      | None => st
      | Some prevRaw =>
          match JSON_parse_ids rt prevRaw with
          | None => state r
          | Some _ => st
          end
      end.
Proof.
  destruct (Nat.eqb (Dict.size (itemById perPage)) 0) eqn:E.
  - apply itemById_empty in E. now rewrite diffList_empty.
  - assert (Hne : List.concat perPage <> []).
    { intro H. apply itemById_empty in H. congruence. }
    cbv zeta.
    destruct (Dict.get (monitorKey rt (lm_name monitor)) (state r))
      as [prevRaw|] eqn:Hget.
    + destruct (JSON_parse_ids rt prevRaw) as [prevSet|] eqn:Hparse.
      * rewrite (@diffList_next rt w monitor perPage r prevRaw prevSet)
          by assumption.
        cbv zeta.
        destruct (newItems rt (lm_maxPrice monitor) perPage prevSet);
          reflexivity.
      * now rewrite (@diffList_unreadable rt w monitor perPage r prevRaw).
    + now rewrite diffList_first.
Qed.

(** Against its own full id list, persisted, a non-empty extraction shows
    nothing new, under any price limit: the run is [unchanged] and the run
    state stays as it is. *)
Lemma diffList_again w monitor perPage r :
  JSON_roundtrip rt ->
  List.concat perPage <> [] ->
  Dict.get (monitorKey rt (lm_name monitor)) (state r)
  = Some (JSON.stringify_ids (allIds perPage)) ->
  catchAll (diffList w monitor perPage) (failed (lm_name monitor)) r
  = (Success (result (lm_name monitor) unchanged), r).
Proof.
  intros Hrt Hne Hget.
  rewrite (@diffList_next rt w monitor perPage r _ (allIds perPage)
             Hne Hget (Hrt _)).
  cbv zeta. rewrite newItems_none, set_same_value by assumption.
  now destruct r.
Qed.

(** After the diff of a non-empty extraction, either the entry could not
    be read and the run died with the run state as it was, or the entry is
    the full id list. *)
Lemma diffList_persists w monitor perPage r :
  List.concat perPage <> [] ->
  let out := catchAll (diffList w monitor perPage)
                      (failed (lm_name monitor)) r in
  (exists prevRaw,
      Dict.get (monitorKey rt (lm_name monitor)) (state r) = Some prevRaw
      /\ JSON_parse_ids rt prevRaw = None /\ out = (Die, r))
  \/ Dict.get (monitorKey rt (lm_name monitor)) (state (snd out))
     = Some (JSON.stringify_ids (allIds perPage)).
Proof.
  intros Hne out. subst out.
  destruct (Dict.get (monitorKey rt (lm_name monitor)) (state r))
    as [prevRaw|] eqn:Hget.
  - destruct (JSON_parse_ids rt prevRaw) as [prevSet|] eqn:Hparse.
    + right. rewrite diffList_state.
      destruct (Nat.eqb (Dict.size (itemById perPage)) 0) eqn:E;
        [apply itemById_empty in E; contradiction|].
      cbv zeta. rewrite Hget, Hparse. apply get_set_same.
    + left. exists prevRaw. repeat split; auto.
      now apply diffList_unreadable with (prevRaw := prevRaw).
  - right. rewrite diffList_state.
    destruct (Nat.eqb (Dict.size (itemById perPage)) 0) eqn:E;
      [apply itemById_empty in E; contradiction|].
    cbv zeta. rewrite Hget. apply get_set_same.
Qed.

End DiffEngineTwice.

Section DiffEngineClaims.

Import Scraper Monitor.

(** C2, where the claim fails: with a state entry that is not JSON, two
    runs in a row over the same pages both die on [JSON.parse] (a throw
    inside the generator, which [catchAll] does not recover): the second
    run does not yield [unchanged]. *)
Lemma unreadable_entry_is_never_unchanged :
  let w := Sample.world Sample.pageABC true in
  let first := checkListMonitor w (Sample.shop None) Sample.garbled in
  let second := checkListMonitor w (Sample.shop None) (snd first) in
  scrapeList w (Sample.shop None) = Success Sample.extractedABC
  /\ fst first = Die
  /\ fst second = Die
  /\ fst second <> Success (result "Shop" unchanged).
Proof. repeat split. discriminate. Qed.

(** C2 (as the code has it). Two runs in a row of the same monitor over the
    same extraction results: the second reports [unchanged], hands nothing
    to [sendMessage] and leaves the state map, hence the text of the state
    file, as the first run left it. For a fields monitor this holds from
    any state; for a list monitor it holds when the entry the first run
    finds, if any, can be read as an id array. *)
Theorem second_run_is_unchanged (rt : Runtime) (w1 w2 : World) (r : Run) :
  (JSON_roundtrip rt ->
   forall (monitor : ListMonitor rt) (perPage : list (list ScrapedItem)),
     scrapeList w1 monitor = Success perPage ->
     scrapeList w2 monitor = Success perPage ->
     (forall prevRaw,
         Dict.get (monitorKey rt (lm_name monitor)) (state r) = Some prevRaw ->
         JSON_parse_ids rt prevRaw <> None) ->
     let r1 := snd (checkListMonitor w1 monitor r) in
     let second := checkListMonitor w2 monitor r1 in
     fst second = Success (result (lm_name monitor) unchanged)
     /\ snd second = r1
     /\ saveStateFile (state (snd second)) = saveStateFile (state r1))
  /\ (forall (monitor : FieldsMonitor) (current : Dict.t (option string)),
         scrapeFields w1 monitor = Success current ->
         scrapeFields w2 monitor = Success current ->
         let r1 := snd (checkFieldsMonitor rt w1 monitor r) in
         let second := checkFieldsMonitor rt w2 monitor r1 in
         fst second = Success (result (fm_name monitor) unchanged)
         /\ snd second = r1
         /\ saveStateFile (state (snd second)) = saveStateFile (state r1)).
Proof.
  split.
  - intros Hrt monitor perPage Hs1 Hs2 Hread r1 second.
    assert (E : second = (Success (result (lm_name monitor) unchanged), r1)).
    { subst second r1. rewrite !checkListMonitor_scrape, Hs1, Hs2.
      destruct (Nat.eqb (Dict.size (itemById perPage)) 0) eqn:Hsize.
      - apply itemById_empty in Hsize. now rewrite !diffList_empty.
      - assert (Hne : List.concat perPage <> []).
        { intro H. apply itemById_empty in H. congruence. }
        destruct (@diffList_persists rt w1 monitor perPage r Hne)
          as [(prevRaw & Hget & Hparse & _)|Hp].
        + exfalso. exact (Hread _ Hget Hparse).
        + now apply diffList_again. }
    rewrite E. cbn [fst snd]. auto.
  - intros monitor current Hs1 Hs2 r1 second.
    assert (E : second = (Success (result (fm_name monitor) unchanged), r1)).
    { subst second r1. rewrite !checkFieldsMonitor_scrape, Hs1, Hs2.
      apply diffFields_same.
      destruct (Dict.get (monitorKey rt (fm_name monitor)) (state r))
        as [prevHash|] eqn:Hget.
      - destruct (String.eqb_spec prevHash (hashData rt current)) as [->|Hne].
        + now rewrite diffFields_same.
        + rewrite (@diffFields_changed rt w1 monitor current r prevHash)
            by assumption.
          apply get_set_same.
      - rewrite diffFields_first by assumption. apply get_set_same. }
    rewrite E. cbn [fst snd]. auto.
Qed.

End DiffEngineClaims.

(** ** The sample runtime reads back what [JSON.stringify] writes *)

Section NodeFacts.

Lemma read_quoteChar (c : ascii) (acc : string) (done : list string)
      (t : string) :
  Node.read (Node.InStr acc) done (JSON.quoteChar c ++ t)
  = Node.read (Node.InStr (Node.snoc acc c)) done t.
Proof.
  destruct c as [[] [] [] [] [] [] [] []]; reflexivity.
Qed.

Lemma read_quoteChars (s acc : string) (done : list string) (t : string) :
  Node.read (Node.InStr acc) done (JSON.quoteChars s ++ Str.dq ++ t)
  = Node.read Node.AfterStr (done ++ [(acc ++ s)%string]) t.
Proof.
  revert acc. induction s as [|c s IH]; intro acc.
  - simpl. now rewrite append_nil_r.
  - cbn [JSON.quoteChars]. rewrite append_assoc, read_quoteChar, IH.
    unfold Node.snoc. now rewrite append_assoc.
Qed.

Lemma read_quote (s : string) (done : list string) (t : string) :
  Node.read (Node.InStr EmptyString) done
    (JSON.quoteChars s ++ Str.dq ++ t)
  = Node.read Node.AfterStr (done ++ [s]) t.
Proof. apply read_quoteChars. Qed.

Lemma join_quote_cons (x : string) (ids : list string) :
  (Str.join "," (map JSON.quote (x :: ids)) ++ "]")%string
  = (Str.dq ++ JSON.quoteChars x ++ Str.dq ++ afterElement ids)%string.
Proof.
  destruct ids as [|z ids].
  - unfold Str.join, JSON.quote. simpl. now rewrite !append_assoc.
  - cbn [map]. rewrite join_cons2. unfold JSON.quote at 1.
    now rewrite !append_assoc.
Qed.

Lemma read_elements (ids : list string) (x : string) (done : list string) :
  Node.read (Node.InStr EmptyString) done
    (JSON.quoteChars x ++ Str.dq ++ afterElement ids)
  = Some (done ++ x :: ids).
Proof.
  revert x done. induction ids as [|y ids IH]; intros x done.
  - rewrite read_quote. reflexivity.
  - rewrite read_quote. unfold afterElement. rewrite join_quote_cons.
    cbn. rewrite IH, <- app_assoc. reflexivity.
Qed.

Lemma Node_roundtrip : JSON_roundtrip Node.runtime.
Proof.
  intros [|x ids]; [reflexivity|].
  unfold JSON_parse_ids, Node.runtime, Node.parse_ids, JSON.stringify_ids.
  rewrite join_quote_cons. cbn. apply read_elements.
Qed.

End NodeFacts.

Section DiffEngineFilter.

Import Scraper Monitor.

(** Two runs in a row of the sample monitors. *)
Lemma second_run_is_unchanged_witness :
  (let w := Sample.world Sample.pageABC true in
   let r1 := snd (checkListMonitor w (Sample.shop None) Sample.seenAB) in
   let second := checkListMonitor w (Sample.shop None) r1 in
   fst second = Success (result "Shop" unchanged)
   /\ snd second = r1
   /\ saveStateFile (state (snd second)) = saveStateFile (state r1))
  /\ (let w := Sample.world Sample.pageABC true in
      let r1 := snd (checkFieldsMonitor Node.runtime w Sample.price
                       Sample.fresh) in
      let second := checkFieldsMonitor Node.runtime w Sample.price r1 in
      fst second = Success (result "Omnibus price" unchanged)
      /\ snd second = r1
      /\ saveStateFile (state (snd second)) = saveStateFile (state r1)).
Proof.
  split.
  - apply (proj1 (second_run_is_unchanged Node.runtime
                    (Sample.world Sample.pageABC true)
                    (Sample.world Sample.pageABC true) Sample.seenAB)
                 Node_roundtrip (Sample.shop None) Sample.extractedABC
                 eq_refl eq_refl).
    intros prevRaw H. injection H as <-. discriminate.
  - apply (proj2 (second_run_is_unchanged Node.runtime
                    (Sample.world Sample.pageABC true)
                    (Sample.world Sample.pageABC true) Sample.fresh)
                 Sample.price Sample.snapshotA eq_refl eq_refl).
Defined.

(** C3. The state map a list-monitor run leaves does not depend on
    [maxPrice]: it is the state map the run found, or that map with the
    monitor's entry set to the sorted ids of the full merged item map.
    Hence, of two runs in a row over the same scrape outcome that differ
    in [maxPrice] only, the second never reports [new_items]. *)
Theorem persisted_ids_ignore_price_filter (rt : Runtime) :
  (forall (w : World) (monitor : ListMonitor rt) (r : Run)
          (maxPrice : option (number rt)),
      state (snd (checkListMonitor w (setMaxPrice maxPrice monitor) r))
      = state (snd (checkListMonitor w monitor r)))
  /\ (forall (w : World) (monitor : ListMonitor rt) (r : Run),
         let st := state (snd (checkListMonitor w monitor r)) in
         st = state r
         \/ exists perPage,
             scrapeList w monitor = Success perPage
             /\ st = Dict.set (monitorKey rt (lm_name monitor))
                       (JSON.stringify_ids (sort (Dict.keys (itemById perPage))))
                       (state r))
  /\ (JSON_roundtrip rt ->
      forall (w1 w2 : World) (monitor : ListMonitor rt) (r : Run)
             (before after : option (number rt)),
        scrapeList w2 monitor = scrapeList w1 monitor ->
        let r1 := snd (checkListMonitor w1 (setMaxPrice before monitor) r) in
        forall res,
          fst (checkListMonitor w2 (setMaxPrice after monitor) r1)
          = Success res ->
          res_status res <> new_items).
Proof.
  split; [|split].
  - intros w monitor r maxPrice.
    rewrite !checkListMonitor_scrape, scrapeList_setMaxPrice.
    destruct (scrapeList w monitor) as [perPage|e|]; auto.
    rewrite !diffList_state. reflexivity.
  - intros w monitor r st. subst st. rewrite checkListMonitor_scrape.
    destruct (scrapeList w monitor) as [perPage|e|]; auto.
    rewrite diffList_state.
    destruct (Nat.eqb (Dict.size (itemById perPage)) 0); auto. cbv zeta.
    destruct (Dict.get (monitorKey rt (lm_name monitor)) (state r))
      as [prevRaw|]; [destruct (JSON_parse_ids rt prevRaw); auto|];
      right; exists perPage; auto.
  - intros Hrt w1 w2 monitor r before after Hsame r1 res.
    subst r1. rewrite !checkListMonitor_scrape, !scrapeList_setMaxPrice, Hsame.
    destruct (scrapeList w1 monitor) as [perPage|e|].
    + destruct (Nat.eqb (Dict.size (itemById perPage)) 0) eqn:Hsize.
      * apply itemById_empty in Hsize. rewrite !diffList_empty by assumption.
        cbn [fst snd]. intro H. injection H as <-. discriminate.
      * assert (Hne : List.concat perPage <> []).
        { intro H. apply itemById_empty in H. congruence. }
        destruct (@diffList_persists rt w1 (setMaxPrice before monitor)
                    perPage r Hne) as [(prevRaw & Hget & Hparse & ->)|Hp].
        -- cbn [snd].
           rewrite (@diffList_unreadable rt w2 (setMaxPrice after monitor)
                      perPage r prevRaw) by assumption.
           discriminate.
        -- rewrite (@diffList_again rt w2 (setMaxPrice after monitor) perPage)
             by assumption.
           cbn [fst]. intro H. injection H as <-. discriminate.
    + cbn [fst snd]. intro H. injection H as <-. discriminate.
    + discriminate.
Qed.

(** A run under a limit of 50 that keeps the item d silent, then a run with
    no limit. *)
Lemma persisted_ids_ignore_price_filter_witness :
  let w := Sample.world Sample.pageAD true in
  let r1 := snd (checkListMonitor w (@setMaxPrice Node.runtime Sample.fifty (Sample.shop None))
                   Sample.seenA) in
  state r1 = [(Sample.shopKey, JSON.stringify_ids ["a"; "d"])]
  /\ forall res,
      fst (checkListMonitor w (@setMaxPrice Node.runtime None (Sample.shop None)) r1)
      = Success res ->
      res_status res <> new_items.
Proof.
  split; [reflexivity|].
  apply (proj2 (proj2 (persisted_ids_ignore_price_filter Node.runtime))
               Node_roundtrip
               (Sample.world Sample.pageAD true)
               (Sample.world Sample.pageAD true)
               (Sample.shop None) Sample.seenA Sample.fifty None eq_refl).
Defined.

(** C10. When a list-monitor run returns [new_items], the id of every
    item it reports is in the id array the same run stored under the
    monitor's key; and a run that follows at once, over the same scrape
    outcome, reports [unchanged] and leaves the run state as it is, so
    nothing is reported as new a second time. *)
Theorem reported_items_are_persisted (rt : Runtime) (w1 : World)
        (monitor : ListMonitor rt) (r r1 : Run) (res : MonitorResult) :
  checkListMonitor w1 monitor r = (Success res, r1) ->
  res_status res = new_items ->
  exists items ids,
    res_newItems res = Some items
    /\ Dict.get (monitorKey rt (lm_name monitor)) (state r1)
       = Some (JSON.stringify_ids ids)
    /\ (forall item, In item items -> In (item_id item) ids)
    /\ (JSON_roundtrip rt ->
        forall w2,
          scrapeList w2 monitor = scrapeList w1 monitor ->
          checkListMonitor w2 monitor r1
          = (Success (result (lm_name monitor) unchanged), r1)).
Proof.
  intros Hrun Hstatus. rewrite checkListMonitor_scrape in Hrun.
  destruct (scrapeList w1 monitor) as [perPage|e|] eqn:Hs.
  - destruct (Nat.eqb (Dict.size (itemById perPage)) 0) eqn:Hsize.
    { apply itemById_empty in Hsize. rewrite diffList_empty in Hrun by auto.
      injection Hrun as <- <-. discriminate. }
    assert (Hne : List.concat perPage <> []).
    { intro H. apply itemById_empty in H. congruence. }
    destruct (Dict.get (monitorKey rt (lm_name monitor)) (state r))
      as [prevRaw|] eqn:Hget.
    + destruct (JSON_parse_ids rt prevRaw) as [prevSet|] eqn:Hparse.
      * rewrite (@diffList_next rt w1 monitor perPage r prevRaw prevSet)
          in Hrun by assumption.
        cbv zeta in Hrun.
        destruct (newItems rt (lm_maxPrice monitor) perPage prevSet)
          as [|item l] eqn:Hnew.
        { injection Hrun as <- <-. discriminate. }
        rewrite <- Hnew in Hrun.
        destruct (telegram_accepts w1 _).
        2:{ injection Hrun as <- <-. discriminate. }
        injection Hrun as <- <-. cbn [res_newItems state].
        exists (newItems rt (lm_maxPrice monitor) perPage prevSet),
               (allIds perPage).
        split; [reflexivity|]. split; [apply get_set_same|]. split.
        -- intros it Hin. apply newItems_In in Hin as [Hc _].
           apply (@candidateIds_allIds rt (lm_maxPrice monitor)).
           apply candidateIds_In. eauto.
        -- intros Hrt w2 Hsame.
           rewrite checkListMonitor_scrape, Hsame.
           apply diffList_again; auto. apply get_set_same.
      * rewrite (@diffList_unreadable rt w1 monitor perPage r prevRaw)
          in Hrun by assumption.
        discriminate.
    + rewrite diffList_first in Hrun by assumption.
      injection Hrun as <- <-.
      destruct (telegram_accepts w1 _); discriminate.
  - injection Hrun as <- <-. discriminate.
  - discriminate.
Qed.

(** The run that reports c, and the run after it. *)
Lemma reported_items_are_persisted_witness :
  let w := Sample.world Sample.pageABC true in
  let out := checkListMonitor w (Sample.shop None) Sample.seenAB in
  exists res items ids,
    fst out = Success res
    /\ res_newItems res = Some items
    /\ map item_id items = ["c"]
    /\ Dict.get Sample.shopKey (state (snd out)) = Some (JSON.stringify_ids ids)
    /\ (forall item, In item items -> In (item_id item) ids)
    /\ checkListMonitor w (Sample.shop None) (snd out)
       = (Success (result "Shop" unchanged), snd out).
Proof.
  intros w out.
  destruct (@reported_items_are_persisted Node.runtime w (Sample.shop None)
              Sample.seenAB (snd out)
              {| res_name := "Shop"; res_status := new_items;
                 res_count := None;
                 res_newItems :=
                   Some (newItems Node.runtime None Sample.extractedABC
                           ["a"; "b"]);
                 res_error := None |} eq_refl eq_refl)
    as (items & ids & H1 & H2 & H3 & H4).
  exists {| res_name := "Shop"; res_status := new_items; res_count := None;
            res_newItems :=
              Some (newItems Node.runtime None Sample.extractedABC ["a"; "b"]);
            res_error := None |}, items, ids.
  split; [reflexivity|]. split; [exact H1|].
  split; [injection H1 as <-; reflexivity|].
  split; [exact H2|]. split; [exact H3|].
  exact (H4 Node_roundtrip w eq_refl).
Defined.

End DiffEngineFilter.

(** ** The scraper *)

Section ScraperFacts.

Import Scraper Monitor.

Lemma span_spec (p : ascii -> bool) (s : string) :
  s = (fst (Str.span p s) ++ snd (Str.span p s))%string
  /\ Str.forallb p (fst (Str.span p s)) = true.
Proof.
  induction s as [|c s [IH1 IH2]]; cbn [Str.span]; [split; reflexivity|].
  destruct (p c) eqn:Hp; [|split; reflexivity].
  destruct (Str.span p s) as [a b]. cbn [fst snd] in *. split.
  - cbn. now rewrite <- IH1.
  - cbn. now rewrite Hp.
Qed.

Lemma prefix_drop (p s : string) :
  String.prefix p s = true -> s = (p ++ Str.drop (String.length p) s)%string.
Proof.
  intro H. apply String.prefix_correct in H.
  rewrite <- H at 1. symmetry.
  rewrite <- (take_drop (String.length p) s) at 3. reflexivity.
Qed.

Lemma codeAt_spec (s code : string) :
  codeAt s = Some code ->
  exists post,
    s = ("/products/" ++ code ++ post)%string
    /\ code <> EmptyString
    /\ Str.forallb notSlashOrQuery code = true.
Proof.
  unfold codeAt. destruct (String.prefix "/products/" s) eqn:Hp; [|discriminate].
  destruct (span_spec notSlashOrQuery (Str.drop 10 s)) as [E Hall].
  destruct (Str.truthy (fst (Str.span notSlashOrQuery (Str.drop 10 s))))
    eqn:Ht; [|discriminate].
  intro H. injection H as <-.
  exists (snd (Str.span notSlashOrQuery (Str.drop 10 s))).
  split; [|split; [now apply truthy_true|exact Hall]].
  apply prefix_drop in Hp. etransitivity; [exact Hp|].
  apply f_equal. exact E.
Qed.

(** Whatever [productCode] returns is the code of a [/products/]
    segment. *)
Lemma productCode_spec (url code : string) :
  productCode url = Some code -> productSegment url code.
Proof.
  induction url as [|c url IH]; cbn [productCode].
  - destruct (codeAt EmptyString) eqn:E; [|discriminate].
    intro H. injection H as ->. apply codeAt_spec in E as (post & E & H1 & H2).
    exists EmptyString, post. auto.
  - destruct (codeAt (String c url)) eqn:E.
    + intro H. injection H as ->. apply codeAt_spec in E as (post & E & H1 & H2).
      exists EmptyString, post. auto.
    + intro H. destruct (IH H) as (pre & post & E' & H1 & H2).
      exists (String c pre), post. split; [|auto]. cbn. now rewrite E'.
Qed.

(** The two ways an id is resolved. *)
Lemma resolveId_spec (opts : ExtractOptions) (el : Element)
      (fields : Dict.t (option string)) (id : string) :
  resolveId opts el fields = Some id ->
  (exists a, idAttribute opts = Some a /\ a <> EmptyString
             /\ el_attr el a = Some id)
  \/ ((idAttribute opts = None \/ idAttribute opts = Some EmptyString)
      /\ exists url, Dict.get "url" fields = Some (Some url)
                     /\ productSegment url id).
Proof.
  unfold resolveId.
  assert (Hurl : idFromUrl fields = Some id ->
                 exists url, Dict.get "url" fields = Some (Some url)
                             /\ productSegment url id).
  { unfold idFromUrl.
    destruct (Dict.get "url" fields) as [[url|]|]; try discriminate.
    destruct (Str.truthy url); [|discriminate].
    intro H. exists url. split; auto. now apply productCode_spec. }
  destruct (idAttribute opts) as [a|].
  - destruct (Str.truthy a) eqn:Ha.
    + intro H. left. exists a. repeat split; auto. now apply truthy_true.
    + apply truthy_false in Ha. subst a. intro H. right. auto.
  - intro H. right. auto.
Qed.

(** What one element adds: nothing without an id, one item with it. *)
Lemma extractElement_spec (rt : Runtime) (opts : ExtractOptions)
      (fieldSelectors : Dict.t string) (el : Element)
      (added : list ScrapedItem) :
  extractElement rt opts fieldSelectors el = Some added ->
  forall item, In item added <-> emittedBy rt opts fieldSelectors el item.
Proof.
  unfold extractElement, emittedBy.
  destruct (fieldsOf rt opts fieldSelectors el) as [fields|]; [|discriminate].
  intro H. injection H as <-. intro item. unfold emit.
  destruct (resolveId opts el fields) as [id|] eqn:Hid.
  - destruct (Str.truthy id) eqn:Ht.
    + split.
      * intros [<-|[]]. exists fields. cbn [item_id item_url item_fields].
        repeat split; auto. now apply truthy_true.
      * intros (fields' & E & Hid' & Hne & Hurl & Hf).
        injection E as <-. rewrite Hid in Hid'. injection Hid' as ->. left.
        destruct item as [i u f]. cbn in *. now subst.
    + apply truthy_false in Ht. subst id. split; [intros []|].
      intros (fields' & E & Hid' & Hne & _). injection E as <-. congruence.
  - split; [intros []|].
    intros (fields' & E & Hid' & _). injection E as <-. congruence.
Qed.

Lemma extractElement_unidentified (rt : Runtime) (opts : ExtractOptions)
      (fieldSelectors : Dict.t string) (el : Element)
      (fields : Dict.t (option string)) :
  fieldsOf rt opts fieldSelectors el = Some fields ->
  resolveId opts el fields = None ->
  extractElement rt opts fieldSelectors el = Some [].
Proof.
  intros Hf Hid. unfold extractElement. rewrite Hf. cbv zeta.
  now rewrite Hid.
Qed.

Lemma eachElement_spec (rt : Runtime) (opts : ExtractOptions)
      (fieldSelectors : Dict.t string) (els : list Element) :
  forall acc items,
    eachElement rt opts fieldSelectors els acc = Some items ->
    forall item,
      In item items <->
      In item acc
      \/ exists el, In el els /\ emittedBy rt opts fieldSelectors el item.
Proof.
  induction els as [|el els IH]; intros acc items; cbn [eachElement].
  - intro H. injection H as <-. intro item. split; auto.
    intros [H|(el & [] & _)]. exact H.
  - destruct (extractElement rt opts fieldSelectors el) as [added|] eqn:E;
      [|discriminate].
    intros H item. rewrite (IH _ _ H item), in_app_iff.
    rewrite (extractElement_spec _ _ _ _ E item). split.
    + intros [[H1|H1]|(el' & Hin & H1)]; eauto.
      * right. exists el. split; auto. now left.
      * right. exists el'. split; auto. now right.
    + intros [H1|(el' & [<-|Hin] & H1)]; eauto.
Qed.

Lemma all_In (A : Type) (xs : list (Exit A)) (l : list A) :
  all xs = Success l -> forall a, In a l -> In (Success a) xs.
Proof.
  revert l. induction xs as [|x xs IH]; intros l; cbn [all].
  - intro H. injection H as <-. intros a [].
  - destruct x as [a0|e|]; try discriminate.
    destruct (all xs) as [l'|e|]; try discriminate.
    intro H. injection H as <-. intros a [<-|Hin]; [now left|right; eauto].
Qed.

End ScraperFacts.

Section ScraperClaims.

Import Scraper Monitor.

Lemma scrapeList_fromPage (rt : Runtime) (w : World) (monitor : ListMonitor rt)
      (perPage : list (list ScrapedItem)) :
  scrapeList w monitor = Success perPage ->
  forall item, In item (List.concat perPage) -> fromPage w monitor item.
Proof.
  unfold scrapeList.
  destruct (all (map (fetchPage w) (lm_urls monitor))) as [pages|e|];
    try discriminate.
  intros Hall item Hin. apply in_concat in Hin as (items & Hitems & Hin).
  apply (all_In _ Hall) in Hitems.
  apply in_map_iff in Hitems as (html & E & _).
  unfold extractItemList in E.
  destruct (cheerio_select w html (lm_itemSelector monitor)) as [els|] eqn:Hsel;
    [|discriminate].
  destruct (eachElement rt (extractOpts monitor) (lm_fields monitor) els [])
    as [items'|] eqn:Heach; [|discriminate].
  injection E as ->.
  apply (eachElement_spec _ _ _ _ _ Heach) in Hin as [[]|(el & Hel & Hem)].
  exists html, els, el. auto.
Qed.

(** C6. [extractItemList] emits an item exactly for the elements for
    which an id was resolved and is not empty, the item carrying that id;
    an element without a resolvable id adds no item; an id is resolved
    either from the configured [idAttribute] of the element or as the code
    of a [/products/<code>] segment of the extracted [url] field; and in a
    run of a list monitor every persisted id and every item reported as new
    is such an emitted item's. *)
Theorem only_identified_elements_are_emitted (rt : Runtime) (w : World) :
  (forall html itemSelector fieldSelectors options items,
      extractItemList rt w html itemSelector fieldSelectors options
      = Success items ->
      exists els,
        cheerio_select w html itemSelector = Some els
        /\ forall item,
            In item items <->
            exists el, In el els /\ emittedBy rt options fieldSelectors el item)
  /\ (forall options fieldSelectors el fields,
         fieldsOf rt options fieldSelectors el = Some fields ->
         resolveId options el fields = None ->
         extractElement rt options fieldSelectors el = Some [])
  /\ (forall options el fields id,
         resolveId options el fields = Some id ->
         (exists a, idAttribute options = Some a /\ a <> EmptyString
                    /\ el_attr el a = Some id)
         \/ ((idAttribute options = None
              \/ idAttribute options = Some EmptyString)
             /\ exists url, Dict.get "url" fields = Some (Some url)
                            /\ productSegment url id))
  /\ (forall (monitor : ListMonitor rt) perPage,
         scrapeList w monitor = Success perPage ->
         (forall id,
             In id (sort (Dict.keys (itemById perPage))) ->
             exists item, item_id item = id /\ fromPage w monitor item)
         /\ (forall prevSet item,
                In item (newItems rt (lm_maxPrice monitor) perPage prevSet) ->
                fromPage w monitor item)).
Proof.
  split; [|split; [|split]].
  - intros html itemSelector fieldSelectors options items.
    unfold extractItemList.
    destruct (cheerio_select w html itemSelector) as [els|]; [|discriminate].
    destruct (eachElement rt options fieldSelectors els []) as [items'|] eqn:E;
      [|discriminate].
    intro H. injection H as <-. exists els. split; [reflexivity|].
    intro item. rewrite (eachElement_spec _ _ _ _ _ E item).
    split; [intros [[]|H]; exact H|auto].
  - intros. now apply extractElement_unidentified with (fields := fields).
  - intros. now apply resolveId_spec.
  - intros monitor perPage Hs. split.
    + intros id Hin. rewrite sort_In in Hin. unfold itemById in Hin.
      rewrite byId_keys in Hin. apply in_map_iff in Hin as (item & E & Hin).
      exists item. split; auto. eapply scrapeList_fromPage; eauto.
    + intros prevSet item Hin. apply newItems_In in Hin as [Hin _].
      unfold candidates in Hin. apply filter_In in Hin as [Hin _].
      apply byId_values_In in Hin. eapply scrapeList_fromPage; eauto.
Qed.

(** A page with a banner and one product tile. *)
Lemma only_identified_elements_are_emitted_witness :
  exists els,
    cheerio_select (Sample.world Sample.pageBannerA true) Sample.shopUrl
      ".product" = Some els
    /\ forall item,
        In item [Sample.item "a" "Avengers: New #1" "$10.00"] <->
        exists el,
          In el els
          /\ emittedBy Node.runtime (extractOpts (Sample.shop None))
               (lm_fields (Sample.shop None)) el item.
Proof.
  apply (proj1 (only_identified_elements_are_emitted Node.runtime
                  (Sample.world Sample.pageBannerA true))
               Sample.shopUrl ".product" (lm_fields (Sample.shop None))
               (extractOpts (Sample.shop None))).
  reflexivity.
Defined.

End ScraperClaims.

(** ** Grouping the new items by section *)

Section GroupingFacts.

Import Scraper Monitor.

Variable sections : list string.

Lemma detectSection_keywordOf (item : ScrapedItem) :
  detectSection (titleOf item) sections
  = match keywordOf sections item with
    | Some k => k
    | None => "Others"
    end.
Proof.
  unfold detectSection, keywordOf, matchesKeyword.
  induction sections as [|s l IH]; cbn [firstMatch find]; auto.
  destruct (Str.includes (Str.toLowerCase s) (Str.toLowerCase (titleOf item)));
    auto.
Qed.

Lemma group_addToGroup (groups : Dict.t (list ScrapedItem))
      (item : ScrapedItem) (s : string) :
  group (addToGroup sections groups item) s
  = if detectedAs sections s item then group groups s ++ [item]
    else group groups s.
Proof.
  unfold addToGroup, detectedAs.
  set (section := detectSection (titleOf item) sections).
  set (g1 := if Dict.has section groups then groups
             else Dict.set section [] groups).
  assert (Hg1 : forall x, group g1 x = group groups x).
  { intro x. unfold g1, Dict.has, group.
    destruct (Dict.get section groups) eqn:E; auto.
    destruct (String.eqb_spec section x) as [<-|Hne].
    - now rewrite get_set_same, E.
    - now rewrite get_set_other. }
  destruct (String.eqb_spec section s) as [<-|Hne].
  - unfold group at 1. now rewrite get_set_same, Hg1.
  - unfold group at 1. rewrite get_set_other by assumption. apply Hg1.
Qed.

Lemma has_addToGroup (groups : Dict.t (list ScrapedItem))
      (item : ScrapedItem) (s : string) :
  Dict.has s (addToGroup sections groups item)
  = Dict.has s groups || detectedAs sections s item.
Proof.
  unfold addToGroup, detectedAs.
  set (section := detectSection (titleOf item) sections). unfold Dict.has.
  destruct (String.eqb_spec section s) as [<-|Hne].
  - rewrite get_set_same. now rewrite orb_true_r.
  - rewrite get_set_other by assumption. rewrite orb_false_r.
    destruct (Dict.get section groups); auto.
    now rewrite get_set_other.
Qed.

(** After the grouping loop, the group of a section holds the items
    detected for it, in order, and a section has a group exactly when some
    item was detected for it. *)
Lemma groups_fold (items : list ScrapedItem) :
  forall (groups : Dict.t (list ScrapedItem)) (s : string),
    group (fold_left (addToGroup sections) items groups) s
    = group groups s ++ filter (detectedAs sections s) items
    /\ Dict.has s (fold_left (addToGroup sections) items groups)
       = Dict.has s groups || existsb (detectedAs sections s) items.
Proof.
  induction items as [|item items IH]; intros groups s; cbn [fold_left].
  - cbn. now rewrite app_nil_r, orb_false_r.
  - destruct (IH (addToGroup sections groups item) s) as [-> ->].
    rewrite group_addToGroup, has_addToGroup. cbn [filter existsb].
    destruct (detectedAs sections s item).
    + rewrite <- app_assoc. split; [reflexivity|]. now rewrite orb_assoc.
    + split; [reflexivity|]. now rewrite orb_false_r.
Qed.

Lemma lines_fold (f g : string -> list string) (l : list string)
      (acc : list string) :
  fold_left (fun lines s => (lines ++ f s) ++ g s) l acc
  = acc ++ flat_map (fun s => f s ++ g s) l.
Proof.
  revert acc. induction l as [|x l IH]; intro acc; cbn [fold_left flat_map].
  - now rewrite app_nil_r.
  - rewrite IH, <- !app_assoc. reflexivity.
Qed.

Lemma existsb_filter_nil (A : Type) (p : A -> bool) (l : list A) :
  existsb p l = false <-> filter p l = [].
Proof.
  induction l as [|x l IH]; cbn; [tauto|].
  destruct (p x); cbn; [split; discriminate|exact IH].
Qed.

(** Rendering the groups that exist is rendering every group, an empty
    one giving no line. *)
Lemma flat_map_present (grp : string -> list ScrapedItem) (l : list string) :
  flat_map (fun s => [EmptyString; ("<b>" ++ esc s ++ "</b>")%string]
                     ++ map formatItemLine (grp s))
           (filter (fun s => match grp s with [] => false | _ => true end) l)
  = flat_map (fun s => renderGroup s (grp s)) l.
Proof.
  induction l as [|s l IH]; cbn [filter flat_map]; auto.
  unfold renderGroup at 1.
  destruct (grp s) eqn:E; cbn [flat_map]; rewrite ?E, IH; reflexivity.
Qed.

End GroupingFacts.

Section GroupingClaims.

Import Scraper Monitor.

(** What [formatNewItems] renders with keywords, whatever they are: the
    header, then for every keyword, in order, for which the source detected
    an item, the items detected for it, then the same for "Others". *)
Lemma formatNewItems_detected (name : string) (items : list ScrapedItem)
      (sections : list string) :
  sections <> [] ->
  formatNewItems name items (Some sections)
  = Str.join newline
      (header name (List.length items)
       :: flat_map
            (fun s => renderGroup s (filter (detectedAs sections s) items))
            (sections ++ ["Others"])).
Proof.
  intro Hne.
  set (groups := fold_left (addToGroup sections) items Dict.empty).
  assert (Hgroup : forall s,
             group groups s = filter (detectedAs sections s) items).
  { intro s. unfold groups.
    now rewrite (proj1 (groups_fold sections items Dict.empty s)). }
  assert (Hhas : forall s, Dict.has s groups
                   = match filter (detectedAs sections s) items with
                     | [] => false
                     | _ => true
                     end).
  { intro s. unfold groups.
    rewrite (proj2 (groups_fold sections items Dict.empty s)).
    cbn [Dict.has Dict.get Dict.empty orb].
    destruct (existsb (detectedAs sections s) items) eqn:E.
    - destruct (filter (detectedAs sections s) items) eqn:F; auto.
      apply existsb_filter_nil in F. congruence.
    - apply existsb_filter_nil in E. now rewrite E. }
  assert (E : formatNewItems name items (Some sections)
              = Str.join newline
                  (fold_left
                     (fun lines section =>
                        (lines ++ [EmptyString;
                                   ("<b>" ++ esc section ++ "</b>")%string])
                        ++ map formatItemLine (group groups section))
                     (filter (fun s => Dict.has s groups) sections
                      ++ (if Dict.has "Others" groups then ["Others"] else []))
                     [header name (List.length items)])).
  { unfold formatNewItems. destruct sections; [congruence|reflexivity]. }
  rewrite E, lines_fold. cbn [app]. f_equal. f_equal.
  rewrite !flat_map_app.
  rewrite <- (flat_map_present (fun s => filter (detectedAs sections s) items)
                               sections).
  rewrite <- (flat_map_present (fun s => filter (detectedAs sections s) items)
                               ["Others"]).
  f_equal.
  - rewrite (filter_ext _ _ Hhas).
    apply flat_map_ext. intro s. now rewrite Hgroup.
  - rewrite Hhas. cbn [filter].
    destruct (filter (detectedAs sections "Others") items) eqn:F;
      cbn [flat_map]; auto.
    now rewrite Hgroup, F.
Qed.

End GroupingClaims.

Section GroupingSpec.

Import Scraper Monitor.

(** [includes] is the substring test. *)
Lemma includes_spec (needle hay : string) :
  Str.includes needle hay = true <->
  exists pre post, hay = (pre ++ needle ++ post)%string.
Proof.
  induction hay as [|c hay IH]; cbn [Str.includes].
  - rewrite orb_false_r. split.
    + intro H. apply prefix_drop in H. exists EmptyString. eauto.
    + intros (pre & post & E). destruct pre; [|discriminate].
      destruct needle; [reflexivity|discriminate].
  - rewrite orb_true_iff, IH. split.
    + intros [H|(pre & post & E)].
      * apply prefix_drop in H. exists EmptyString. eauto.
      * exists (String c pre), post. cbn. now rewrite E.
    + intros (pre & post & E). destruct pre as [|c' pre].
      * left. cbn in E. rewrite E. clear.
        induction needle as [|a n IHn]; cbn; [now destruct post|].
        destruct (ascii_dec a a); [exact IHn|congruence].
      * right. cbn in E. injection E as _ E. eauto.
Qed.

Lemma keywordOf_In (sections : list string) (item : ScrapedItem) (k : string) :
  keywordOf sections item = Some k -> In k sections.
Proof. unfold keywordOf. intro H. now apply find_some in H. Qed.

Lemma detectedAs_keyword (sections : list string) (k : string)
      (item : ScrapedItem) :
  k <> "Others" ->
  detectedAs sections k item = sameKeyword (keywordOf sections item) (Some k).
Proof.
  intro Hk. unfold detectedAs. rewrite detectSection_keywordOf.
  destruct (keywordOf sections item) as [k'|]; cbn [sameKeyword]; auto.
  destruct (String.eqb_spec "Others" k); congruence.
Qed.

Lemma detectedAs_others (sections : list string) (item : ScrapedItem) :
  ~ In "Others" sections ->
  detectedAs sections "Others" item
  = sameKeyword (keywordOf sections item) None.
Proof.
  intro Hn. unfold detectedAs. rewrite detectSection_keywordOf.
  destruct (keywordOf sections item) as [k|] eqn:E; cbn [sameKeyword]; auto.
  apply keywordOf_In in E.
  destruct (String.eqb_spec k "Others"); congruence.
Qed.

Lemma flat_map_ext_In (A B : Type) (f g : A -> list B) (l : list A) :
  (forall a, In a l -> f a = g a) -> flat_map f l = flat_map g l.
Proof.
  induction l as [|x l IH]; intro H; cbn [flat_map]; auto.
  rewrite (H x) by (now left). rewrite IH; auto.
  intros a Ha. apply H. now right.
Qed.

(** When no keyword is the word "Others", [formatNewItems] with keywords
    is [formatGrouped]: the grouping in the words of the specification. *)
Lemma formatNewItems_grouped (name : string) (items : list ScrapedItem)
      (sections : list string) :
  sections <> [] -> ~ In "Others" sections ->
  formatNewItems name items (Some sections) = formatGrouped name items sections.
Proof.
  intros Hne Hn. rewrite formatNewItems_detected by assumption.
  unfold formatGrouped. f_equal. f_equal. rewrite flat_map_app. f_equal.
  - apply flat_map_ext_In. intros k Hk. f_equal. unfold itemsUnder.
    apply filter_ext. intro item. apply detectedAs_keyword.
    intros ->. contradiction.
  - cbn [flat_map]. rewrite app_nil_r. f_equal. unfold itemsUnder.
    apply filter_ext. intro item. now apply detectedAs_others.
Qed.

(** The example of the specification: with keywords X-Men and Avengers,
    "Avengers: New #1" goes under Avengers and "Untitled Comic" under
    Others, rendered last; X-Men, having no item, is omitted. *)
Lemma formatNewItems_example :
  keywordOf ["X-Men"; "Avengers"] Sample.avengers = Some "Avengers"
  /\ keywordOf ["X-Men"; "Avengers"] Sample.untitled = None
  /\ formatNewItems "Shop" [Sample.untitled; Sample.avengers]
       (Some ["X-Men"; "Avengers"])
     = Str.join newline
         [header "Shop" 2;
          EmptyString; "<b>Avengers</b>"; formatItemLine Sample.avengers;
          EmptyString; "<b>Others</b>"; formatItemLine Sample.untitled].
Proof. repeat split. Qed.

(** C7, where the code breaks the claim: with the keyword "Others"
    configured, an item whose title holds no keyword is rendered twice,
    under two "Others" headings, while the grouping the claim describes
    renders it once, in the trailing group. *)
Theorem others_keyword_renders_item_twice :
  keywordOf ["Others"] Sample.untitled = None
  /\ formatNewItems "Shop" [Sample.untitled] (Some ["Others"])
     = Str.join newline
         [header "Shop" 1;
          EmptyString; "<b>Others</b>"; formatItemLine Sample.untitled;
          EmptyString; "<b>Others</b>"; formatItemLine Sample.untitled]
  /\ formatGrouped "Shop" [Sample.untitled] ["Others"]
     = Str.join newline
         [header "Shop" 1;
          EmptyString; "<b>Others</b>"; formatItemLine Sample.untitled]
  /\ formatNewItems "Shop" [Sample.untitled] (Some ["Others"])
     <> formatGrouped "Shop" [Sample.untitled] ["Others"].
Proof.
  repeat split. apply String.eqb_neq. vm_compute. reflexivity.
Qed.

End GroupingSpec.

(** * Further properties *)

(** ** The chunker on any text *)

Lemma glue_cons (x : string) (l : list string) :
  glue (x :: l) = (x ++ glue l)%string.
Proof. apply concat_empty_cons. Qed.

Lemma glue_app (a b : list string) : glue (a ++ b) = (glue a ++ glue b)%string.
Proof.
  induction a as [|x a IH]; [reflexivity|].
  change ((x :: a) ++ b) with (x :: (a ++ b)).
  now rewrite !glue_cons, IH, append_assoc.
Qed.

Lemma stripNewlines_app (a b : string) :
  stripNewlines (a ++ b) = (stripNewlines a ++ stripNewlines b)%string.
Proof.
  unfold stripNewlines. induction a as [|c a IH]; [reflexivity|].
  change ((String c a ++ b)%string) with (String c (a ++ b)).
  cbn [Str.replaceAll]. destruct (Ascii.eqb c Str.nl); cbn; now rewrite IH.
Qed.

Lemma stripNewlines_oneLine (s : string) :
  oneLine s = true -> stripNewlines s = s.
Proof.
  unfold stripNewlines. induction s as [|c s IH]; [reflexivity|].
  rewrite oneLine_cons. intro H. apply andb_prop in H as [Hc Hs].
  cbn [Str.replaceAll]. destruct (Ascii.eqb c Str.nl); [discriminate|].
  now rewrite IH.
Qed.

Lemma glue_oneLine (lines : list string) :
  Forall (fun l => oneLine l = true) lines -> oneLine (glue lines) = true.
Proof.
  induction 1 as [|l lines Hl _ IH]; [reflexivity|].
  rewrite glue_cons. revert Hl. generalize (glue lines) IH. clear.
  intros t Ht. induction l as [|c l IHl]; [auto|].
  rewrite oneLine_cons. intro H. apply andb_prop in H as [Hc Hl].
  change ((String c l ++ t)%string) with (String c (l ++ t)).
  rewrite oneLine_cons, Hc. cbn. auto.
Qed.

(** The lines of a text, laid end to end, are the text without its
    newlines. *)
Lemma glue_split_lines (s : string) :
  glue (Str.split_lines s) = stripNewlines s.
Proof.
  unfold stripNewlines. induction s as [|c s IH]; [reflexivity|].
  cbn [Str.split_lines Str.replaceAll].
  pose proof (split_lines_not_nil s) as Hn.
  destruct (Ascii.eqb c Str.nl).
  - rewrite glue_cons. cbn. exact IH.
  - destruct (Str.split_lines s) as [|l ls]; [congruence|].
    rewrite glue_cons in *. cbn. now rewrite IH.
Qed.

Lemma glue_flush (chunks : list string) (current : string) :
  glue (Telegram.flush chunks current) = (glue chunks ++ current)%string.
Proof.
  unfold Telegram.flush. destruct (Str.truthy current) eqn:E.
  - rewrite glue_app. unfold glue at 2. cbn. reflexivity.
  - apply truthy_false in E. subst. now rewrite append_nil_r.
Qed.

(** Whenever the fallback loop ends, its slices laid end to end are the
    rest of the line. *)
Lemma sliceLoop_glue (maxLen : nat) (line : string) :
  forall fuel i slices,
    Telegram.sliceLoop fuel i line maxLen = Some slices ->
    glue slices = Str.drop i line.
Proof.
  induction fuel as [|fuel IH]; intros i slices; cbn [Telegram.sliceLoop];
    destruct (Nat.ltb_spec i (String.length line)) as [Hlt|Hge];
    try discriminate;
    try (intro H; injection H as <-; symmetry; now apply drop_all).
  destruct (Telegram.sliceLoop fuel (i + maxLen) line maxLen) as [r|] eqn:Er;
    [|discriminate].
  intro H. injection H as <-.
  rewrite glue_cons, (IH _ _ Er). unfold Str.slice.
  rewrite substring_drop, <- drop_drop. apply take_drop.
Qed.

(** Through the loop, whatever the lengths: the parts, laid end to end
    and without newlines, are what was accumulated followed by the lines
    still to come. *)
Lemma chunkLoop_glue (maxLen : nat) :
  forall lines chunks current parts,
    Forall (fun l => oneLine l = true) lines ->
    Telegram.chunkLoop maxLen lines chunks current = Some parts ->
    stripNewlines (glue parts)
    = (stripNewlines (glue chunks ++ current) ++ glue lines)%string.
Proof.
  induction lines as [|line rest IH]; intros chunks current parts Hone.
  - cbn [Telegram.chunkLoop]. intro H. injection H as <-.
    rewrite glue_flush. unfold glue at 3. cbn. now rewrite append_nil_r.
  - inversion Hone as [|? ? Hl Hrest]; subst.
    cbn [Telegram.chunkLoop]. rewrite glue_cons.
    destruct (Str.truthy current) eqn:Ht.
    + destruct (Nat.leb _ maxLen).
      * intro H. rewrite (IH _ _ _ Hrest H).
        rewrite <- !append_assoc, !stripNewlines_app.
        rewrite (stripNewlines_oneLine _ Hl).
        change (stripNewlines (String Str.nl EmptyString)) with EmptyString.
        cbn [String.append]. now rewrite !append_assoc.
      * destruct (Nat.leb (String.length line) maxLen).
        -- intro H. rewrite (IH _ _ _ Hrest H), glue_flush.
           rewrite !stripNewlines_app, (stripNewlines_oneLine _ Hl).
           now rewrite !append_assoc.
        -- destruct (Telegram.sliceLoop _ 0 line maxLen) as [slices|] eqn:Es;
             [|discriminate].
           intro H. rewrite (IH _ _ _ Hrest H), glue_app, glue_flush.
           rewrite append_nil_r.
           pose proof (sliceLoop_glue _ _ _ _ Es) as Eg. cbn [Str.drop] in Eg.
           rewrite Eg, !stripNewlines_app, (stripNewlines_oneLine _ Hl).
           now rewrite !append_assoc.
    + apply truthy_false in Ht. subst current.
      assert (Hsame : forall p,
                 Telegram.chunkLoop maxLen rest chunks line = Some p ->
                 stripNewlines (glue p)
                 = (stripNewlines (glue chunks ++ "") ++ line ++ glue rest)%string).
      { intros p H. rewrite (IH _ _ _ Hrest H).
        rewrite append_nil_r, !stripNewlines_app, (stripNewlines_oneLine _ Hl).
        now rewrite !append_assoc. }
      destruct (Nat.leb (String.length line) maxLen) eqn:Hfit.
      * intro H. now apply Hsame.
      * cbn [Telegram.flush Str.truthy].
        destruct (Telegram.sliceLoop _ 0 line maxLen) as [slices|] eqn:Es;
          [|discriminate].
        intro H. rewrite (IH _ _ _ Hrest H), glue_app.
        pose proof (sliceLoop_glue _ _ _ _ Es) as Eg. cbn [Str.drop] in Eg.
        rewrite Eg, !append_nil_r, !stripNewlines_app,
          (stripNewlines_oneLine _ Hl).
        now rewrite !append_assoc.
Qed.


(** X1. Whatever the lengths of its lines, a text chunked with a positive
    limit loses no character but newlines: the parts laid end to end and
    the text are the same once their newlines are removed. *)
Theorem chunk_keeps_every_character (text : string) (maxLen : nat) :
  0 < maxLen ->
  exists parts,
    Telegram.chunkTelegramMessage text maxLen = Some parts
    /\ stripNewlines (glue parts) = stripNewlines text.
Proof.
  intro Hpos. unfold Telegram.chunkTelegramMessage.
  destruct (Nat.leb (String.length text) maxLen).
  - exists [text]. split; [reflexivity|]. unfold glue. reflexivity.
  - destruct (@chunkLoop_total maxLen Hpos (Str.split_lines text) []
                EmptyString) as (parts & E & _); [constructor|simpl; lia|].
    exists parts. split; [exact E|].
    rewrite (@chunkLoop_glue maxLen _ _ _ _ (split_lines_oneLine text) E).
    unfold glue at 1. cbn [String.concat String.append].
    change (stripNewlines EmptyString) with EmptyString.
    cbn [String.append]. apply glue_split_lines.
Qed.

(** A long line between short ones, cut at five characters. *)
Lemma chunk_keeps_every_character_witness :
  exists parts,
    Telegram.chunkTelegramMessage Sample.longLine 5 = Some parts
    /\ stripNewlines (glue parts) = stripNewlines Sample.longLine.
Proof. apply (@chunk_keeps_every_character Sample.longLine 5). lia. Defined.

Lemma substring_truthy (i n : nat) (s : string) :
  i < String.length s -> 0 < n ->
  Str.truthy (String.substring i n s) = true.
Proof.
  revert i n. induction s as [|c s IH]; intros i n; cbn [String.length];
    [lia|].
  destruct i as [|i]; destruct n as [|n]; try lia; intros Hi Hn.
  - reflexivity.
  - cbn [String.substring]. apply IH; lia.
Qed.

Lemma sliceLoop_truthy (maxLen : nat) (line : string) :
  0 < maxLen ->
  forall fuel i slices,
    Telegram.sliceLoop fuel i line maxLen = Some slices ->
    Forall (fun p => Str.truthy p = true) slices.
Proof.
  intro Hpos. induction fuel as [|fuel IH]; intros i slices;
    cbn [Telegram.sliceLoop];
    destruct (Nat.ltb_spec i (String.length line)) as [Hlt|Hge];
    try discriminate; try (intro H; injection H as <-; constructor).
  destruct (Telegram.sliceLoop fuel (i + maxLen) line maxLen) as [r|] eqn:Er;
    [|discriminate].
  intro H. injection H as <-. constructor; eauto.
  now apply substring_truthy.
Qed.

Lemma flush_truthy (chunks : list string) (current : string) :
  Forall (fun p => Str.truthy p = true) chunks ->
  Forall (fun p => Str.truthy p = true) (Telegram.flush chunks current).
Proof.
  intro H. unfold Telegram.flush. destruct (Str.truthy current) eqn:E; auto.
  apply Forall_app. split; auto.
Qed.

Lemma chunkLoop_truthy (maxLen : nat) :
  0 < maxLen ->
  forall lines chunks current parts,
    Forall (fun p => Str.truthy p = true) chunks ->
    Telegram.chunkLoop maxLen lines chunks current = Some parts ->
    Forall (fun p => Str.truthy p = true) parts.
Proof.
  intro Hpos. induction lines as [|line rest IH];
    intros chunks current parts Hch; cbn [Telegram.chunkLoop].
  - intro H. injection H as <-. now apply flush_truthy.
  - destruct (Nat.leb _ maxLen); [now apply IH|].
    destruct (Nat.leb (String.length line) maxLen).
    + apply IH. now apply flush_truthy.
    + destruct (Telegram.sliceLoop _ 0 line maxLen) as [slices|] eqn:Es;
        [|discriminate].
      apply IH. apply Forall_app. split; [now apply flush_truthy|].
      eapply sliceLoop_truthy; eauto.
Qed.

(** X2. With a positive limit no part of a non-empty text is empty
    (the empty text alone comes back as one empty part). *)
Theorem chunk_parts_are_not_empty (text : string) (maxLen : nat)
        (parts : list string) :
  0 < maxLen ->
  Telegram.chunkTelegramMessage text maxLen = Some parts ->
  (text <> EmptyString -> Forall (fun p => p <> EmptyString) parts)
  /\ (text = EmptyString -> parts = [EmptyString]).
Proof.
  intros Hpos. unfold Telegram.chunkTelegramMessage.
  destruct (Nat.leb_spec (String.length text) maxLen) as [Hshort|Hlong].
  - intro H. injection H as <-. split.
    + intro Hne. repeat constructor. exact Hne.
    + intros ->. reflexivity.
  - intro H. split.
    + intros _.
      apply (@chunkLoop_truthy maxLen Hpos) in H; [|constructor].
      eapply Forall_impl; [|exact H]. intros p Hp. now apply truthy_true.
    + intros ->. simpl in Hlong. lia.
Qed.

(** The long line again. *)
Lemma chunk_parts_are_not_empty_witness :
  Forall (fun p => p <> EmptyString) ["ab"; "01234"; "56789"; "abc"; "yz"].
Proof.
  apply (proj1 (@chunk_parts_are_not_empty Sample.longLine 5
                  ["ab"; "01234"; "56789"; "abc"; "yz"]
                  ltac:(lia) eq_refl)).
  discriminate.
Defined.

(** ** Delivering a message *)

Section DeliveryFacts.

Import Delivery.

Lemma flatMapParts_single (f : string -> option (list string))
      (parts : list string) :
  (forall p, In p parts -> f p = Some [p]) ->
  flatMapParts f parts = Some parts.
Proof.
  induction parts as [|p parts IH]; intro H; cbn [flatMapParts]; auto.
  rewrite (H p) by (now left). rewrite IH; auto.
  intros q Hq. apply H. now right.
Qed.

Lemma safe_parts (text : string) :
  exists parts,
    Telegram.chunkTelegramMessage text Telegram.TELEGRAM_SAFE_CHUNK_LEN
    = Some parts
    /\ Forall (fun p => String.length p <= Telegram.TELEGRAM_SAFE_CHUNK_LEN)
              parts.
Proof.
  assert (Hpos : 0 < Telegram.TELEGRAM_SAFE_CHUNK_LEN)
    by (apply Nat.ltb_lt; vm_compute; reflexivity).
  unfold Telegram.chunkTelegramMessage.
  destruct (Nat.leb_spec (String.length text) Telegram.TELEGRAM_SAFE_CHUNK_LEN).
  - exists [text]. split; auto.
  - apply chunkLoop_total; auto. apply Nat.le_0_l.
Qed.

(** The second chunking finds every part short enough. *)
Lemma messageParts_safe (text : string) :
  exists parts,
    messageParts text = Some parts
    /\ Telegram.chunkTelegramMessage text Telegram.TELEGRAM_SAFE_CHUNK_LEN
       = Some parts
    /\ Forall (fun p => String.length p <= Telegram.TELEGRAM_SAFE_CHUNK_LEN)
              parts.
Proof.
  destruct (safe_parts text) as (parts & E & Hfit).
  exists parts. split; [|split; assumption].
  unfold messageParts. rewrite E. apply flatMapParts_single.
  intros p Hp. rewrite Forall_forall in Hfit. specialize (Hfit p Hp).
  assert (Hle : Telegram.TELEGRAM_SAFE_CHUNK_LEN
                <= Telegram.TELEGRAM_MAX_MESSAGE_LEN)
    by (apply Nat.leb_le; vm_compute; reflexivity).
  destruct (Nat.leb_spec (String.length p) Telegram.TELEGRAM_MAX_MESSAGE_LEN);
    [reflexivity|].
  exfalso. eapply Nat.lt_irrefl, Nat.le_lt_trans; [|eassumption].
  eapply Nat.le_trans; eassumption.
Qed.

(** X3. The parts [sendMessage] posts are those of the first chunking: no
    part of it exceeds the safe length, so the second chunking, at
    Telegram's own limit, never happens. *)
Theorem second_chunking_never_happens (text : string) :
  messageParts text
  = Telegram.chunkTelegramMessage text Telegram.TELEGRAM_SAFE_CHUNK_LEN
  /\ exists parts,
      messageParts text = Some parts
      /\ Forall (fun p => String.length p <= Telegram.TELEGRAM_SAFE_CHUNK_LEN)
                parts.
Proof.
  destruct (messageParts_safe text) as (parts & Hm & E & Hfit).
  split; [now rewrite Hm, E|]. exists parts. auto.
Qed.

(** X4. Without a token or without a chat id [sendMessage] succeeds and
    posts nothing. *)
Theorem no_credentials_no_post (token chatId : string) (net : Network)
        (text : string) :
  sendMessage EmptyString chatId net text = Some (Success tt, idle)
  /\ sendMessage token EmptyString net text = Some (Success tt, idle).
Proof.
  unfold sendMessage. cbn [Str.truthy negb orb]. split; [reflexivity|].
  now rewrite orb_true_r.
Qed.

(** One part: one POST, or two with a wait in between when the first is
    told to wait; the part is done when the last POST is accepted. *)
Lemma sendPart_delivered (net : Network) (body : string) (wire : Wire) :
  let i := List.length (posted wire) in
  sendPart net body wire
  = (accepted net (i + postsFrom net i - 1),
     {| posted := posted wire ++ List.repeat body (postsFrom net i);
        waited := waited wire ++ waitsFrom net i |}).
Proof.
  cbv zeta. unfold sendPart, post, postsFrom, waitsFrom, toldToWait.
  cbn [posted waited].
  assert (Hlast : forall n, n + 1 - 1 = n) by (intro; lia).
  assert (Hnext : forall n, n + 2 - 1 = S n) by (intro; lia).
  destruct (net (List.length (posted wire))) as [r|] eqn:E1.
  - destruct (Nat.eqb (status r) 429) eqn:H429; cbn [andb].
    + destruct (json_body r) eqn:Hj.
      * rewrite Hnext, length_app. cbn [List.length].
        rewrite Nat.add_1_r. unfold accepted, backoff, settle, ok.
        destruct (net (S (List.length (posted wire)))) as [r2|];
          cbn [List.repeat]; rewrite <- app_assoc; reflexivity.
      * rewrite Hlast. unfold accepted. rewrite E1, Hj.
        cbn [List.repeat]. now rewrite app_nil_r, andb_false_r.
    + rewrite Hlast. unfold accepted, settle, ok. rewrite E1.
      cbn [List.repeat]. now rewrite app_nil_r.
  - rewrite Hlast. unfold accepted. rewrite E1.
    cbn [List.repeat]. now rewrite app_nil_r.
Qed.

Lemma length_repeat_posts (body : string) (n : nat) :
  List.length (List.repeat body n) = n.
Proof. apply repeat_length. Qed.

(** The loop over the parts, as [delivered] tells it. *)
Lemma sendParts_delivered (net : Network) (f : string -> string)
      (parts : list string) :
  forall wire,
    exists counts waits ok,
      delivered net (List.length (posted wire)) parts counts waits ok
      /\ sendParts net (map f parts) wire
         = (ok,
            {| posted := posted wire
                         ++ flat_map (fun pn => List.repeat (f (fst pn)) (snd pn))
                                     (combine parts counts);
               waited := waited wire ++ waits |}).
Proof.
  induction parts as [|part rest IH]; intro wire; cbn [map sendParts].
  - exists [], [], true. split; [constructor|].
    cbn. rewrite !app_nil_r. now destruct wire.
  - rewrite sendPart_delivered. cbv zeta.
    set (i := List.length (posted wire)).
    destruct (accepted net (i + postsFrom net i - 1)) eqn:Hacc.
    + destruct (IH {| posted := posted wire
                                ++ List.repeat (f part) (postsFrom net i);
                      waited := waited wire ++ waitsFrom net i |})
        as (counts & waits & ok & Hd & E).
      cbn [posted waited] in Hd, E.
      rewrite length_app, length_repeat_posts in Hd. fold i in Hd.
      exists (postsFrom net i :: counts), (waitsFrom net i ++ waits), ok.
      split; [now constructor|].
      rewrite E. cbn [combine flat_map fst snd].
      now rewrite <- !app_assoc.
    + exists [postsFrom net i], (waitsFrom net i), false.
      split; [now constructor|].
      destruct rest; cbn [combine flat_map fst snd]; now rewrite app_nil_r.
Qed.

(** What follows from [delivered] alone. *)
Lemma delivered_shape (net : Network) (i : nat) (parts : list string)
      (counts waits : list nat) (ok : bool) :
  delivered net i parts counts waits ok ->
  List.length counts <= List.length parts
  /\ (ok = true -> List.length counts = List.length parts)
  /\ Forall (fun n => n = 1 \/ n = 2) counts
  /\ List.length waits = count_occ Nat.eq_dec counts 2
  /\ Forall (fun ms => 200 <= ms) waits.
Proof.
  assert (Hone : forall j,
             (postsFrom net j = 1 \/ postsFrom net j = 2)
             /\ List.length (waitsFrom net j)
                = (if Nat.eq_dec (postsFrom net j) 2 then 1 else 0)
             /\ Forall (fun ms => 200 <= ms) (waitsFrom net j)).
  { intro j. unfold postsFrom, waitsFrom, toldToWait.
    destruct (net j) as [r|]; [|cbn; auto].
    destruct (Nat.eqb (status r) 429 && json_body r); [|cbn; auto].
    cbn. repeat split; auto. repeat constructor.
    destruct (retry_after r); lia. }
  induction 1 as [i|i part rest counts waits ok Hacc Hd IH|i part rest Hacc].
  - cbn. repeat split; auto.
  - destruct IH as (Hle & Hall & Hc & Hw & Hms).
    destruct (Hone i) as (Hn & Hlen & Hwait).
    cbn [List.length count_occ]. rewrite length_app, Hlen, Hw.
    repeat split.
    + lia.
    + intro Hok. now rewrite (Hall Hok).
    + now constructor.
    + destruct (Nat.eq_dec (postsFrom net i) 2); lia.
    + now apply Forall_app.
  - destruct (Hone i) as (Hn & Hlen & Hwait).
    cbn [List.length count_occ]. rewrite Hlen.
    repeat split.
    + lia.
    + discriminate.
    + constructor; [exact Hn|constructor].
    + exact Hwait.
Qed.

(** X5. With credentials, [sendMessage] delivers the parts of the text as
    [delivered] says, from the first POST on: each part is posted once,
    or twice with a wait in between when its first POST is told to wait;
    a part whose last POST is accepted is followed by the next part, and
    the first part whose last POST is not accepted is the last one
    posted and makes the call fail. So the bodies posted are those of the
    parts reached, in order, each wait is of at least 200 ms, there is
    one wait per part posted twice, and a call that succeeds has posted
    every part. *)
Theorem parts_go_out_in_order (token chatId : string) (net : Network)
        (text : string) :
  token <> EmptyString -> chatId <> EmptyString ->
  exists parts out wire counts ok,
    Telegram.chunkTelegramMessage text Telegram.TELEGRAM_SAFE_CHUNK_LEN
    = Some parts
    /\ sendMessage token chatId net text = Some (out, wire)
    /\ delivered net 0 parts counts (waited wire) ok
    /\ out = (if ok then Success tt else Failure NotifyError)
    /\ List.length counts <= List.length parts
    /\ (out = Success tt \/ out = Failure NotifyError)
    /\ (out = Success tt -> List.length counts = List.length parts)
    /\ Forall (fun n => n = 1 \/ n = 2) counts
    /\ posted wire
       = flat_map (fun pn => List.repeat (requestBody chatId (fst pn)) (snd pn))
                  (combine parts counts)
    /\ List.length (waited wire) = count_occ Nat.eq_dec counts 2
    /\ Forall (fun ms => 200 <= ms) (waited wire).
Proof.
  intros Ht Hc.
  destruct (messageParts_safe text) as (parts & Hm & Em & _).
  unfold sendMessage.
  destruct token as [|t token]; [congruence|].
  destruct chatId as [|c chatId]; [congruence|].
  cbn [Str.truthy negb orb]. rewrite Hm.
  destruct (sendParts_delivered net (requestBody (String c chatId)) parts idle)
    as (counts & waits & ok & Hd & E).
  rewrite E. cbn [idle posted waited app List.length] in *.
  destruct (delivered_shape Hd) as (Hle & Hall & Hcounts & Hlen & Hms).
  exists parts, (if ok then Success tt else Failure NotifyError),
    {| posted := flat_map
                   (fun pn => List.repeat
                                (requestBody (String c chatId) (fst pn))
                                (snd pn))
                   (combine parts counts);
       waited := waits |}, counts, ok.
  cbn [posted waited].
  split; [exact Em|]. split; [now destruct ok|]. split; [exact Hd|].
  split; [reflexivity|]. split; [exact Hle|].
  split; [destruct ok; auto|].
  split; [destruct ok; [auto|discriminate]|].
  auto.
Qed.

(** A short message over a network that is busy once. *)
Lemma parts_go_out_in_order_witness :
  exists parts out wire counts ok,
    Telegram.chunkTelegramMessage "hello" Telegram.TELEGRAM_SAFE_CHUNK_LEN
    = Some parts
    /\ sendMessage "token" "42" Sample.busyOnce "hello" = Some (out, wire)
    /\ delivered Sample.busyOnce 0 parts counts (waited wire) ok
    /\ out = (if ok then Success tt else Failure NotifyError)
    /\ List.length counts <= List.length parts
    /\ (out = Success tt \/ out = Failure NotifyError)
    /\ (out = Success tt -> List.length counts = List.length parts)
    /\ Forall (fun n => n = 1 \/ n = 2) counts
    /\ posted wire
       = flat_map (fun pn => List.repeat (requestBody "42" (fst pn)) (snd pn))
                  (combine parts counts)
    /\ List.length (waited wire) = count_occ Nat.eq_dec counts 2
    /\ Forall (fun ms => 200 <= ms) (waited wire).
Proof.
  apply (@parts_go_out_in_order "token" "42" Sample.busyOnce "hello");
    discriminate.
Defined.

(** Three lines at a limit that makes them three parts, over a network
    that refuses the second POST: the second body is the last one
    posted. *)
Lemma refused_part_is_the_last_posted :
  sendParts Sample.refusesSecond ["a"; "b"; "c"] idle
  = (false, {| posted := ["a"; "b"]; waited := [] |}).
Proof. reflexivity. Qed.

End DeliveryFacts.

(** ** What any run does to the state and to the outbox *)

Section RunShape.

Import Scraper Monitor.

Variable rt : Runtime.

Lemma all_fetch_failure (w : World) (urls : list string) :
  match all (map (fetchPage w) urls) with
  | Success pages => map (http_get w) urls = map Some pages
  | Failure e => exists u, In u urls /\ http_get w u = None /\ e = FetchError u
  | Die => False
  end.
Proof.
  induction urls as [|u urls IH]; cbn [map all]; auto.
  unfold fetchPage at 1. destruct (http_get w u) as [html|] eqn:E.
  - destruct (all (map (fetchPage w) urls)) as [pages|e|]; auto.
    + cbn [map]. now rewrite <- IH.
    + destruct IH as (u' & Hin & Hnone & He). exists u'. split; auto. now right.
  - exists u. split; auto. now left.
Qed.

Lemma extractItemList_not_die (w : World) (html sel : string)
      (fs : Dict.t string) (opts : ExtractOptions) :
  match extractItemList rt w html sel fs opts with
  | Success _ => True
  | Failure e => e = ParseError
  | Die => False
  end.
Proof.
  unfold extractItemList. destruct (cheerio_select w html sel); auto.
  destruct (eachElement rt opts fs l []); auto.
Qed.

Lemma all_extract_failure (w : World) (sel : string) (fs : Dict.t string)
      (opts : ExtractOptions) (pages : list string) :
  match all (map (fun html => extractItemList rt w html sel fs opts) pages) with
  | Success _ => True
  | Failure e =>
      e = ParseError
      /\ exists html, In html pages
                      /\ extractItemList rt w html sel fs opts = Failure ParseError
  | Die => False
  end.
Proof.
  induction pages as [|html pages IH]; cbn [map all]; auto.
  pose proof (extractItemList_not_die w html sel fs opts) as H.
  destruct (extractItemList rt w html sel fs opts) as [items|e|] eqn:E; auto.
  - destruct (all (map (fun html => extractItemList rt w html sel fs opts) pages))
      as [l|e|]; auto.
    destruct IH as (He & html' & Hin & Hf). split; auto.
    exists html'. split; auto. now right.
  - subst e. split; auto. exists html. split; auto. now left.
Qed.

Lemma scrapeList_failure (w : World) (monitor : ListMonitor rt) :
  match scrapeList w monitor with
  | Success _ => True
  | Failure e =>
      e = ParseError
      \/ exists u, In u (lm_urls monitor) /\ http_get w u = None
                   /\ e = FetchError u
  | Die => False
  end.
Proof.
  unfold scrapeList.
  pose proof (all_fetch_failure w (lm_urls monitor)) as Hf.
  destruct (all (map (fetchPage w) (lm_urls monitor))) as [pages|e|]; auto.
  pose proof (all_extract_failure w (lm_itemSelector monitor) (lm_fields monitor)
                (extractOpts monitor) pages) as He.
  destruct (all _) as [l|e|]; auto. left. tauto.
Qed.

Lemma scrapeFields_failure (w : World) (monitor : FieldsMonitor) :
  match scrapeFields w monitor with
  | Success _ => True
  | Failure e =>
      e = ParseError
      \/ (http_get w (fm_url monitor) = None /\ e = FetchError (fm_url monitor))
  | Die => False
  end.
Proof.
  unfold scrapeFields, fetchPage.
  destruct (http_get w (fm_url monitor)); auto.
  unfold extractFields. destruct (fieldsLoop w s (fm_selectors monitor)); auto.
Qed.

(** The ways a run can end. *)
Lemma checkMonitor_cases (w : World) (m : MonitorConfig rt) (r : Run) :
  let key := monitorKey rt (configName m) in
  let out := checkMonitor w m r in
  (snd out = r
   /\ (fst out = Die
       \/ fst out = Success (result (configName m) unchanged)
       \/ exists e, e <> NotifyError
                    /\ fst out = Success (failure (configName m) e)))
  \/ (exists v,
         snd out = {| state := Dict.set key v (state r); outbox := outbox r |}
         /\ fst out = Success (result (configName m) unchanged))
  \/ (exists v text,
         snd out = {| state := Dict.set key v (state r);
                      outbox := outbox r ++ [text] |}
         /\ ((telegram_accepts w text = true
              /\ exists res,
                  fst out = Success res
                  /\ (res_status res = initialized
                      \/ res_status res = new_items)
                  /\ res_error res = None)
             \/ (telegram_accepts w text = false
                 /\ fst out = Success (failure (configName m) NotifyError)))).
Proof.
  destruct m as [m|m]; cbn [checkMonitor configName]; cbv zeta.
  - rewrite checkFieldsMonitor_scrape.
    pose proof (scrapeFields_failure w m) as Hf.
    destruct (scrapeFields w m) as [current|e|]; [|left|contradiction].
    + destruct (Dict.get (monitorKey rt (fm_name m)) (state r)) as [prev|] eqn:E.
      * destruct (string_dec prev (hashData rt current)) as [->|Hne].
        -- rewrite diffFields_same by exact E. left. cbn. auto.
        -- rewrite (@diffFields_changed rt w m current r prev E Hne). right. right.
           exists (hashData rt current), (changeDetected m current).
           cbn [fst snd]. split; auto.
           destruct (telegram_accepts w (changeDetected m current));
             [left|right]; split; auto.
           eexists. split; [reflexivity|]. cbn. auto.
      * rewrite diffFields_first by exact E. right. right.
        exists (hashData rt current), (nowMonitoringFields m current).
        cbn [fst snd]. split; auto.
        destruct (telegram_accepts w (nowMonitoringFields m current));
          [left|right]; split; auto.
        eexists. split; [reflexivity|]. cbn. auto.
    + cbn [fst snd]. split; auto. right. right. exists e. split; auto.
      destruct Hf as [->|[_ ->]]; discriminate.
  - rewrite checkListMonitor_scrape.
    pose proof (scrapeList_failure w m) as Hf.
    destruct (scrapeList w m) as [perPage|e|]; [|left|contradiction].
    + destruct (List.concat perPage) as [|x xs] eqn:Ec.
      * rewrite diffList_empty by exact Ec. left. cbn. auto.
      * assert (Hc : List.concat perPage <> []) by (rewrite Ec; discriminate).
        destruct (Dict.get (monitorKey rt (lm_name m)) (state r))
          as [prevRaw|] eqn:E.
        -- destruct (JSON_parse_ids rt prevRaw) as [prevSet|] eqn:Ep.
           ++ rewrite (@diffList_next rt w m perPage r prevRaw prevSet Hc E Ep). cbv zeta.
              destruct (newItems rt (lm_maxPrice m) perPage prevSet)
                as [|n ns] eqn:En.
              ** right. left. eexists. cbn [fst snd]. split; reflexivity.
              ** right. right. do 2 eexists. cbn [fst snd].
                 split; [reflexivity|].
                 destruct (telegram_accepts w _); [left|right]; split; auto.
                 eexists. split; [reflexivity|]. cbn. auto.
           ++ rewrite (@diffList_unreadable rt w m perPage r prevRaw Hc E Ep).
              left. cbn. auto.
        -- rewrite (@diffList_first rt w m perPage r Hc E). right. right.
           do 2 eexists. cbn [fst snd]. split; [reflexivity|].
           destruct (telegram_accepts w _); [left|right]; split; auto.
           eexists. split; [reflexivity|]. cbn. auto.
    + cbn [fst snd]. split; auto. right. right. exists e. split; auto.
      destruct Hf as [->|(u & _ & _ & ->)]; discriminate.
Qed.

Lemma has_set (V : Type) (k k' : string) (v : V) (d : Dict.t V) :
  Dict.has k' d = true -> Dict.has k' (Dict.set k v d) = true.
Proof.
  unfold Dict.has. destruct (string_dec k k') as [->|Hne].
  - now rewrite get_set_same.
  - now rewrite get_set_other.
Qed.

End RunShape.

(** X6. Whatever the pages, the state and Telegram do, a run of a monitor
    ends without a typed failure, changes no entry of the state map but
    the one under the monitor's own key, removes no entry, and hands at
    most one text to [sendMessage]. *)
Theorem run_touches_only_own_entry (rt : Runtime) (w : World)
        (m : Monitor.MonitorConfig rt) (r : Run) :
  let out := Monitor.checkMonitor w m r in
  (forall e, fst out <> Failure e)
  /\ (forall k, k <> Monitor.monitorKey rt (configName m) ->
                Dict.get k (state (snd out)) = Dict.get k (state r))
  /\ (forall k, Dict.has k (state r) = true ->
                Dict.has k (state (snd out)) = true)
  /\ exists sent, outbox (snd out) = outbox r ++ sent /\ List.length sent <= 1.
Proof.
  cbv zeta.
  destruct (checkMonitor_cases w m r)
    as [[Hr Hout]|[(v & Hr & Hout)|(v & text & Hr & Hout)]]; rewrite Hr;
    cbn [state outbox].
  - repeat split; auto.
    + intros e He. destruct Hout as [H|[H|(e' & _ & H)]];
        rewrite H in He; discriminate.
    + exists []. rewrite app_nil_r. auto.
  - repeat split.
    + intros e He. rewrite Hout in He. discriminate.
    + intros k Hk. apply get_set_other. congruence.
    + intros k. apply has_set.
    + exists []. rewrite app_nil_r. auto.
  - repeat split.
    + intros e He. destruct Hout as [(_ & res & H & _)|(_ & H)];
        rewrite H in He; discriminate.
    + intros k Hk. apply get_set_other. congruence.
    + intros k. apply has_set.
    + exists [text]. auto.
Qed.

(** X7. The status of a result tells what was handed to [sendMessage]
    and how that call ended: [unchanged] means no text was handed over;
    [initialized] and [new_items] mean exactly one was and [sendMessage]
    succeeded; an error that is a [NotifyError] means exactly one was,
    [sendMessage] failed, and the state entry was written all the same;
    any other error means the run left state and outbox as they were.
    Whether a text that was handed over reached Telegram is another
    matter: without credentials [sendMessage] succeeds and posts nothing
    (X4). *)
Theorem status_tells_what_was_handed_over (rt : Runtime) (w : World)
        (m : Monitor.MonitorConfig rt) (r r' : Run)
        (res : Monitor.MonitorResult) :
  Monitor.checkMonitor w m r = (Success res, r') ->
  (Monitor.res_status res = Monitor.unchanged -> outbox r' = outbox r)
  /\ (Monitor.res_status res = Monitor.initialized
      \/ Monitor.res_status res = Monitor.new_items ->
      exists text, outbox r' = outbox r ++ [text]
                   /\ telegram_accepts w text = true)
  /\ (Monitor.res_error res = Some NotifyError ->
      exists text v,
        outbox r' = outbox r ++ [text]
        /\ telegram_accepts w text = false
        /\ state r' = Dict.set (Monitor.monitorKey rt (configName m)) v (state r))
  /\ (forall e, Monitor.res_error res = Some e -> e <> NotifyError -> r' = r).
Proof.
  intro H.
  destruct (checkMonitor_cases w m r)
    as [[Hr Hout]|[(v & Hr & Hout)|(v & text & Hr & Hout)]];
    rewrite H in Hr, Hout; cbn [fst snd] in Hr, Hout; subst r'.
  - assert (Hsame : forall e, Monitor.res_error res = Some e -> e <> NotifyError -> r = r)
      by reflexivity.
    destruct Hout as [Ho|[Ho|(e & He & Ho)]]; [discriminate| |];
      injection Ho as ->; cbn [Monitor.result Monitor.failure Monitor.res_status Monitor.res_error];
      (split; [|split; [|split]]); auto; try discriminate;
      try (intros [?|?]; discriminate).
    intro Hn. injection Hn as ->. now contradiction He.
  - injection Hout as ->. cbn [Monitor.result Monitor.res_status Monitor.res_error state outbox].
    (split; [|split; [|split]]); auto; try discriminate.
    intros [?|?]; discriminate.
  - destruct Hout as [(Hacc & res' & Ho & Hst & Herr)|(Hacc & Ho)].
    + injection Ho as <-. cbn [outbox state].
      split; [|split; [|split]].
      * intro Hu. rewrite Hu in Hst. destruct Hst; discriminate.
      * intros _. exists text. auto.
      * intro Hn. rewrite Herr in Hn. discriminate.
      * intros e He. rewrite Herr in He. discriminate.
    + injection Ho as ->. cbn [Monitor.failure Monitor.res_status Monitor.res_error state outbox].
      split; [|split; [|split]]; try discriminate.
      * intros [?|?]; discriminate.
      * intros _. exists text, v. auto.
      * intros e He Hne. injection He as <-. now contradiction Hne.
Qed.

(** The first run of the sample shop hands its announcement over, and
    [sendMessage] succeeds. *)
Lemma status_tells_what_was_handed_over_witness :
  exists text,
    outbox (snd (Monitor.checkMonitor (Sample.world Sample.pageABC true)
                   (Monitor.ListConfig (Sample.shop None)) Sample.fresh))
    = outbox Sample.fresh ++ [text]
    /\ telegram_accepts (Sample.world Sample.pageABC true) text = true.
Proof.
  refine (proj1 (proj2 (@status_tells_what_was_handed_over Node.runtime
            (Sample.world Sample.pageABC true)
            (Monitor.ListConfig (Sample.shop None)) Sample.fresh _ _ _)) _).
  - vm_compute. reflexivity.
  - cbn. left. reflexivity.
Defined.

(** ** Failures of the scrape and of the delivery *)

Section FailureFacts.

Import Scraper Monitor.

(** X8. A list monitor one of whose pages is not served answers with the
    fetch error of an unserved page, whatever the other pages hold, and
    leaves the state and the outbox as they were. *)
Theorem unserved_page_fails_the_monitor (rt : Runtime) (w : World)
        (monitor : ListMonitor rt) (r : Run) (u : string) :
  In u (lm_urls monitor) -> http_get w u = None ->
  exists u',
    In u' (lm_urls monitor) /\ http_get w u' = None
    /\ checkListMonitor w monitor r
       = (Success (failure (lm_name monitor) (FetchError u')), r).
Proof.
  intros Hin Hnone. rewrite checkListMonitor_scrape. unfold scrapeList.
  pose proof (all_fetch_failure w (lm_urls monitor)) as Hf.
  destruct (all (map (fetchPage w) (lm_urls monitor))) as [pages|e|].
  - exfalso. apply (in_map (http_get w)) in Hin. rewrite Hf, Hnone in Hin.
    apply in_map_iff in Hin as (p & Hp & _). discriminate.
  - destruct Hf as (u' & Hin' & Hnone' & ->). exists u'. auto.
  - contradiction.
Qed.

(** The sample shop when nothing is served. *)
Lemma unserved_page_fails_the_monitor_witness :
  exists u',
    In u' (lm_urls (Sample.shop None))
    /\ http_get (Sample.world [] true) u' = None
    /\ checkListMonitor (Sample.world [] true) (Sample.shop None) Sample.seenAB
       = (Success (failure "Shop" (FetchError u')), Sample.seenAB).
Proof.
  apply (@unserved_page_fails_the_monitor Node.runtime (Sample.world [] true)
           (Sample.shop None) Sample.seenAB Sample.shopUrl).
  - left. reflexivity.
  - reflexivity.
Defined.

(** X9. After a fields monitor has read its page, the entry under its key
    is the hash of the snapshot just taken, whatever the entry was and
    whatever Telegram answers. An entry that already was that hash leaves
    the run as it was; any other entry is overwritten and reported as a
    change. *)
Theorem fields_entry_is_the_snapshot_hash (rt : Runtime) (w : World)
        (monitor : FieldsMonitor) (r : Run)
        (current : Dict.t (option string)) :
  scrapeFields w monitor = Success current ->
  let key := monitorKey rt (fm_name monitor) in
  let out := checkFieldsMonitor rt w monitor r in
  Dict.get key (state (snd out)) = Some (hashData rt current)
  /\ (Dict.get key (state r) = Some (hashData rt current) ->
      out = (Success (result (fm_name monitor) unchanged), r))
  /\ (forall prevHash,
         Dict.get key (state r) = Some prevHash ->
         prevHash <> hashData rt current ->
         out = (Success
                  (if telegram_accepts w (changeDetected monitor current)
                   then result (fm_name monitor) new_items
                   else failure (fm_name monitor) NotifyError),
                {| state := Dict.set key (hashData rt current) (state r);
                   outbox := outbox r ++ [changeDetected monitor current] |})).
Proof.
  intro Hs. cbv zeta. rewrite checkFieldsMonitor_scrape, Hs.
  split; [|split].
  - destruct (Dict.get (monitorKey rt (fm_name monitor)) (state r))
      as [prev|] eqn:E.
    + destruct (string_dec prev (hashData rt current)) as [->|Hne].
      * now rewrite diffFields_same.
      * rewrite (@diffFields_changed rt w monitor current r prev E Hne).
        cbn [snd state]. apply get_set_same.
    + rewrite diffFields_first by exact E. cbn [snd state].
      apply get_set_same.
  - intro E. now apply diffFields_same.
  - intros prev E Hne.
    exact (@diffFields_changed rt w monitor current r prev E Hne).
Qed.

(** The sample price monitor over a state that holds another hash. *)
Lemma fields_entry_is_the_snapshot_hash_witness :
  Dict.get (monitorKey Node.runtime "Omnibus price")
    (state (snd (checkFieldsMonitor Node.runtime
                   (Sample.world Sample.pageABC true) Sample.price
                   {| state := [(monitorKey Node.runtime "Omnibus price", "00")];
                      outbox := [] |})))
  = Some (hashData Node.runtime Sample.snapshotA).
Proof.
  refine (proj1 (@fields_entry_is_the_snapshot_hash Node.runtime
            (Sample.world Sample.pageABC true) Sample.price _
            Sample.snapshotA _)).
  vm_compute. reflexivity.
Defined.

(** X10. A message Telegram refuses is not sent again: the ids were
    written before the message went out, so the next run over the same
    pages finds nothing new, answers [unchanged] and sends nothing. *)
Theorem refused_message_is_not_repeated (rt : Runtime) (w1 w2 : World)
        (monitor : ListMonitor rt) (r r1 : Run) (res : MonitorResult) :
  JSON_roundtrip rt ->
  checkListMonitor w1 monitor r = (Success res, r1) ->
  res_error res = Some NotifyError ->
  scrapeList w2 monitor = scrapeList w1 monitor ->
  (exists text, outbox r1 = outbox r ++ [text]
                /\ telegram_accepts w1 text = false)
  /\ checkListMonitor w2 monitor r1
     = (Success (result (lm_name monitor) unchanged), r1).
Proof.
  intros Hrt Hrun Herr Hsame.
  rewrite checkListMonitor_scrape in Hrun.
  rewrite checkListMonitor_scrape, Hsame.
  pose proof (scrapeList_failure w1 monitor) as Hf.
  destruct (scrapeList w1 monitor) as [perPage|e|]; [| |contradiction].
  - destruct (List.concat perPage) as [|x xs] eqn:Ec.
    + rewrite diffList_empty in Hrun by exact Ec.
      injection Hrun as <- <-. discriminate.
    + assert (Hc : List.concat perPage <> []) by (rewrite Ec; discriminate).
      assert (Hagain :
                Dict.get (monitorKey rt (lm_name monitor)) (state r1)
                = Some (JSON.stringify_ids (allIds perPage)) ->
                catchAll (diffList w2 monitor perPage)
                         (failed (lm_name monitor)) r1
                = (Success (result (lm_name monitor) unchanged), r1))
        by (intro Hg; now apply diffList_again).
      destruct (Dict.get (monitorKey rt (lm_name monitor)) (state r))
        as [prevRaw|] eqn:E.
      * destruct (JSON_parse_ids rt prevRaw) as [prevSet|] eqn:Ep.
        -- rewrite (@diffList_next rt w1 monitor perPage r prevRaw prevSet
                      Hc E Ep) in Hrun. cbv zeta in Hrun.
           destruct (newItems rt (lm_maxPrice monitor) perPage prevSet)
             as [|n ns].
           ++ injection Hrun as <- <-. discriminate.
           ++ injection Hrun as Hres <-.
              destruct (telegram_accepts w1 _) eqn:Hacc;
                [subst res; discriminate|].
              split; [eexists; split; [reflexivity|exact Hacc]|].
              apply Hagain. cbn [state]. apply get_set_same.
        -- rewrite (@diffList_unreadable rt w1 monitor perPage r prevRaw
                      Hc E Ep) in Hrun. discriminate.
      * rewrite (@diffList_first rt w1 monitor perPage r Hc E) in Hrun.
        injection Hrun as Hres <-.
        destruct (telegram_accepts w1 _) eqn:Hacc;
          [subst res; discriminate|].
        split; [eexists; split; [reflexivity|exact Hacc]|].
        apply Hagain. cbn [state]. apply get_set_same.
  - injection Hrun as <- <-. cbn in Herr. injection Herr as ->.
    destruct Hf as [Hf|(u & _ & _ & Hf)]; discriminate.
Qed.

(** The sample shop with a new tile while Telegram refuses everything. *)
Lemma refused_message_is_not_repeated_witness :
  let w := Sample.world Sample.pageABC false in
  let r1 := snd (checkListMonitor w (Sample.shop None) Sample.seenAB) in
  (exists text, outbox r1 = outbox Sample.seenAB ++ [text]
                /\ telegram_accepts w text = false)
  /\ checkListMonitor w (Sample.shop None) r1
     = (Success (result "Shop" unchanged), r1).
Proof.
  cbv zeta.
  refine (@refused_message_is_not_repeated Node.runtime
            (Sample.world Sample.pageABC false)
            (Sample.world Sample.pageABC false)
            (Sample.shop None) Sample.seenAB _ _ Node_roundtrip _ _ eq_refl).
  - vm_compute. reflexivity.
  - vm_compute. reflexivity.
Defined.

End FailureFacts.

(** ** Merging the pages *)

Section MergeFacts.

Import Scraper Monitor.

Lemma get_app (V : Type) (k : string) (d d' : Dict.t V) :
  Dict.get k (d ++ d')
  = match Dict.get k d with Some v => Some v | None => Dict.get k d' end.
Proof.
  induction d as [|[k' v] d IH]; cbn [app Dict.get]; auto.
  destruct (String.eqb k k'); auto.
Qed.

Lemma get_fold_set (V : Type) (es : list (string * V)) :
  forall (d : Dict.t V) (k : string),
    Dict.get k (fold_left (fun d e => Dict.set (fst e) (snd e) d) es d)
    = match Dict.get k (rev es) with
      | Some v => Some v
      | None => Dict.get k d
      end.
Proof.
  induction es as [|[k' v'] es IH]; intros d k; cbn [fold_left rev fst snd].
  - reflexivity.
  - rewrite IH, get_app. destruct (Dict.get k (rev es)); auto.
    cbn [Dict.get]. destruct (String.eqb_spec k k') as [->|Hne].
    + apply get_set_same.
    + apply get_set_other. congruence.
Qed.

Lemma get_keyed (items : list ScrapedItem) (id : string) :
  Dict.get id (map (fun item => (item_id item, item)) items)
  = List.find (fun item => String.eqb id (item_id item)) items.
Proof.
  induction items as [|x items IH]; cbn [map Dict.get List.find]; auto.
  destruct (String.eqb id (item_id x)); auto.
Qed.

(** X11. Of the items of all pages that carry one id, the merged map holds
    the last one in page order, then document order. *)
Theorem merge_keeps_the_last_item (perPage : list (list ScrapedItem))
        (id : string) :
  Dict.get id (itemById perPage)
  = List.find (fun item => String.eqb id (item_id item))
              (rev (List.concat perPage)).
Proof.
  unfold itemById, byId, Dict.of_entries. rewrite get_fold_set.
  rewrite <- map_rev, get_keyed.
  now destruct (List.find _ _).
Qed.

Lemma ascending_head (x : string) (l : list string) :
  ascending (x :: l) -> forall y, In y l -> String.ltb x y = true.
Proof.
  intros H y Hy. apply StronglySorted_inv in H as [_ H].
  rewrite Forall_forall in H. auto.
Qed.

Lemma ltb_irrefl (x : string) : String.ltb x x = false.
Proof.
  destruct (String.ltb x x) eqn:E; auto.
  apply ltb_leb_neq in E as [_ E]. now contradiction E.
Qed.

Lemma ltb_asym (x y : string) :
  String.ltb x y = true -> String.ltb y x = true -> False.
Proof.
  intros Hxy Hyx. apply ltb_leb_neq in Hxy as [Hxy Hne].
  apply ltb_leb_neq in Hyx as [Hyx _].
  assert (H : String.ltb x x = true).
  { apply ltb_leb_neq. split; [apply leb_refl|].
    exfalso. apply Hne. clear Hne. revert y Hxy Hyx.
    induction x as [|a x IH]; intros [|b y] Hxy Hyx; auto;
      try discriminate.
    apply leb_cons in Hxy. apply leb_cons in Hyx.
    destruct Hxy as [Hlt|[-> Hxy]]; destruct Hyx as [Hlt'|[E Hyx]];
      try lia.
    - subst. lia.
    - f_equal. eauto. }
  rewrite ltb_irrefl in H. discriminate.
Qed.

(** Two ascending lists with the same members are the same list. *)
Lemma ascending_unique (l l' : list string) :
  ascending l -> ascending l' -> (forall x, In x l <-> In x l') -> l = l'.
Proof.
  revert l'. induction l as [|x l IH]; intros [|y l'] Hl Hl' Hsame.
  - reflexivity.
  - exfalso. apply (Hsame y). now left.
  - exfalso. apply (Hsame x). now left.
  - assert (Hxy : x = y).
    { destruct (proj1 (Hsame x) (or_introl eq_refl)) as [E|Hx]; auto.
      destruct (proj2 (Hsame y) (or_introl eq_refl)) as [E|Hy]; auto.
      exfalso. eapply ltb_asym.
      - apply (ascending_head Hl _ Hy).
      - apply (ascending_head Hl' _ Hx). }
    subst y. f_equal. apply IH.
    + now apply StronglySorted_inv in Hl.
    + now apply StronglySorted_inv in Hl'.
    + intro z. split; intro Hz.
      * destruct (proj1 (Hsame z) (or_intror Hz)) as [E|H]; auto. subst z.
        pose proof (ascending_head Hl _ Hz) as Hlt.
        rewrite ltb_irrefl in Hlt. discriminate.
      * destruct (proj2 (Hsame z) (or_intror Hz)) as [E|H]; auto. subst z.
        pose proof (ascending_head Hl' _ Hz) as Hlt.
        rewrite ltb_irrefl in Hlt. discriminate.
Qed.

Lemma allIds_In (perPage : list (list ScrapedItem)) (id : string) :
  In id (allIds perPage) <-> In id (map item_id (List.concat perPage)).
Proof. unfold allIds, itemById. now rewrite sort_In, byId_keys. Qed.

(** X12. The id list written to the state depends on nothing but the set
    of ids found: it is ascending, holds each id found once, and two
    scrapes that found the same ids, in whatever order, on whatever pages,
    with whatever repetitions, write the same text. *)
Theorem persisted_ids_depend_on_the_id_set
        (perPage perPage' : list (list ScrapedItem)) :
  ascending (allIds perPage)
  /\ (forall id, In id (allIds perPage)
                 <-> exists item, In item (List.concat perPage)
                                  /\ item_id item = id)
  /\ ((forall id, In id (map item_id (List.concat perPage))
                  <-> In id (map item_id (List.concat perPage'))) ->
      JSON.stringify_ids (allIds perPage)
      = JSON.stringify_ids (allIds perPage')).
Proof.
  split; [apply allIds_ascending|split].
  - intro id. rewrite allIds_In, in_map_iff.
    split; intros (item & A & B); exists item; auto.
  - intro Hsame. f_equal.
    apply ascending_unique; try apply allIds_ascending.
    intro id. now rewrite !allIds_In.
Qed.

End MergeFacts.

(** ** Escaping and the lines of a message *)

Section EscapeFacts.

Import Scraper Monitor.

Lemma replaceAll_app (c : ascii) (rep a b : string) :
  Str.replaceAll c rep (a ++ b)
  = (Str.replaceAll c rep a ++ Str.replaceAll c rep b)%string.
Proof.
  induction a as [|x a IH]; cbn [append Str.replaceAll]; auto.
  destruct (Ascii.eqb x c); rewrite IH; auto. now rewrite append_assoc.
Qed.

Lemma esc_app (a b : string) : esc (a ++ b) = (esc a ++ esc b)%string.
Proof. unfold esc. now rewrite !replaceAll_app. Qed.

Lemma esc_char (c : ascii) : esc (String c EmptyString) = escapeChar c.
Proof.
  unfold esc, escapeChar. cbn [Str.replaceAll].
  destruct (Ascii.eqb_spec c "&"%char) as [->|Hamp]; [reflexivity|].
  cbn [Str.replaceAll].
  destruct (Ascii.eqb_spec c "<"%char) as [->|Hlt]; [reflexivity|].
  cbn [Str.replaceAll].
  destruct (Ascii.eqb_spec c ">"%char) as [->|Hgt]; reflexivity.
Qed.

Lemma esc_escapeEach (s : string) : esc s = escapeEach s.
Proof.
  induction s as [|c s IH]; [reflexivity|].
  change (String c s) with (String c EmptyString ++ s)%string.
  rewrite esc_app, esc_char, IH. reflexivity.
Qed.

Lemma forallb_app (p : ascii -> bool) (a b : string) :
  Str.forallb p (a ++ b) = Str.forallb p a && Str.forallb p b.
Proof.
  induction a as [|x a IH]; cbn [append Str.forallb]; auto.
  now rewrite IH, andb_assoc.
Qed.

Lemma escapeChar_notAngle (c : ascii) :
  Str.forallb notAngle (escapeChar c) = true.
Proof.
  unfold escapeChar.
  destruct (Ascii.eqb c "&"%char); [reflexivity|].
  destruct (Ascii.eqb c "<"%char) eqn:Hlt; [reflexivity|].
  destruct (Ascii.eqb c ">"%char) eqn:Hgt; [reflexivity|].
  cbn [Str.forallb]. unfold notAngle. now rewrite Hlt, Hgt.
Qed.

Lemma escapeChar_head (c : ascii) :
  exists h t, escapeChar c = String h t
              /\ (h = c \/ (h = "&"%char /\ t <> EmptyString)).
Proof.
  unfold escapeChar.
  destruct (Ascii.eqb c "&"%char); [do 2 eexists; split; [reflexivity|right; split; [auto|discriminate]]|].
  destruct (Ascii.eqb c "<"%char); [do 2 eexists; split; [reflexivity|right; split; [auto|discriminate]]|].
  destruct (Ascii.eqb c ">"%char); [do 2 eexists; split; [reflexivity|right; split; [auto|discriminate]]|].
  do 2 eexists. split; [reflexivity|now left].
Qed.

Lemma escapeEach_inj (a : string) :
  forall b, escapeEach a = escapeEach b -> a = b.
Proof.
  induction a as [|x a IH]; intros [|y b] H; cbn [escapeEach] in H.
  - reflexivity.
  - exfalso. destruct (escapeChar_head y) as (h & t & E & _).
    rewrite E in H. discriminate.
  - exfalso. destruct (escapeChar_head x) as (h & t & E & _).
    rewrite E in H. discriminate.
  - unfold escapeChar in H.
    destruct (Ascii.eqb_spec x "&"%char) as [->|Hxa];
      [|destruct (Ascii.eqb_spec x "<"%char) as [->|Hxl];
        [|destruct (Ascii.eqb_spec x ">"%char) as [->|Hxg]]];
      (destruct (Ascii.eqb_spec y "&"%char) as [->|Hya];
       [|destruct (Ascii.eqb_spec y "<"%char) as [->|Hyl];
         [|destruct (Ascii.eqb_spec y ">"%char) as [->|Hyg]]]);
      cbn [append] in H; try discriminate;
      try (injection H as H; f_equal; now apply IH);
      try (injection H as Hh H; congruence).
    injection H as Hh H. subst y. f_equal. now apply IH.
Qed.

(** X13. [esc] is a one-pass escape: its three chained replacements give
    what replacing each character once gives, so no entity is escaped
    twice; its result holds neither [<] nor [>]; and it loses nothing: two
    texts with the same escape are the same text. *)
Theorem esc_is_a_one_pass_escape (s : string) :
  esc s = escapeEach s
  /\ Str.forallb notAngle (esc s) = true
  /\ (forall s', esc s = esc s' -> s = s').
Proof.
  split; [apply esc_escapeEach|split].
  - rewrite esc_escapeEach. induction s as [|c s IH]; [reflexivity|].
    cbn [escapeEach]. now rewrite forallb_app, escapeChar_notAngle, IH.
  - intros s' H. rewrite !esc_escapeEach in H. now apply escapeEach_inj.
Qed.

Lemma join_includes (sep x : string) (l : list string) :
  In x l -> Str.includes x (Str.join sep l) = true.
Proof.
  intro Hin. apply includes_spec.
  induction l as [|y l IH]; [contradiction|].
  destruct l as [|z l].
  - destruct Hin as [->|[]]. exists EmptyString, EmptyString.
    cbn. now rewrite append_nil_r.
  - rewrite join_cons2. destruct Hin as [->|Hin].
    + exists EmptyString, (sep ++ Str.join sep (z :: l))%string. reflexivity.
    + destruct (IH Hin) as (pre & post & E). rewrite E.
      exists (y ++ sep ++ pre)%string, post.
      now rewrite !append_assoc.
Qed.

Lemma firstMatch_In (lower : string) (sections : list string) :
  In (firstMatch lower sections) (sections ++ ["Others"]).
Proof.
  induction sections as [|s sections IH]; cbn [firstMatch app].
  - now left.
  - destruct (Str.includes (Str.toLowerCase s) lower); [now left|now right].
Qed.

(** X14. Every item handed to [formatNewItems] has its line in the
    message, with or without sections. *)
Theorem every_item_has_its_line (name : string) (items : list ScrapedItem)
        (sections : option (list string)) (item : ScrapedItem) :
  In item items ->
  Str.includes (formatItemLine item) (formatNewItems name items sections)
  = true.
Proof.
  intro Hin.
  assert (Hflat : Str.includes (formatItemLine item)
                    (Str.join newline
                       ([header name (List.length items); EmptyString]
                        ++ map formatItemLine items)) = true).
  { apply join_includes. apply in_or_app. right. now apply in_map. }
  destruct sections as [[|s sections]|]; try exact Hflat.
  rewrite formatNewItems_detected by discriminate.
  apply join_includes. right. apply in_flat_map.
  exists (detectSection (titleOf item) (s :: sections)). split.
  - apply firstMatch_In.
  - assert (Hf : In item (filter (detectedAs (s :: sections)
                                    (detectSection (titleOf item) (s :: sections)))
                                 items)).
    { apply filter_In. split; auto. unfold detectedAs. apply String.eqb_refl. }
    unfold renderGroup. destruct (filter _ items) as [|g gs]; [contradiction|].
    right. right. now apply in_map.
Qed.

(** The two sample items under the keywords of the example. *)
Lemma every_item_has_its_line_witness :
  Str.includes (formatItemLine Sample.untitled)
    (formatNewItems "Shop" [Sample.untitled; Sample.avengers]
       (Some ["X-Men"; "Avengers"])) = true.
Proof.
  apply (@every_item_has_its_line "Shop" [Sample.untitled; Sample.avengers]
           (Some ["X-Men"; "Avengers"]) Sample.untitled).
  left. reflexivity.
Defined.

End EscapeFacts.

(** ** The price filter *)

Section PriceFacts.

Import Scraper Monitor.

Variable rt : Runtime.

Lemma span_rest (p : ascii -> bool) (s : string) :
  headIs p (snd (Str.span p s)) = false.
Proof.
  induction s as [|c s IH]; [reflexivity|]. cbn [Str.span].
  destruct (p c) eqn:E.
  - destruct (Str.span p s). exact IH.
  - cbn. exact E.
Qed.

Lemma span_max (p : ascii -> bool) (body rest : string) :
  Str.forallb p body = true -> headIs p rest = false ->
  Str.span p (body ++ rest) = (body, rest).
Proof.
  intros Hb Hr. induction body as [|c body IH].
  - destruct rest as [|x rest]; [reflexivity|]. cbn in Hr.
    cbn [append Str.span]. now rewrite Hr.
  - cbn [Str.forallb] in Hb. apply andb_true_iff in Hb as [Hc Hb].
    cbn [append Str.span]. now rewrite Hc, (IH Hb).
Qed.

Lemma substring_3 (a b c : ascii) (s : string) :
  String.substring 0 3 (String a (String b (String c s)))
  = String a (String b (String c EmptyString)).
Proof. now destruct s. Qed.

(** A match at a [$]: the run of digits and commas, and the cents when
    they follow. *)
Lemma priceAt_dollar (rest : string) :
  priceAt (String "$"%char rest)
  = let (body, tail) := Str.span isDigitOrComma rest in
    if Str.truthy body
    then Some (body ++ (if beginsWithCents tail
                        then String.substring 0 3 tail
                        else EmptyString))%string
    else None.
Proof.
  unfold priceAt. rewrite Ascii.eqb_refl.
  destruct (Str.span isDigitOrComma rest) as [body tail].
  destruct (Str.truthy body); [|reflexivity].
  destruct tail as [|p [|d1 [|d2 tail]]];
    try (cbn [beginsWithCents]; now rewrite append_nil_r).
  cbn [beginsWithCents].
  destruct (Ascii.eqb p "."%char && Str.isDigit d1 && Str.isDigit d2);
    [now destruct tail|now rewrite append_nil_r].
Qed.

Lemma priceAt_none (c : ascii) (rest : string) :
  priceAt (String c rest) = None <->
  Ascii.eqb c "$"%char && headIs isDigitOrComma rest = false.
Proof.
  destruct (Ascii.eqb_spec c "$"%char) as [->|Hne].
  - rewrite priceAt_dollar. cbn [andb].
    destruct rest as [|x rest]; [now split|].
    cbn [Str.span headIs]. destruct (isDigitOrComma x).
    + destruct (Str.span isDigitOrComma rest). cbn. split; discriminate.
    + cbn. now split.
  - cbn [andb]. unfold priceAt.
    destruct (Ascii.eqb_spec c "$"%char); [contradiction|now split].
Qed.

Lemma priceMatch_none (s : string) :
  priceMatch s = None <-> hasPriceStart s = false.
Proof.
  induction s as [|c s IH]; [now split|].
  cbn [priceMatch hasPriceStart]. rewrite orb_false_iff, <- priceAt_none, <- IH.
  destruct (priceAt (String c s)); split;
    try discriminate; try tauto.
Qed.

Lemma priceAt_reads (rest m : string) :
  priceAt (String "$"%char rest) = Some m <->
  exists body cents post,
    readsAs (String "$"%char rest) EmptyString body cents post
    /\ m = (body ++ cents)%string.
Proof.
  rewrite priceAt_dollar.
  pose proof (span_spec isDigitOrComma rest) as [Hrest Hbody].
  pose proof (span_rest isDigitOrComma rest) as Htail.
  destruct (Str.span isDigitOrComma rest) as [body tail] eqn:Es.
  cbn [fst snd] in Hrest, Hbody, Htail. split.
  - destruct (Str.truthy body) eqn:Ht; [|discriminate].
    apply truthy_true in Ht. intro H. injection H as <-.
    destruct (beginsWithCents tail) eqn:Hc.
    + destruct tail as [|p [|d1 [|d2 post]]]; try discriminate.
      cbn [beginsWithCents] in Hc.
      apply andb_true_iff in Hc as [Hc H2].
      apply andb_true_iff in Hc as [Hp H1].
      apply Ascii.eqb_eq in Hp. subst p.
      exists body, (String "."%char (String d1 (String d2 EmptyString))), post.
      split; [|now rewrite substring_3]. unfold readsAs.
      split; [cbn [append]; now rewrite Hrest|]. split; [reflexivity|].
      split; [exact Ht|]. split; [exact Hbody|]. split; [exact Htail|].
      right. exists d1, d2. auto.
    + exists body, EmptyString, tail. split; [|reflexivity]. unfold readsAs.
      split; [cbn [append]; now rewrite Hrest|]. split; [reflexivity|].
      split; [exact Ht|]. split; [exact Hbody|]. split; [exact Htail|].
      left. auto.
  - intros (body' & cents & post & (Hs & _ & Hne & Hb & Hh & Hcents) & ->).
    cbn [append] in Hs. injection Hs as Hs.
    rewrite Hs, (@span_max isDigitOrComma body' (cents ++ post) Hb Hh) in Es. injection Es as <- <-.
    destruct body' as [|x body']; [now contradiction Hne|].
    cbn [Str.truthy]. f_equal. f_equal.
    destruct Hcents as [[-> Hc]|(d1 & d2 & -> & H1 & H2)].
    + cbn [append]. now rewrite Hc.
    + cbn [append beginsWithCents]. rewrite H1, H2.
      now rewrite substring_3.
Qed.

Lemma priceMatch_reads (s m : string) :
  priceMatch s = Some m <->
  exists pre body cents post,
    readsAs s pre body cents post /\ m = (body ++ cents)%string.
Proof.
  induction s as [|c s IH].
  - split; [discriminate|].
    intros (pre & body & cents & post & (Hs & _) & _).
    destruct pre; discriminate.
  - cbn [priceMatch]. destruct (priceAt (String c s)) as [m'|] eqn:E.
    + assert (Hc : c = "$"%char).
      { unfold priceAt in E.
        destruct (Ascii.eqb_spec c "$"%char); [assumption|discriminate]. }
      subst c. split.
      * intro H. injection H as <-. apply priceAt_reads in E
          as (body & cents & post & Hr & Hm).
        exists EmptyString, body, cents, post. auto.
      * intros (pre & body & cents & post & Hr & ->). f_equal.
        destruct pre as [|x pre].
        -- assert (H : priceAt (String "$"%char s) = Some (body ++ cents)%string)
             by (apply priceAt_reads; do 3 eexists; split; [eassumption|reflexivity]).
           rewrite E in H. now injection H.
        -- exfalso. destruct Hr as (Hs & Hpre & _).
           cbn [append] in Hs. injection Hs as <- Hs.
           cbn [hasPriceStart] in Hpre. apply orb_false_iff in Hpre as [Hx _].
           assert (Hn : priceAt (String "$"%char s) = None).
           { apply priceAt_none. rewrite Hs.
             destruct pre; [reflexivity|exact Hx]. }
           rewrite E in Hn. discriminate.
    + apply priceAt_none in E. rewrite IH. split.
      * intros (pre & body & cents & post & (Hs & Hpre & Hrest) & ->).
        exists (String c pre), body, cents, post. split; [|reflexivity].
        split; [cbn [append]; now rewrite Hs|]. split; [|exact Hrest].
        cbn [hasPriceStart]. rewrite Hpre, orb_false_r.
        rewrite Hs in E. destruct pre; [|exact E].
        now rewrite andb_false_r.
      * intros (pre & body & cents & post & (Hs & Hpre & Hrest) & ->).
        destruct pre as [|x pre].
        -- exfalso. cbn [append] in Hs. injection Hs as -> Hs.
           destruct Hrest as (Hne & Hb & _).
           destruct body as [|y body]; [now contradiction Hne|].
           cbn [Str.forallb] in Hb. apply andb_true_iff in Hb as [Hy _].
           rewrite Hs in E. cbn in E. rewrite Hy in E. discriminate.
        -- cbn [append] in Hs. injection Hs as <- Hs.
           cbn [hasPriceStart] in Hpre. apply orb_false_iff in Hpre as [_ Hpre].
           exists pre, body, cents, post. split; [|reflexivity].
           split; [exact Hs|]. split; [exact Hpre|exact Hrest].
Qed.

Lemma priceMatch_needs_dollar (s : string) :
  Str.includes "$" s = false -> priceMatch s = None.
Proof.
  induction s as [|c s IH]; [reflexivity|].
  cbn [Str.includes priceMatch]. intro H.
  apply orb_false_iff in H as [Hp Hi].
  assert (E : priceAt (String c s) = None).
  { unfold priceAt. cbn in Hp.
    destruct (Ascii.eqb_spec c "$"%char) as [->|]; auto.
    cbn in Hp. destruct s; discriminate. }
  rewrite E. auto.
Qed.

(** X15. [parsePrice] reads the first dollar amount of the text and no
    other: it returns a number exactly when the text has a [$] followed
    at once by a digit or a comma; it then takes the first such [$], the
    whole run of digits and commas after it, and the point and two digits
    that follow the run when there are such, and the number is
    [parseFloat] of the run with its commas taken out, followed by that
    point and its digits. *)
Theorem parsed_price_is_a_dollar_amount (str : option string)
        (p : number rt) :
  (parsePrice rt str = Some p <->
   exists s pre body cents post,
     str = Some s
     /\ readsAs s pre body cents post
     /\ p = parseFloat rt
              (Str.replaceAll ","%char EmptyString body ++ cents)%string)
  /\ (parsePrice rt str = None <->
      match str with
      | Some s => hasPriceStart s = false
      | None => True
      end).
Proof.
  assert (Hcents : forall body cents post s pre,
             readsAs s pre body cents post ->
             Str.replaceAll ","%char EmptyString (body ++ cents)
             = (Str.replaceAll ","%char EmptyString body ++ cents)%string).
  { intros body cents post s pre (_ & _ & _ & _ & _ & Hc).
    rewrite replaceAll_app. f_equal.
    destruct Hc as [[-> _]|(d1 & d2 & -> & H1 & H2)]; [reflexivity|].
    cbn [Str.replaceAll].
    assert (Hd : forall d, Str.isDigit d = true -> Ascii.eqb d ","%char = false).
    { intros d Hdig. destruct (Ascii.eqb_spec d ","%char) as [->|]; auto;
        discriminate. }
    now rewrite (Hd d1 H1), (Hd d2 H2). }
  unfold parsePrice. destruct str as [s|].
  2:{ split; [|now split]. split; [discriminate|].
      intros (s & _ & _ & _ & _ & H & _). discriminate. }
  destruct (Str.truthy s) eqn:Ht.
  - destruct (priceMatch s) as [m|] eqn:E.
    + split.
      * apply priceMatch_reads in E as (pre & body & cents & post & Hr & ->).
        split.
        -- intro H. injection H as <-.
           exists s, pre, body, cents, post.
           split; [reflexivity|]. split; [exact Hr|].
           now rewrite (Hcents _ _ _ _ _ Hr).
        -- intros (s' & pre' & body' & cents' & post' & Hs & Hr' & ->).
           injection Hs as <-. f_equal. f_equal.
           rewrite <- (Hcents _ _ _ _ _ Hr'). f_equal.
           assert (H : priceMatch s = Some (body' ++ cents')%string)
             by (apply priceMatch_reads; exists pre', body', cents', post';
                 split; [exact Hr'|reflexivity]).
           assert (H' : priceMatch s = Some (body ++ cents)%string)
             by (apply priceMatch_reads; exists pre, body, cents, post;
                 split; [exact Hr|reflexivity]).
           rewrite H in H'. now injection H'.
      * split; [discriminate|]. intro Hn. apply priceMatch_none in Hn.
        rewrite E in Hn. discriminate.
    + split.
      * split; [discriminate|].
        intros (s' & pre & body & cents & post & Hs & Hr & _).
        injection Hs as <-.
        assert (H : priceMatch s = Some (body ++ cents)%string)
          by (apply priceMatch_reads; do 4 eexists; split; [eassumption|reflexivity]).
        rewrite E in H. discriminate.
      * split; [intros _; now apply priceMatch_none|reflexivity].
  - apply truthy_false in Ht. subst s. split.
    + split; [discriminate|].
      intros (s' & pre & body & cents & post & Hs & (Hr & _) & _).
      injection Hs as <-. destruct pre; discriminate.
    + now split.
Qed.

End PriceFacts.

(** A price with a thousands separator, after a [$] that starts no
    amount. *)
Lemma parsed_price_is_a_dollar_amount_witness :
  exists s pre body cents post,
    Some "US$ now $1,234.56!" = Some s
    /\ readsAs s pre body cents post
    /\ Some 123456%N
       = parseFloat Node.runtime
           (Str.replaceAll ","%char EmptyString body ++ cents)%string.
Proof.
  apply (proj1 (@parsed_price_is_a_dollar_amount Node.runtime
                  (Some "US$ now $1,234.56!") (Some 123456%N))).
  vm_compute. reflexivity.
Defined.

(** What the text reads as is one amount only: [$75.00] is 75.00. *)
Lemma price_is_read_whole :
  @Monitor.parsePrice Node.runtime (Some "$75.00") = Some (Some 7500%N).
Proof. vm_compute. reflexivity. Qed.

(** X16. Under a price limit, an item whose price field is missing, null,
    or holds no [$] is never reported as new, whatever the limit and
    whatever was seen before. *)
Theorem unpriced_item_is_never_reported (rt : Runtime) (limit : number rt)
        (perPage : list (list Scraper.ScrapedItem)) (prevSet : list string)
        (item : Scraper.ScrapedItem) :
  match Monitor.field "price" item with
  | Some s => Str.includes "$" s = false
  | None => True
  end ->
  ~ In item (Monitor.newItems rt (Some limit) perPage prevSet).
Proof.
  intros Hprice Hin. apply newItems_In in Hin as [Hc _].
  unfold Monitor.candidates in Hc. apply filter_In in Hc as [_ Hb].
  unfold Monitor.withinBudget, Monitor.parsePrice in Hb.
  destruct (Monitor.field "price" item) as [s|]; [|discriminate].
  rewrite (priceMatch_needs_dollar _ Hprice) in Hb.
  destruct (Str.truthy s); discriminate.
Qed.

(** An item priced in euros under a limit of 50 dollars, nothing seen
    before. *)
Lemma unpriced_item_is_never_reported_witness :
  ~ In Sample.euro
       (Monitor.newItems Node.runtime (Some (Some 5000%N)) [[Sample.euro]] []).
Proof.
  apply (@unpriced_item_is_never_reported Node.runtime (Some 5000%N)
           [[Sample.euro]] [] Sample.euro).
  reflexivity.
Defined.

(** ** The selectors and the id of an element *)

Section SelectorFacts.

Import Scraper.

Lemma includes_at_cons (c : ascii) (s : string) :
  Str.includes "@" (String c s) = Ascii.eqb c "@"%char || Str.includes "@" s.
Proof.
  cbn [Str.includes]. f_equal.
  change (String.prefix "@" (String c s))
    with (if ascii_dec "@"%char c then String.prefix "" s else false).
  destruct (ascii_dec "@"%char c) as [<-|Hne].
  - now destruct s.
  - destruct (Ascii.eqb_spec c "@"%char); [congruence|reflexivity].
Qed.

Lemma splitLastAt_none (s : string) :
  Str.includes "@" s = false <-> splitLastAt s = None.
Proof.
  induction s as [|c s IH]; [now split|].
  rewrite includes_at_cons. cbn [splitLastAt]. split.
  - intro H. apply orb_false_iff in H as [Hc Hs].
    apply IH in Hs. now rewrite Hs, Hc.
  - destruct (splitLastAt s) as [[a b]|]; [discriminate|].
    destruct (Ascii.eqb c "@"%char); [discriminate|].
    intros _. now rewrite (proj2 IH eq_refl).
Qed.

Lemma splitLastAt_sound (s : string) :
  forall a b, splitLastAt s = Some (a, b) ->
              s = (a ++ "@" ++ b)%string /\ Str.includes "@" b = false.
Proof.
  induction s as [|c s IH]; intros a b; cbn [splitLastAt]; [discriminate|].
  destruct (splitLastAt s) as [[a' b']|] eqn:E.
  - intro H. injection H as <- <-. destruct (IH a' b' eq_refl) as [-> Hb].
    auto.
  - destruct (Ascii.eqb_spec c "@"%char) as [->|]; [|discriminate].
    intro H. injection H as <- <-. split; auto. now apply splitLastAt_none.
Qed.

Lemma splitLastAt_complete (a b : string) :
  Str.includes "@" b = false ->
  splitLastAt (a ++ "@" ++ b) = Some (a, b).
Proof.
  intro Hb. induction a as [|x a IH]; cbn [append splitLastAt].
  - apply splitLastAt_none in Hb. now rewrite Hb.
  - cbn [append] in IH. now rewrite IH.
Qed.

Lemma word_has_no_at (s : string) :
  Str.forallb Str.isWordOrDash s = true -> Str.includes "@" s = false.
Proof.
  induction s as [|c s IH]; [reflexivity|].
  rewrite includes_at_cons. cbn [Str.forallb]. intro H.
  apply andb_true_iff in H as [Hc Hs]. rewrite (IH Hs), orb_false_r.
  destruct (Ascii.eqb_spec c "@"%char) as [->|Hne]; [discriminate|reflexivity].
Qed.

(** X17. A field selector is read as an attribute selector exactly when it
    is a selector, an [@] and an attribute name: the selector is not empty
    and holds no line break, the name is not empty and is made of word
    characters and dashes. The cut is then at the last [@]; a selector of
    any other form is a text selector. *)
Theorem attribute_selector_is_split_at_the_last_at
        (selectorRaw selector attr : string) :
  attrMatch selectorRaw = Some (selector, attr) <->
  selectorRaw = (selector ++ "@" ++ attr)%string
  /\ selector <> EmptyString
  /\ Str.forallb notLineTerminator selector = true
  /\ attr <> EmptyString
  /\ Str.forallb Str.isWordOrDash attr = true.
Proof.
  unfold attrMatch. split.
  - destruct (splitLastAt selectorRaw) as [[a b]|] eqn:E; [|discriminate].
    destruct (Str.truthy a) eqn:Ha; [|discriminate].
    destruct (Str.forallb notLineTerminator a) eqn:Hl; [|discriminate].
    destruct (Str.truthy b) eqn:Hb; [|discriminate].
    destruct (Str.forallb Str.isWordOrDash b) eqn:Hw; [|discriminate].
    cbn [andb]. intro H. injection H as <- <-.
    apply splitLastAt_sound in E as [-> _].
    repeat split; auto using truthy_true.
  - intros (Hs & Ha & Hl & Hb & Hw).
    assert (E : splitLastAt selectorRaw = Some (selector, attr)).
    { rewrite Hs. apply splitLastAt_complete. now apply word_has_no_at. }
    rewrite E, Hl, Hw.
    destruct selector; [now contradiction Ha|].
    destruct attr; [now contradiction Hb|]. reflexivity.
Qed.

Lemma span_head (p : ascii -> bool) (c : ascii) (s : string) :
  p c = true -> Str.truthy (fst (Str.span p (String c s))) = true.
Proof.
  intro H. cbn [Str.span]. rewrite H.
  now destruct (Str.span p s).
Qed.

Lemma prefix_app (p s : string) : String.prefix p (p ++ s) = true.
Proof.
  induction p as [|c p IH]; cbn; [now destruct s|].
  destruct (ascii_dec c c); [exact IH|congruence].
Qed.

Lemma drop_app (p s : string) : Str.drop (String.length p) (p ++ s) = s.
Proof. induction p as [|c p IH]; cbn; auto. Qed.

Lemma productCode_here (s code : string) :
  codeAt s = Some code -> productCode s = Some code.
Proof. intro H. destruct s; cbn [productCode]; now rewrite H. Qed.

Lemma productCode_complete (pre id post : string) :
  id <> EmptyString -> Str.forallb notSlashOrQuery id = true ->
  exists code, productCode (pre ++ "/products/" ++ id ++ post) = Some code.
Proof.
  intros Hne Hid. induction pre as [|c pre IH].
  - destruct id as [|x id]; [now contradiction Hne|].
    cbn [Str.forallb] in Hid. apply andb_true_iff in Hid as [Hx _].
    exists (fst (Str.span notSlashOrQuery (String x (id ++ post)))).
    apply productCode_here. unfold codeAt.
    change (EmptyString ++ "/products/" ++ String x id ++ post)%string
      with ("/products/" ++ String x (id ++ post))%string.
    rewrite prefix_app.
    change 10 with (String.length "/products/"). rewrite drop_app.
    now rewrite span_head.
  - destruct IH as (code & IH).
    change (String c pre ++ "/products/" ++ id ++ post)%string
      with (String c (pre ++ "/products/" ++ id ++ post)).
    set (rest := (pre ++ "/products/" ++ id ++ post)%string) in *.
    cbn [productCode]. destruct (codeAt (String c rest)); eauto.
Qed.

Lemma codeAt_segment (s code : string) :
  codeAt s = Some code <->
  exists post,
    s = ("/products/" ++ code ++ post)%string
    /\ code <> EmptyString
    /\ Str.forallb notSlashOrQuery code = true
    /\ headIs notSlashOrQuery post = false.
Proof.
  unfold codeAt. split.
  - destruct (String.prefix "/products/" s) eqn:Hp; [|discriminate].
    apply prefix_drop in Hp. cbn [String.length] in Hp.
    pose proof (span_spec notSlashOrQuery (Str.drop 10 s)) as [Hs Hc].
    pose proof (span_rest notSlashOrQuery (Str.drop 10 s)) as Hr.
    destruct (Str.span notSlashOrQuery (Str.drop 10 s)) as [c post].
    cbn [fst snd] in *.
    destruct (Str.truthy c) eqn:Ht; [|discriminate].
    intro H. injection H as <-. exists post.
    split; [now rewrite Hp, Hs at 1|].
    split; [now apply truthy_true|auto].
  - intros (post & -> & Hne & Hc & Hr). rewrite prefix_app.
    change 10 with (String.length "/products/"). rewrite drop_app.
    rewrite (@span_max notSlashOrQuery code post Hc Hr). cbn [fst].
    destruct code; [now contradiction Hne|reflexivity].
Qed.

Lemma codeAt_found (c : ascii) (rest : string) :
  notSlashOrQuery c = true ->
  codeAt ("/products/" ++ String c rest) <> None.
Proof.
  intros Hc H. unfold codeAt in H. rewrite prefix_app in H.
  change 10 with (String.length "/products/") in H. rewrite drop_app in H.
  now rewrite span_head in H.
Qed.

Lemma productCode_first (url id : string) :
  productCode url = Some id <-> firstProductSegment url id.
Proof.
  revert id. induction url as [|x url IH]; intro id.
  - split; [discriminate|].
    intros (pre & post & H & _). destruct pre; discriminate.
  - cbn [productCode]. destruct (codeAt (String x url)) as [code|] eqn:E.
    + split.
      * intro H. injection H as <-.
        apply codeAt_segment in E as (post & Hs & Hne & Hc & Hr).
        exists EmptyString, post. repeat split; auto.
        intros. cbn. lia.
      * intros (pre & post & Hs & Hne & Hc & Hr & Hleft). f_equal.
        destruct pre as [|y pre].
        -- assert (H : codeAt (String x url) = Some id)
             by (apply codeAt_segment; exists post; auto).
           rewrite E in H. now injection H.
        -- exfalso. apply codeAt_segment in E
             as (post' & Hs' & Hne' & Hc' & _).
           destruct code as [|c code]; [now contradiction Hne'|].
           cbn [Str.forallb] in Hc'. apply andb_true_iff in Hc' as [Hc' _].
           specialize (Hleft EmptyString c (code ++ post')%string Hs' Hc').
           cbn in Hleft. lia.
    + rewrite IH. split.
      * intros (pre & post & Hs & Hne & Hc & Hr & Hleft).
        exists (String x pre), post.
        split; [cbn [append]; now rewrite Hs|].
        repeat split; auto.
        intros p1 c p2 Hu Hnc. destruct p1 as [|y p1].
        -- exfalso. cbn [append] in Hu.
           apply (@codeAt_found c p2 Hnc). cbn [append].
           rewrite <- Hu. exact E.
        -- cbn [append] in Hu. injection Hu as _ Hu.
           specialize (Hleft p1 c p2 Hu Hnc). cbn. lia.
      * intros (pre & post & Hs & Hne & Hc & Hr & Hleft).
        destruct pre as [|y pre].
        -- exfalso. assert (H : codeAt (String x url) = Some id)
             by (apply codeAt_segment; exists post; auto).
           rewrite E in H. discriminate.
        -- cbn [append] in Hs. injection Hs as -> Hs.
           exists pre, post. repeat split; auto.
           intros p1 c p2 Hu Hnc.
           assert (Hu' : String y url
                         = (String y p1 ++ "/products/" ++ String c p2)%string)
             by (cbn [append]; now rewrite Hu).
           specialize (Hleft (String y p1) c p2 Hu' Hnc). cbn in Hleft. lia.
Qed.

(** X18. When no id attribute is configured, an id is read off a URL
    exactly when the URL has a [/products/<code>] segment, and the id is
    then the code of the first such segment, taken up to the next [/] or
    [?] or to the end of the URL, and nothing else. *)
Theorem url_gives_an_id_iff_it_has_a_product_segment (url : string) :
  ((exists id, productCode url = Some id)
   <-> exists code, productSegment url code)
  /\ forall id, productCode url = Some id <-> firstProductSegment url id.
Proof.
  split; [split|].
  - intros (id & H). exists id. now apply productCode_spec.
  - intros (code & pre & post & -> & Hne & Hcode).
    now apply productCode_complete.
  - intro id. apply productCode_first.
Qed.

(** A URL with two segments: the id is the whole code of the first. *)
Lemma first_segment_gives_the_id :
  productCode "https://shop.example/products/abc/products/d?x" = Some "abc"
  /\ firstProductSegment "https://shop.example/products/abc/products/d?x"
       "abc".
Proof.
  split; [reflexivity|]. apply productCode_first. reflexivity.
Qed.

End SelectorFacts.

(** ** The values of the fields *)

Section FieldFacts.

Import Scraper.

Lemma trimStart_head (s : string) :
  match Str.trimStart s with
  | EmptyString => True
  | String c _ => Str.isSpace c = false
  end.
Proof.
  induction s as [|c s IH]; cbn [Str.trimStart]; auto.
  destruct (Str.isSpace c) eqn:E; auto.
Qed.

Lemma trimEnd_idem (s : string) : Str.trimEnd (Str.trimEnd s) = Str.trimEnd s.
Proof.
  induction s as [|c s IH]; cbn [Str.trimEnd]; auto.
  destruct (Str.isSpace c && negb (Str.truthy (Str.trimEnd s))) eqn:E; auto.
  cbn [Str.trimEnd]. now rewrite IH, E.
Qed.

Lemma trim_idem (s : string) : Str.trim (Str.trim s) = Str.trim s.
Proof.
  unfold Str.trim. pose proof (trimStart_head s) as Hh.
  destruct (Str.trimStart s) as [|c u]; [reflexivity|].
  cbn [Str.trimEnd]. rewrite Hh. cbn [andb Str.trimStart]. rewrite Hh.
  cbn [Str.trimEnd]. rewrite Hh. cbn [andb]. now rewrite trimEnd_idem.
Qed.

Lemma textOrNull_trimmed (text v : string) :
  textOrNull text = Some v -> v <> EmptyString /\ Str.trim v = v.
Proof.
  unfold textOrNull. destruct (Str.truthy (Str.trim text)) eqn:E; [|discriminate].
  intro H. injection H as <-. split; [now apply truthy_true|apply trim_idem].
Qed.

Lemma fieldsLoop_entries (w : World) (html : string)
      (selectors : list (string * string)) :
  forall es,
    fieldsLoop w html selectors = Some es ->
    map fst es = map fst selectors
    /\ forall f v, In (f, Some v) es -> v <> EmptyString /\ Str.trim v = v.
Proof.
  induction selectors as [|[field selector] rest IH]; intros es;
    cbn [fieldsLoop].
  - intro H. injection H as <-. split; [reflexivity|contradiction].
  - destruct (cheerio_text w html selector) as [text|]; [|discriminate].
    destruct (fieldsLoop w html rest) as [es'|]; [|discriminate].
    intro H. injection H as <-. destruct (IH es' eq_refl) as [Hk Hv].
    split; [cbn; now rewrite Hk|].
    intros f v [E|Hin]; [|eauto].
    injection E as _ E. symmetry in E. now apply (textOrNull_trimmed text).
Qed.

(** X19. A snapshot taken by [extractFields] has the fields of the
    selectors and no other, and each of its values is either null or a
    text that is not empty and has no white space at either end. When
    cheerio rejects one selector, there is no snapshot at all. *)
Theorem snapshot_values_are_trimmed_or_null (w : World) (html : string)
        (selectors : Dict.t string) :
  match extractFields w html selectors with
  | Success fields =>
      (forall f, In f (Dict.keys fields) <-> In f (Dict.keys selectors))
      /\ (forall f v, Dict.get f fields = Some (Some v) ->
                      v <> EmptyString /\ Str.trim v = v)
  | Failure e =>
      e = ParseError
      /\ exists f selector, In (f, selector) selectors
                            /\ cheerio_text w html selector = None
  | Die => False
  end.
Proof.
  unfold extractFields.
  destruct (fieldsLoop w html selectors) as [es|] eqn:E.
  - destruct (fieldsLoop_entries _ _ _ E) as [Hk Hv]. split.
    + intro f. rewrite of_entries_keys. unfold Dict.keys. now rewrite Hk.
    + intros f v Hg. apply get_In, of_entries_In in Hg. eauto.
  - split; [reflexivity|]. clear - E.
    induction selectors as [|[field selector] rest IH]; [discriminate|].
    cbn [fieldsLoop] in E.
    destruct (cheerio_text w html selector) as [text|] eqn:Et.
    + destruct (fieldsLoop w html rest) as [es'|]; [discriminate|].
      destruct (IH eq_refl) as (f & sel & Hin & Hn).
      exists f, sel. split; [now right|exact Hn].
    + exists field, selector. split; [now left|exact Et].
Qed.

Lemma keys_set_present (V : Type) (k : string) (v : V) (d : Dict.t V) :
  Dict.has k d = true -> Dict.keys (Dict.set k v d) = Dict.keys d.
Proof.
  unfold Dict.has, Dict.keys.
  induction d as [|[k' v'] d IH]; cbn [Dict.get Dict.set map]; [discriminate|].
  destruct (String.eqb_spec k k') as [->|Hne]; [reflexivity|].
  intro H. cbn [map fst]. now rewrite IH.
Qed.

Lemma readField_inherited (k : string) (fields : FieldsObject) :
  readField k fields = InheritedValue <->
  Dict.get k (own fields) = None /\ proto fields = true /\ inherited k = true.
Proof.
  unfold readField. destruct (Dict.get k (own fields)) as [v|].
  - split; [discriminate|]. intros [H _]. discriminate.
  - destruct (proto fields); destruct (inherited k); cbn; split;
      try discriminate; auto; intros (_ & H1 & H2); discriminate.
Qed.

Lemma readField_same (k : string) (fields fields' : FieldsObject) :
  proto fields' = proto fields ->
  Dict.keys (own fields') = Dict.keys (own fields) ->
  (readField k fields' = InheritedValue <-> readField k fields = InheritedValue).
Proof.
  intros Hp Hk. rewrite !readField_inherited, Hp, !get_None, Hk. reflexivity.
Qed.

Lemma writeField_own (k : string) (v v0 : option string)
      (fields : FieldsObject) :
  Dict.get k (own fields) = Some v0 ->
  writeField k v fields
  = {| own := Dict.set k v (own fields); proto := proto fields |}.
Proof.
  intro H. unfold writeField, Dict.has. rewrite H.
  now rewrite andb_false_r.
Qed.

(** What one transform may do: throw on an inherited value, or leave
    every field as it is but a text, which may lose a prefix. *)
Lemma applyTransform_step (fields : FieldsObject) (field transform : string) :
  match applyTransform fields field transform with
  | Some fields' =>
      ~ (readField field fields = InheritedValue
         /\ Str.startsWith "stripPrefix:" transform = true)
      /\ proto fields' = proto fields
      /\ Dict.keys (own fields') = Dict.keys (own fields)
      /\ forall f,
          match Dict.get f (own fields) with
          | Some (Some v) =>
              exists p v', Dict.get f (own fields') = Some (Some v')
                           /\ v = (p ++ v')%string
          | other => Dict.get f (own fields') = other
          end
  | None =>
      readField field fields = InheritedValue
      /\ Str.startsWith "stripPrefix:" transform = true
  end.
Proof.
  assert (Hsame : forall f,
             match Dict.get f (own fields) with
             | Some (Some v) =>
                 exists p v', Dict.get f (own fields) = Some (Some v')
                              /\ v = (p ++ v')%string
             | other => Dict.get f (own fields) = other
             end).
  { intro f. destruct (Dict.get f (own fields)) as [[v|]|]; auto.
    exists EmptyString, v. auto. }
  unfold applyTransform.
  destruct (readField field fields) as [[val|]| |] eqn:Er.
  - destruct (Str.truthy val && Str.startsWith "stripPrefix:" transform);
      [|split; [intros [H _]; discriminate|auto]].
    assert (Eg : Dict.get field (own fields) = Some (Some val)).
    { unfold readField in Er.
      destruct (Dict.get field (own fields)) as [v|];
        [now injection Er as ->|].
      destruct (proto fields && inherited field); discriminate. }
    rewrite (@writeField_own field _ (Some val) fields Eg). cbn [own proto].
    split; [intros [H _]; discriminate|]. split; [reflexivity|]. split.
    + apply keys_set_present. unfold Dict.has. now rewrite Eg.
    + intro f. destruct (string_dec field f) as [<-|Hne].
      * rewrite Eg, get_set_same. unfold Str.startsWith.
        destruct (String.prefix (Str.drop 12 transform) val) eqn:Hp.
        -- exists (Str.drop 12 transform),
             (Str.drop (String.length (Str.drop 12 transform)) val).
           split; auto. now apply prefix_drop.
        -- exists EmptyString, val. auto.
      * rewrite get_set_other by exact Hne. apply Hsame.
  - split; [intros [H _]; discriminate|auto].
  - destruct (Str.startsWith "stripPrefix:" transform) eqn:Es; [auto|].
    split; [intros [_ H]; discriminate|auto].
  - split; [intros [H _]; discriminate|auto].
Qed.

Lemma transformLoop_spec (ts : list (string * string)) :
  forall fields,
    match transformLoop ts fields with
    | Some fields' =>
        (forall field transform,
            In (field, transform) ts ->
            ~ (readField field fields = InheritedValue
               /\ Str.startsWith "stripPrefix:" transform = true))
        /\ proto fields' = proto fields
        /\ Dict.keys (own fields') = Dict.keys (own fields)
        /\ forall f,
            match Dict.get f (own fields) with
            | Some (Some v) =>
                exists p v', Dict.get f (own fields') = Some (Some v')
                             /\ v = (p ++ v')%string
            | other => Dict.get f (own fields') = other
            end
    | None =>
        exists field transform,
          In (field, transform) ts
          /\ Str.startsWith "stripPrefix:" transform = true
          /\ readField field fields = InheritedValue
    end.
Proof.
  induction ts as [|[field transform] ts IH]; intro fields;
    cbn [transformLoop].
  - split; [intros ? ? []|]. split; [reflexivity|]. split; [reflexivity|].
    intro f. destruct (Dict.get f (own fields)) as [[v|]|]; auto.
    exists EmptyString, v. auto.
  - pose proof (applyTransform_step fields field transform) as Hstep.
    destruct (applyTransform fields field transform) as [fields1|].
    + destruct Hstep as (Hno & Hp & Hk & Hv).
      specialize (IH fields1).
      destruct (transformLoop ts fields1) as [fields'|].
      * destruct IH as (Hno' & Hp' & Hk' & Hv').
        split; [|split; [congruence|split; [congruence|]]].
        -- intros fd tr [E|Hin].
           ++ injection E as <- <-. exact Hno.
           ++ intros [Hr Hs]. apply (Hno' fd tr Hin). split; auto.
              now apply (@readField_same fd fields fields1 Hp Hk).
        -- intro f. specialize (Hv f). specialize (Hv' f).
           destruct (Dict.get f (own fields)) as [[v|]|].
           ++ destruct Hv as (p & v1 & Hg & ->). rewrite Hg in Hv'.
              destruct Hv' as (p' & v2 & Hg' & ->).
              exists (p ++ p')%string, v2. split; auto.
              now rewrite append_assoc.
           ++ now rewrite Hv in Hv'.
           ++ now rewrite Hv in Hv'.
      * destruct IH as (fd & tr & Hin & Hs & Hr).
        exists fd, tr. split; [now right|]. split; auto.
        now apply (@readField_same fd fields fields1 Hp Hk).
    + destruct Hstep as [Hr Hs]. exists field, transform.
      split; [now left|auto].
Qed.

Lemma applyTransforms_throws (transforms : option (Dict.t string))
      (fields : FieldsObject) :
  applyTransforms transforms fields = None <->
  exists ts field transform,
    transforms = Some ts
    /\ In (field, transform) ts
    /\ Str.startsWith "stripPrefix:" transform = true
    /\ readField field fields = InheritedValue.
Proof.
  unfold applyTransforms. destruct transforms as [ts|].
  - pose proof (transformLoop_spec ts fields) as H.
    destruct (transformLoop ts fields) as [fields1|].
    + destruct H as (Hno & _). split; [discriminate|].
      intros (ts' & fd & tr & E & Hin & Hs & Hr). injection E as <-.
      exfalso. apply (Hno fd tr Hin). auto.
    + destruct H as (fd & tr & Hin & Hs & Hr).
      split; [|reflexivity]. intros _. exists ts, fd, tr. auto.
  - split; [discriminate|]. intros (ts & _ & _ & E & _). discriminate.
Qed.

(** X20. The transform loop throws exactly when a [stripPrefix] transform
    is keyed by a name the fields object only inherits ([toString],
    [constructor], ...). When it does not throw it adds no field, removes
    none and keeps their order; a field that is null stays null; a text is
    left as it is or loses a prefix. *)
Theorem transforms_only_strip_prefixes (transforms : option (Dict.t string))
        (fields : FieldsObject) :
  (applyTransforms transforms fields = None <->
   exists ts field transform,
     transforms = Some ts
     /\ In (field, transform) ts
     /\ Str.startsWith "stripPrefix:" transform = true
     /\ readField field fields = InheritedValue)
  /\ forall fields',
      applyTransforms transforms fields = Some fields' ->
      proto fields' = proto fields
      /\ Dict.keys (own fields') = Dict.keys (own fields)
      /\ forall f,
          match Dict.get f (own fields) with
          | Some (Some v) =>
              exists p v', Dict.get f (own fields') = Some (Some v')
                           /\ v = (p ++ v')%string
          | other => Dict.get f (own fields') = other
          end.
Proof.
  unfold applyTransforms. destruct transforms as [ts|].
  - pose proof (transformLoop_spec ts fields) as H.
    destruct (transformLoop ts fields) as [fields1|].
    + destruct H as (Hno & Hrest). split.
      * split; [discriminate|].
        intros (ts' & fd & tr & E & Hin & Hs & Hr). injection E as <-.
        exfalso. apply (Hno fd tr Hin). auto.
      * intros fields' E. injection E as <-. exact Hrest.
    + destruct H as (fd & tr & Hin & Hs & Hr). split.
      * split; [|reflexivity]. intros _. exists ts, fd, tr. auto.
      * discriminate.
  - split.
    + split; [discriminate|]. intros (ts & _ & _ & E & _). discriminate.
    + intros fields' E. injection E as <-.
      split; [reflexivity|]. split; [reflexivity|].
      intro f. destruct (Dict.get f (own fields)) as [[v|]|]; auto.
      exists EmptyString, v. auto.
Qed.

End FieldFacts.

(** A transform keyed by an inherited name throws; keyed by a field it
    strips the prefix. *)
Lemma transform_on_inherited_name_throws :
  Scraper.applyTransforms (Some [("toString", "stripPrefix:New ")])
    {| Scraper.own := [("title", Some "New Avengers")]; Scraper.proto := true |}
  = None
  /\ Scraper.applyTransforms (Some [("title", "stripPrefix:New ")])
       {| Scraper.own := [("title", Some "New Avengers")];
          Scraper.proto := true |}
     = Some {| Scraper.own := [("title", Some "Avengers")];
               Scraper.proto := true |}.
Proof. split; reflexivity. Qed.

(** ** The URL and the list of items *)

Section ItemFacts.

Import Scraper.

Lemma includes_cons (pat : string) (c : ascii) (s : string) :
  Str.includes pat (String c s) = false ->
  String.prefix pat (String c s) = false /\ Str.includes pat s = false.
Proof. cbn [Str.includes]. intro H. now apply orb_false_iff in H. Qed.

Lemma cut_here (pat s : string) :
  String.prefix pat s = true ->
  cut pat s = Some (EmptyString, Str.drop (String.length pat) s).
Proof. intro H. destruct s; cbn [cut]; now rewrite H. Qed.

Lemma cut_placeholder (before after : string) :
  Str.includes "{" before = false ->
  cut "{id}" (before ++ "{id}" ++ after) = Some (before, after).
Proof.
  induction before as [|x before IH]; intro H.
  - change (EmptyString ++ "{id}" ++ after)%string with ("{id}" ++ after)%string.
    rewrite cut_here by apply prefix_app. now rewrite drop_app.
  - apply includes_cons in H as [Hx Hb].
    cbn [append cut].
    assert (Hp : String.prefix "{id}" (String x (before ++ "{id}" ++ after))
                 = false).
    { change (String.prefix "{id}" (String x (before ++ "{id}" ++ after)))
        with (if ascii_dec "{"%char x
              then String.prefix "id}" (before ++ "{id}" ++ after) else false).
      change (String.prefix "{" (String x before))
        with (if ascii_dec "{"%char x
              then String.prefix "" before else false) in Hx.
      destruct (ascii_dec "{"%char x); auto.
      destruct before; discriminate. }
    cbn [append] in Hp. rewrite Hp.
    cbn [append] in IH. now rewrite (IH Hb).
Qed.

Lemma substitution_plain (matched before after repl : string) :
  Str.includes "$" repl = false ->
  substitution matched before after repl = repl.
Proof.
  induction repl as [|c r IH]; [reflexivity|].
  intro H. apply includes_cons in H as [Hc Hr].
  cbn [substitution].
  change (String.prefix "$" (String c r))
    with (if ascii_dec "$"%char c then String.prefix "" r else false) in Hc.
  destruct (Ascii.eqb_spec c "$"%char) as [->|Hne].
  - destruct (ascii_dec "$"%char "$"%char); [|congruence].
    destruct r; discriminate.
  - now rewrite (IH Hr).
Qed.

(** X21. With a URL template whose first brace opens the placeholder, and
    an id that is not empty and holds no [$], the URL of an item is the
    template with the id in place of the placeholder, whatever the [url]
    field holds. *)
Theorem url_template_takes_the_id (opts : ExtractOptions)
        (fields : Dict.t (option string)) (before after id : string) :
  urlTemplate opts = Some (before ++ "{id}" ++ after)%string ->
  Str.includes "{" before = false ->
  id <> EmptyString ->
  Str.includes "$" id = false ->
  resolveUrl opts (Some id) fields = (before ++ id ++ after)%string.
Proof.
  intros Ht Hb Hid Hd. unfold resolveUrl. rewrite Ht.
  assert (Htr : Str.truthy (before ++ "{id}" ++ after) = true)
    by (now destruct before).
  rewrite Htr. destruct id as [|x id]; [now contradiction Hid|].
  cbn [Str.truthy andb]. unfold replaceFirst.
  rewrite cut_placeholder by exact Hb.
  now rewrite substitution_plain.
Qed.

(** The eBay template of the README. *)
Lemma url_template_takes_the_id_witness :
  resolveUrl {| baseUrl := None; idAttribute := Some "data-listingid";
                urlTemplate := Some "https://www.ebay.com/itm/{id}";
                fieldTransforms := None |}
    (Some "1234") [("url", Some "https://elsewhere.example/")]
  = "https://www.ebay.com/itm/1234".
Proof.
  apply (@url_template_takes_the_id
           {| baseUrl := None; idAttribute := Some "data-listingid";
              urlTemplate := Some "https://www.ebay.com/itm/{id}";
              fieldTransforms := None |}
           [("url", Some "https://elsewhere.example/")]
           "https://www.ebay.com/itm/" "" "1234");
    (reflexivity || discriminate).
Defined.

Variable rt : Runtime.

(** What one element adds, nothing when its callback throws. *)
Lemma eachElement_flat (opts : ExtractOptions) (fs : Dict.t string)
      (els : list Element) :
  forall acc,
    (forall el, In el els -> extractElement rt opts fs el <> None) ->
    eachElement rt opts fs els acc
    = Some (acc ++ flat_map (fun el =>
                               match extractElement rt opts fs el with
                               | Some added => added
                               | None => []
                               end) els).
Proof.
  induction els as [|el els IH]; intros acc Hall; cbn [eachElement flat_map].
  - now rewrite app_nil_r.
  - destruct (extractElement rt opts fs el) as [added|] eqn:E.
    + rewrite IH by (intros el' Hin; apply Hall; now right).
      now rewrite app_assoc.
    + exfalso. apply (Hall el); [now left|exact E].
Qed.

Lemma eachElement_throws (opts : ExtractOptions) (fs : Dict.t string)
      (els : list Element) (el : Element) :
  In el els -> extractElement rt opts fs el = None ->
  forall acc, eachElement rt opts fs els acc = None.
Proof.
  intros Hin Hthrow. induction els as [|x els IH]; [contradiction|].
  intro acc. cbn [eachElement].
  destruct Hin as [->|Hin]; [now rewrite Hthrow|].
  destruct (extractElement rt opts fs x); auto.
Qed.

Lemma extractElement_short (opts : ExtractOptions) (fs : Dict.t string)
      (el : Element) (added : list ScrapedItem) :
  extractElement rt opts fs el = Some added -> List.length added <= 1.
Proof.
  unfold extractElement.
  destruct (fieldsOf rt opts fs el) as [fields|]; [|discriminate].
  intro H. injection H as <-. unfold emit.
  destruct (resolveId opts el fields) as [i|]; cbn; auto.
  destruct (Str.truthy i); cbn; auto.
Qed.

Lemma extractLoop_throws (base : option string) (el : Element)
      (fs : list (string * string)) :
  forall fields,
    extractLoop rt base el fs fields = None <->
    exists field selectorRaw,
      In (field, selectorRaw) fs
      /\ extractField rt base el selectorRaw = None.
Proof.
  induction fs as [|[field selectorRaw] fs IH]; intro fields;
    cbn [extractLoop].
  - split; [discriminate|]. intros (? & ? & [] & _).
  - destruct (extractField rt base el selectorRaw) as [v|] eqn:E.
    + rewrite IH. split.
      * intros (f & sr & Hin & Hn). exists f, sr. split; [now right|exact Hn].
      * intros (f & sr & [Heq|Hin] & Hn).
        -- injection Heq as <- <-. rewrite E in Hn. discriminate.
        -- exists f, sr. auto.
    + split; [|reflexivity]. intros _. exists field, selectorRaw.
      split; [now left|exact E].
Qed.

(** When the callback throws: a query of a field throws, or a transform
    does. *)
Lemma extractElement_throws (opts : ExtractOptions) (fs : Dict.t string)
      (el : Element) :
  extractElement rt opts fs el = None <->
  (exists field selectorRaw,
      In (field, selectorRaw) fs
      /\ extractField rt (baseUrl opts) el selectorRaw = None)
  \/ (exists extracted ts field transform,
         extractLoop rt (baseUrl opts) el fs emptyObject = Some extracted
         /\ fieldTransforms opts = Some ts
         /\ In (field, transform) ts
         /\ Str.startsWith "stripPrefix:" transform = true
         /\ readField field extracted = InheritedValue).
Proof.
  unfold extractElement, fieldsOf.
  pose proof (extractLoop_throws (baseUrl opts) el fs emptyObject) as Hq.
  destruct (extractLoop rt (baseUrl opts) el fs emptyObject)
    as [extracted|].
  - pose proof (applyTransforms_throws (fieldTransforms opts) extracted) as Ht.
    destruct (applyTransforms (fieldTransforms opts) extracted) as [fields|].
    + split; [discriminate|]. intros [H|H].
      * apply Hq in H. discriminate.
      * destruct H as (ex & ts & fd & tr & E & H). injection E as <-.
        assert (Hn : @None FieldsObject = None) by reflexivity.
        enough (Some fields = None) by discriminate.
        apply Ht. exists ts, fd, tr. exact H.
    + split; [|reflexivity]. intros _. right.
      destruct (proj1 Ht eq_refl) as (ts & fd & tr & H).
      exists extracted, ts, fd, tr. split; [reflexivity|exact H].
  - split; [|reflexivity]. intros _. left. now apply Hq.
Qed.

(** X22. The extraction of a page is all or nothing and keeps the order
    of the document: if the callback throws for one element, no item of
    the page is returned; otherwise the items are what each element adds,
    at most one item each, in the order of the elements. The callback
    throws exactly when cheerio rejects the query of one of the fields, or
    when a [stripPrefix] transform is keyed by a name that the fields
    object only inherits. *)
Theorem extraction_is_all_or_nothing_and_in_order (w : World)
        (html itemSelector : string) (fieldSelectors : Dict.t string)
        (options : ExtractOptions) :
  let added el :=
    match extractElement rt options fieldSelectors el with
    | Some items => items
    | None => []
    end in
  match cheerio_select w html itemSelector with
  | None =>
      extractItemList rt w html itemSelector fieldSelectors options
      = Failure ParseError
  | Some els =>
      (forall el, In el els ->
                  extractElement rt options fieldSelectors el = None ->
                  extractItemList rt w html itemSelector fieldSelectors options
                  = Failure ParseError)
      /\ ((forall el, In el els ->
                      extractElement rt options fieldSelectors el <> None) ->
          extractItemList rt w html itemSelector fieldSelectors options
          = Success (flat_map added els))
      /\ Forall (fun el => List.length (added el) <= 1) els
      /\ forall el,
          extractElement rt options fieldSelectors el = None <->
          (exists field selectorRaw,
              In (field, selectorRaw) fieldSelectors
              /\ extractField rt (baseUrl options) el selectorRaw = None)
          \/ (exists extracted ts field transform,
                 extractLoop rt (baseUrl options) el fieldSelectors emptyObject
                 = Some extracted
                 /\ fieldTransforms options = Some ts
                 /\ In (field, transform) ts
                 /\ Str.startsWith "stripPrefix:" transform = true
                 /\ readField field extracted = InheritedValue)
  end.
Proof.
  cbv zeta. unfold extractItemList.
  destruct (cheerio_select w html itemSelector) as [els|]; [|reflexivity].
  split; [|split; [|split]].
  - intros el Hin Hthrow. now rewrite (@eachElement_throws options fieldSelectors els el Hin Hthrow).
  - intro Hall. now rewrite eachElement_flat.
  - apply Forall_forall. intros el _.
    destruct (extractElement rt options fieldSelectors el) as [items|] eqn:E.
    + now apply extractElement_short in E.
    + cbn. lia.
  - intro el. apply extractElement_throws.
Qed.

End ItemFacts.

(** The sample page under a transform keyed [toString]: the callback
    throws at the first tile, and no item of the page is returned. *)
Lemma extraction_is_all_or_nothing_and_in_order_witness :
  Scraper.extractItemList Node.runtime (Sample.world Sample.pageABC true)
    Sample.shopUrl ".product" (Monitor.lm_fields (Sample.shop None))
    Sample.strippingToString
  = Failure ParseError.
Proof.
  exact (proj1 (@extraction_is_all_or_nothing_and_in_order Node.runtime
                  (Sample.world Sample.pageABC true) Sample.shopUrl ".product"
                  (Monitor.lm_fields (Sample.shop None))
                  Sample.strippingToString)
               Sample.tileA (or_introl eq_refl) eq_refl).
Defined.

(** ** Two monitors over one state *)

Section TwoMonitors.

Import Scraper Monitor.

Variable rt : Runtime.

Lemma run_eta (r : Run) : {| state := state r; outbox := outbox r ++ [] |} = r.
Proof. destruct r. cbn. now rewrite app_nil_r. Qed.

(** A run reads the state under its own key only, and what it writes and
    sends does not depend on the rest. *)
Lemma checkMonitor_local (w : World) (m : MonitorConfig rt) (r : Run) :
  exists (out : Exit MonitorResult) (upd : option string) (sent : list string),
    forall r',
      Dict.get (monitorKey rt (configName m)) (state r')
      = Dict.get (monitorKey rt (configName m)) (state r) ->
      checkMonitor w m r'
      = (out,
         {| state := match upd with
                     | Some v => Dict.set (monitorKey rt (configName m)) v
                                   (state r')
                     | None => state r'
                     end;
            outbox := outbox r' ++ sent |}).
Proof.
  destruct m as [m|m]; cbn [checkMonitor configName].
  - destruct (scrapeFields w m) as [current|e|] eqn:Es.
    + destruct (Dict.get (monitorKey rt (fm_name m)) (state r)) as [prev|] eqn:E.
      * destruct (string_dec prev (hashData rt current)) as [->|Hne].
        -- exists (Success (result (fm_name m) unchanged)), None, [].
           intros r' Hr'. rewrite checkFieldsMonitor_scrape, Es.
           rewrite diffFields_same by exact Hr'. now rewrite run_eta.
        -- eexists _, (Some (hashData rt current)), [changeDetected m current].
           intros r' Hr'. rewrite checkFieldsMonitor_scrape, Es.
           rewrite (@diffFields_changed rt w m current r' prev Hr' Hne).
           reflexivity.
      * eexists _, (Some (hashData rt current)), [nowMonitoringFields m current].
        intros r' Hr'. rewrite checkFieldsMonitor_scrape, Es.
        rewrite (@diffFields_first rt w m current r' Hr'). reflexivity.
    + exists (Success (failure (fm_name m) e)), None, [].
      intros r' _. rewrite checkFieldsMonitor_scrape, Es. now rewrite run_eta.
    + exists Die, None, [].
      intros r' _. rewrite checkFieldsMonitor_scrape, Es. now rewrite run_eta.
  - destruct (scrapeList w m) as [perPage|e|] eqn:Es.
    + destruct (List.concat perPage) as [|x xs] eqn:Ec.
      * exists (Success (result (lm_name m) unchanged)), None, [].
        intros r' _. rewrite checkListMonitor_scrape, Es.
        rewrite diffList_empty by exact Ec. now rewrite run_eta.
      * assert (Hc : List.concat perPage <> []) by (rewrite Ec; discriminate).
        destruct (Dict.get (monitorKey rt (lm_name m)) (state r))
          as [prevRaw|] eqn:E.
        -- destruct (JSON_parse_ids rt prevRaw) as [prevSet|] eqn:Ep.
           ++ destruct (newItems rt (lm_maxPrice m) perPage prevSet)
                as [|n ns] eqn:En.
              ** eexists _, (Some (JSON.stringify_ids (allIds perPage))), [].
                 intros r' Hr'. rewrite checkListMonitor_scrape, Es.
                 rewrite (@diffList_next rt w m perPage r' prevRaw prevSet
                            Hc Hr' Ep). cbv zeta. rewrite En.
                 now rewrite app_nil_r.
              ** eexists _, (Some (JSON.stringify_ids (allIds perPage))), [_].
                 intros r' Hr'. rewrite checkListMonitor_scrape, Es.
                 rewrite (@diffList_next rt w m perPage r' prevRaw prevSet
                            Hc Hr' Ep). cbv zeta. rewrite En. reflexivity.
           ++ exists Die, None, [].
              intros r' Hr'. rewrite checkListMonitor_scrape, Es.
              rewrite (@diffList_unreadable rt w m perPage r' prevRaw
                         Hc Hr' Ep). now rewrite run_eta.
        -- eexists _, (Some (JSON.stringify_ids (allIds perPage))), [_].
           intros r' Hr'. rewrite checkListMonitor_scrape, Es.
           rewrite (@diffList_first rt w m perPage r' Hc Hr'). reflexivity.
    + exists (Success (failure (lm_name m) e)), None, [].
      intros r' _. rewrite checkListMonitor_scrape, Es. now rewrite run_eta.
    + exists Die, None, [].
      intros r' _. rewrite checkListMonitor_scrape, Es. now rewrite run_eta.
Qed.

Lemma get_write (k key : string) (upd : option string) (st : Dict.t string) :
  Dict.get k (match upd with Some v => Dict.set key v st | None => st end)
  = if String.eqb k key
    then match upd with Some v => Some v | None => Dict.get k st end
    else Dict.get k st.
Proof.
  destruct (String.eqb_spec k key) as [->|Hne]; destruct upd as [v|]; auto.
  - apply get_set_same.
  - apply get_set_other. congruence.
Qed.

(** X23. Two monitors with different keys do not interfere: run one after
    the other, in either order, each gives the result it gives alone, the
    state map ends with the same value under every key, and the same
    texts were sent. *)
Theorem monitors_with_different_keys_commute (w : World)
        (m1 m2 : MonitorConfig rt) (r : Run) :
  monitorKey rt (configName m1) <> monitorKey rt (configName m2) ->
  let first := checkMonitor w m1 r in
  let firstThen := checkMonitor w m2 (snd first) in
  let second := checkMonitor w m2 r in
  let secondThen := checkMonitor w m1 (snd second) in
  fst firstThen = fst second
  /\ fst secondThen = fst first
  /\ (forall k, Dict.get k (state (snd firstThen))
                = Dict.get k (state (snd secondThen)))
  /\ Permutation (outbox (snd firstThen)) (outbox (snd secondThen)).
Proof.
  intro Hkeys. cbv zeta.
  destruct (checkMonitor_local w m1 r) as (out1 & upd1 & sent1 & H1).
  destruct (checkMonitor_local w m2 r) as (out2 & upd2 & sent2 & H2).
  rewrite (H1 r eq_refl), (H2 r eq_refl). cbn [snd].
  rewrite H2, H1; cbn [state outbox fst snd].
  - repeat split; auto.
    + intro k. rewrite !get_write.
      destruct (String.eqb_spec k (monitorKey rt (configName m1))) as [->|];
        destruct (String.eqb_spec (monitorKey rt (configName m1))
                    (monitorKey rt (configName m2))); try congruence; auto.
    + rewrite <- !app_assoc. apply Permutation_app_head.
      apply Permutation_app_comm.
  - rewrite get_write.
    destruct (String.eqb_spec (monitorKey rt (configName m1))
                (monitorKey rt (configName m2))); [congruence|reflexivity].
  - rewrite get_write.
    destruct (String.eqb_spec (monitorKey rt (configName m2))
                (monitorKey rt (configName m1))); [congruence|reflexivity].
Qed.

End TwoMonitors.

(** The sample shop and the sample price monitor over a fresh state. *)
Lemma monitors_with_different_keys_commute_witness :
  let w := Sample.world Sample.pageABC true in
  let m1 := Monitor.ListConfig (Sample.shop None) in
  let m2 := Monitor.FieldsConfig Node.runtime Sample.price in
  let first := Monitor.checkMonitor w m1 Sample.fresh in
  let firstThen := Monitor.checkMonitor w m2 (snd first) in
  let second := Monitor.checkMonitor w m2 Sample.fresh in
  let secondThen := Monitor.checkMonitor w m1 (snd second) in
  fst firstThen = fst second
  /\ fst secondThen = fst first
  /\ (forall k, Dict.get k (state (snd firstThen))
                = Dict.get k (state (snd secondThen)))
  /\ Permutation (outbox (snd firstThen)) (outbox (snd secondThen)).
Proof.
  cbv zeta.
  apply (@monitors_with_different_keys_commute Node.runtime
           (Sample.world Sample.pageABC true)
           (Monitor.ListConfig (Sample.shop None))
           (Monitor.FieldsConfig Node.runtime Sample.price) Sample.fresh).
  vm_compute. discriminate.
Defined.

(** ** The command bot *)

Section BotFacts.

Import Bot.

(** X24. Updates that carry no message, or a message from another chat
    than the configured one, are acknowledged and nothing else: nothing is
    posted to Telegram, no workflow is dispatched, and the update id still
    rises to the highest id seen. *)
Theorem other_chats_are_ignored (chatId : string) (sv : Services)
        (updates : list TelegramUpdate) (lastId : nat) (log : Log) :
  Forall (fun u => match message u with
                   | Some m => chat m <> chatId
                   | None => True
                   end) updates ->
  processUpdates chatId sv updates lastId log
  = (Some (fold_left Nat.max (map update_id updates) lastId), log).
Proof.
  intro H. revert lastId.
  induction H as [|u updates Hu _ IH]; intro lastId;
    cbn [processUpdates map fold_left]; [reflexivity|].
  assert (Hskip : handleUpdate chatId sv u log = (Some tt, log)).
  { unfold handleUpdate. destruct (message u) as [m|]; [|reflexivity].
    destruct (String.eqb_spec (chat m) chatId); [contradiction|reflexivity]. }
  rewrite Hskip. apply IH.
Qed.

(** Two strangers write to the bot. *)
Lemma other_chats_are_ignored_witness :
  processUpdates "42" Sample.services
    [Sample.says 7 "13" "/trigger"; Sample.says 9 "99" "/test"] 5 Sample.quiet
  = (Some 9, Sample.quiet).
Proof.
  apply (@other_chats_are_ignored "42" Sample.services
           [Sample.says 7 "13" "/trigger"; Sample.says 9 "99" "/test"]
           5 Sample.quiet).
  repeat constructor; discriminate.
Defined.

Lemma processUpdates_highest (chatId : string) (sv : Services)
      (updates : list TelegramUpdate) :
  forall (lastId : nat) (log log' : Log) (n : nat),
    processUpdates chatId sv updates lastId log = (Some n, log') ->
    lastId <= n
    /\ Forall (fun u => update_id u <= n) updates
    /\ (n = lastId \/ In n (map update_id updates)).
Proof.
  induction updates as [|u updates IH]; intros lastId log log' n;
    cbn [processUpdates map].
  - intro H. injection H as <- _. auto.
  - destruct (handleUpdate chatId sv u log) as [[[]|] log1]; [|discriminate].
    intro H. apply IH in H as (Hle & Hall & Hin).
    split; [lia|]. split; [constructor; [lia|exact Hall]|].
    destruct Hin as [->|Hin]; [|right; now right].
    destruct (Nat.max_spec lastId (update_id u)) as [[_ ->]|[_ ->]];
      [right; now left|now left].
Qed.

(** X25. When [main] writes the state file, the id it writes is the
    highest among the id it started from and the ids of the updates it
    went through, so the next poll asks for none of them again; no other
    entry of the state map read after the loop is changed. *)
Theorem saved_update_id_is_the_highest (token chatId : string) (lastId : nat)
        (poll : option (option (list TelegramUpdate))) (sv : Services)
        (freshState st : Dict.t string) (log log' : Log) :
  main token chatId lastId poll sv freshState log = (Some (Some st), log') ->
  exists updates n,
    poll = Some (Some updates)
    /\ updates <> []
    /\ st = Dict.set BOT_UPDATE_KEY (Str.ofNat n) freshState
    /\ lastId <= n
    /\ Forall (fun u => update_id u <= n) updates
    /\ (n = lastId \/ In n (map update_id updates))
    /\ forall k, k <> BOT_UPDATE_KEY -> Dict.get k st = Dict.get k freshState.
Proof.
  unfold main.
  destruct (negb (Str.truthy token) || negb (Str.truthy chatId));
    [discriminate|].
  destruct poll as [[[|u updates]|]|]; try discriminate.
  destruct (processUpdates chatId sv (u :: updates) lastId log)
    as [[n|] log1] eqn:E; [|discriminate].
  intro H. injection H as <- <-.
  apply processUpdates_highest in E as (Hle & Hall & Hin).
  exists (u :: updates), n. repeat split; auto; try discriminate.
  intros k Hk. apply get_set_other. congruence.
Qed.

(** The owner asks for a test. *)
Lemma saved_update_id_is_the_highest_witness :
  exists updates n,
    Some (Some [Sample.says 7 "42" "/test"]) = Some (Some updates)
    /\ updates <> []
    /\ [("k", "v"); (BOT_UPDATE_KEY, "7")]
       = Dict.set BOT_UPDATE_KEY (Str.ofNat n) [("k", "v")]
    /\ 5 <= n
    /\ Forall (fun u => update_id u <= n) updates
    /\ (n = 5 \/ In n (map update_id updates))
    /\ forall k, k <> BOT_UPDATE_KEY ->
                 Dict.get k [("k", "v"); (BOT_UPDATE_KEY, "7")]
                 = Dict.get k [("k", "v")].
Proof.
  apply (@saved_update_id_is_the_highest "t" "42" 5
           (Some (Some [Sample.says 7 "42" "/test"])) Sample.services
           [("k", "v")] [("k", "v"); (BOT_UPDATE_KEY, "7")] Sample.quiet
           {| posted := [alive]; dispatched := [] |}).
  vm_compute. reflexivity.
Defined.





End BotFacts.

(** ** Attribute values and the base URL *)

Section AttributeFacts.

Import Scraper.

(** X27. An attribute value never makes the extraction fail: once cheerio
    has answered the query, the field gets the attribute's value as it is
    when the attribute is absent or empty, when no base URL is configured,
    or when the value cannot be resolved against the base; in the one
    case left, a value that is not empty and resolves against a base that
    is not empty, it gets the resolved URL. *)
Theorem attribute_value_is_resolved_or_kept_raw (rt : Runtime) (base : option string)
        (el : Element) (selectorRaw selector attr : string)
        (raw : option string) :
  attrMatch selectorRaw = Some (selector, attr) ->
  el_find_attr el selector attr = Some raw ->
  exists value,
    extractField rt base el selectorRaw = Some value
    /\ (raw = None \/ raw = Some EmptyString \/ base = None
        \/ base = Some EmptyString
        \/ (exists r b, raw = Some r /\ base = Some b
                        /\ URL_resolve rt r b = None) ->
        value = raw)
    /\ (forall r b u,
           raw = Some r -> r <> EmptyString ->
           base = Some b -> b <> EmptyString ->
           URL_resolve rt r b = Some u ->
           value = Some u).
Proof.
  intros Hm Hq. unfold extractField. rewrite Hm, Hq.
  destruct raw as [r|].
  2:{ exists None. split; [reflexivity|]. split; [auto|].
      intros r b u Hr. discriminate. }
  destruct base as [b|].
  2:{ exists (Some r). split; [reflexivity|]. split; [auto|].
      intros r' b u _ _ Hb. discriminate. }
  destruct r as [|x r].
  { exists (Some EmptyString). cbn. split; [reflexivity|]. split; [auto|].
    intros r' b' u Hr Hne. injection Hr as <-. now contradiction Hne. }
  destruct b as [|y b].
  { exists (Some (String x r)). cbn. split; [reflexivity|]. split; [auto|].
    intros r' b' u _ _ Hb Hne. injection Hb as <-. now contradiction Hne. }
  cbn [Str.truthy andb].
  destruct (URL_resolve rt (String x r) (String y b)) as [u|] eqn:E.
  - exists (Some u). split; [reflexivity|]. split.
    + intros [H|[H|[H|[H|(r' & b' & Hr & Hb & Hu)]]]]; try discriminate.
      injection Hr as <-. injection Hb as <-. rewrite E in Hu. discriminate.
    + intros r' b' u' Hr _ Hb _ Hu. injection Hr as <-. injection Hb as <-.
      rewrite E in Hu. now injection Hu as <-.
  - exists (Some (String x r)). split; [reflexivity|]. split; [auto|].
    intros r' b' u' Hr _ Hb _ Hu. injection Hr as <-. injection Hb as <-.
    rewrite E in Hu. discriminate.
Qed.

(** A relative link of the sample shop, resolved against its base URL. *)
Lemma attribute_value_is_resolved_or_kept_raw_witness :
  exists value,
    extractField Node.runtime (Some "https://shop.example") Sample.tileA
      "a.title@href" = Some value
    /\ (Some "/products/a/" = None \/ Some "/products/a/" = Some EmptyString
        \/ Some "https://shop.example" = None
        \/ Some "https://shop.example" = Some EmptyString
        \/ (exists r b, Some "/products/a/" = Some r
                        /\ Some "https://shop.example" = Some b
                        /\ URL_resolve Node.runtime r b = None) ->
        value = Some "/products/a/")
    /\ (forall r b u,
           Some "/products/a/" = Some r -> r <> EmptyString ->
           Some "https://shop.example" = Some b -> b <> EmptyString ->
           URL_resolve Node.runtime r b = Some u ->
           value = Some u).
Proof.
  apply (@attribute_value_is_resolved_or_kept_raw Node.runtime
           (Some "https://shop.example") Sample.tileA
           "a.title@href" "a.title" "href" (Some "/products/a/"));
    reflexivity.
Defined.

(** The same link computed: the field holds the resolved URL. *)
Lemma relative_link_is_resolved :
  extractField Node.runtime (Some "https://shop.example") Sample.tileA
    "a.title@href"
  = Some (Some "https://shop.example/products/a/").
Proof. reflexivity. Qed.

End AttributeFacts.
